(** * Monte-Carlo tree search bot ([ggpa/mcts_bot.py])

    A shallow embedding of [TreeNode] and [MCTSAgent] and the properties of
    the search tree they maintain.

    Modelling choices.
    - Python objects of class [TreeNode] live in an arena ([Heap]): a node
      reference is its index, [TreeNode(...)] appends a node, and attribute
      assignment is an update in place.  The [parent] back-reference and
      the [children] dictionary hold such references, so the sharing
      between a node, its parent and its siblings is the one of the code.
    - A dictionary is an association list in insertion order (the order
      [children.values()] iterates in).
    - Numbers are read in two ways.  In the first part a Python float is
      idealised as a real number ([R]); it serves for what rounding does
      not touch: the shape of the tree, what is recorded where, which
      calls fail.  The part [B64] takes a float as it is, IEEE 754
      binary64, and serves for what rounding decides: which child has the
      greater weight or mean score, and the digits [print_tree] shows.
      In both, [math.log] and [math.sqrt] raise [ValueError] outside
      their domain and [/] raises [ZeroDivisionError], as in Python.
    - The module-level random source is an explicit tape of draws
      ([Rng]); [random.choice] consumes one draw.
    - The game engine (battle state, actions) is external to the file: it
      is the interface [Engine].
    - Recursion that is not structural ([select], the [while] loop of
      [rollout], the walk of [backpropagate] to the root, [print_tree])
      takes a fuel argument; running out of it is the outcome [OutOfFuel],
      distinct from every Python exception. *)

From Stdlib Require Import Floats.
From Stdlib Require Import Reals Lra Lia ZArith String List.
From stdpp Require Import base list strings pretty.

Local Open Scope nat_scope.

(** ** Outcomes of a call *)

Inductive exn : Type :=
  | ZeroDivisionError
  | ValueError
  | IndexError
  | KeyError
  | AttributeError
  | TypeError
  | OverflowError
  | BadRef. (* a reference outside the arena; no Python counterpart *)

Inductive res (A : Type) : Type :=
  | Ok (a : A)
  | Raise (e : exn)
  | OutOfFuel.

Arguments Ok {A} a.
Arguments Raise {A} e.
Arguments OutOfFuel {A}.

#[global] Instance res_ret : MRet res := fun A a => Ok a.
#[global] Instance res_bind : MBind res := fun A B f m =>
  match m with
  | Ok a => f a
  | Raise e => Raise e
  | OutOfFuel => OutOfFuel
  end.

Definition of_option {A : Type} (e : exn) (o : option A) : res A :=
  match o with
  | Some a => Ok a
  | None => Raise e
  end.

(** ** The random source *)

Definition Rng : Type := list nat.

Definition draw (g : Rng) : nat * Rng :=
  match g with
  | [] => (0, [])
  | n :: g' => (n, g')
  end.

(** [random.choice(seq)]: [IndexError] on an empty sequence, otherwise the
    element at the drawn position. *)
Definition random_choice {A : Type} (l : list A) (g : Rng) : res (A * Rng) :=
  match l with
  | [] => Raise IndexError
  | x :: _ => let '(n, g') := draw g in Ok (nth (n mod length l) l x, g')
  end.

(** ** Python arithmetic on idealised floats *)

(** [x / n] for a length [n]. *)
Definition py_div (x : R) (n : nat) : res R :=
  if n =? 0 then Raise ZeroDivisionError else Ok (x / INR n)%R.

Definition math_log (x : R) : res R :=
  if Rlt_dec 0 x then Ok (ln x) else Raise ValueError.

Definition math_sqrt (x : R) : res R :=
  if Rle_dec 0 x then Ok (sqrt x) else Raise ValueError.

(** [sum(l)]: left to right from [0]. *)
Definition py_sum (l : list R) : R := fold_left Rplus l 0%R.

(** [int(x)]: truncation toward zero. *)
Definition py_int (x : R) : Z :=
  if Rle_dec 0 x then Int_part x else (- Int_part (- x))%Z.

(** ** Dictionaries in insertion order *)

Section Dict.
Context {K V : Type} `{EqDecision K}.

Fixpoint dict_get (k : K) (d : list (K * V)) : option V :=
  match d with
  | [] => None
  | (k', v) :: d' => if decide (k = k') then Some v else dict_get k d'
  end.

Definition dict_mem (k : K) (d : list (K * V)) : bool :=
  match dict_get k d with Some _ => true | None => false end.

(** [d[k] = v]: replaces the value of a present key where it stands,
    appends an absent one. *)
Fixpoint dict_set (k : K) (v : V) (d : list (K * V)) : list (K * V) :=
  match d with
  | [] => [(k, v)]
  | (k', v') :: d' =>
      if decide (k = k') then (k, v) :: d' else (k', v') :: dict_set k v d'
  end.

Definition dict_values (d : list (K * V)) : list V := map snd d.
End Dict.

(** ** The engine interface

    What the bot asks of a battle state and of its actions.  [step] and
    [copy_undeterministic] may consume randomness. *)

Class Engine (State Action Key Move : Type) := {
  key_eq_dec :: EqDecision Key;
  get_actions : State -> list Action;
  key : Action -> Key;
  str : Action -> string;
  to_action : Action -> State -> Move;
  step : State -> Action -> Rng -> State * Rng;
  ended : State -> bool;
  get_end_result : State -> Z;
  state_score : State -> R;
  health : State -> R;
  copy_undeterministic : State -> Rng -> State * Rng
}.

(** ** Tree nodes *)

Record TreeNode (Key : Type) : Type := mkTreeNode {
  children : list (Key * nat);
  parent : option nat;
  results : list R;
  param : R;
  sc : R;
  action : option Key;
  aname : option string
}.

Arguments mkTreeNode {Key}.
Arguments children {Key}.
Arguments parent {Key}.
Arguments results {Key}.
Arguments param {Key}.
Arguments sc {Key}.
Arguments action {Key}.
Arguments aname {Key}.

(** The arena: the nodes constructed so far, in order of construction. *)
Abbreviation Heap Key := (list (TreeNode Key)).

Section Node.
Context {Key : Type}.

(** [TreeNode.__init__] *)
Definition TreeNode_init (p : R) (par : option nat) : TreeNode Key :=
  mkTreeNode [] par [] p (1 / 2)%R None None.

Definition set_children (cs : list (Key * nat)) (n : TreeNode Key) :=
  mkTreeNode cs (parent n) (results n) (param n) (sc n) (action n) (aname n).

Definition set_results (rs : list R) (n : TreeNode Key) :=
  mkTreeNode (children n) (parent n) rs (param n) (sc n) (action n) (aname n).

Definition set_sc (x : R) (n : TreeNode Key) :=
  mkTreeNode (children n) (parent n) (results n) (param n) x (action n) (aname n).

Definition set_action (k : Key) (n : TreeNode Key) :=
  mkTreeNode (children n) (parent n) (results n) (param n) (sc n) (Some k) (aname n).

Definition set_aname (s : string) (n : TreeNode Key) :=
  mkTreeNode (children n) (parent n) (results n) (param n) (sc n) (action n) (Some s).

Definition get_node (h : Heap Key) (n : nat) : res (TreeNode Key) :=
  of_option BadRef (h !! n).

(** [TreeNode.backpropagate] *)
Fixpoint backpropagate (fuel : nat) (self : nat) (result : R) (h : Heap Key)
  : res (Heap Key) :=
  match fuel with
  | 0 => OutOfFuel
  | S fuel' =>
      nd ← get_node h self;
      let rs := results nd ++ [result] in
      m ← py_div (py_sum rs) (length rs);
      let h1 := <[self := set_sc m (set_results rs nd)]> h in
      match parent nd with
      | Some p => backpropagate fuel' p result h1
      | None => Ok h1
      end
  end.
End Node.

(** ** The search: [TreeNode] methods and [MCTSAgent.choose_card] *)

Section Search.
Context {State Action Key Move : Type} `{Engine State Action Key Move}.

(** The builtin [str] on a float; its digits are Python's business. *)
Variable str_float : R -> string.

(** [TreeNode.score] *)
Definition score (state : State) : R :=
  if ended state then
    if (get_end_result state =? 1)%Z then 1%R
    else ((state_score state + health state) / 3)%R
  else ((state_score state + health state) / 3)%R.

(** The [while] loop of [TreeNode.rollout]. *)
Fixpoint playout (fuel : nat) (state : State) (g : Rng) : res (State * Rng) :=
  match fuel with
  | 0 => OutOfFuel
  | S fuel' =>
      if ended state then Ok (state, g)
      else
        '(a, g1) ← random_choice (get_actions state) g;
        let '(state', g2) := step state a g1 in
        playout fuel' state' g2
  end.

(** [TreeNode.rollout] *)
Definition rollout (fuel : nat) (self : nat) (state : State)
    (h : Heap Key) (g : Rng) : res (Heap Key * Rng) :=
  '(state', g') ← playout fuel state g;
  h' ← backpropagate fuel self (score state') h;
  Ok (h', g').

(** [TreeNode.expand] *)
Definition expand (fuel : nat) (self : nat) (state : State)
    (available : list Action) (h : Heap Key) (g : Rng)
  : res (Heap Key * Rng) :=
  let '(statecopy, g1) := copy_undeterministic state g in
  '(choice, g2) ← random_choice available g1;
  nd ← get_node h self;
  let nn := length h in
  let h1 := h ++ [TreeNode_init (param nd) (Some self)] in
  let h2 := <[self := set_children (dict_set (key choice) nn (children nd)) nd]> h1 in
  nnd ← get_node h2 nn;
  let h3 := <[nn := set_aname (str choice) (set_action (key choice) nnd)]> h2 in
  let '(statecopy', g3) := step statecopy choice g2 in
  rollout fuel nn statecopy' h3 g3.

(** The exploration-augmented weight of a child [c] seen from [self]. *)
Definition ucb_weight (self c : TreeNode Key) : res R :=
  ratio ← py_div (INR (length (results self))) (length (results c));
  l ← math_log ratio;
  r ← math_sqrt l;
  Ok (sc c + param self * r)%R.

(** The second [for] loop of [TreeNode.select]; [best] is the pair
    [(amax, cmax)], [None] while both are [None]. *)
Fixpoint select_loop (h : Heap Key) (self : TreeNode Key) (acts : list Action)
    (best : option (Action * nat)) (cmax_weight : R)
  : res (option (Action * nat)) :=
  match acts with
  | [] => Ok best
  | a :: rest =>
      c ← of_option KeyError (dict_get (key a) (children self));
      cn ← get_node h c;
      cweight ← ucb_weight self cn;
      if Rgt_dec cweight cmax_weight
      then select_loop h self rest (Some (a, c)) cweight
      else select_loop h self rest best cmax_weight
  end.

(** [TreeNode.select] *)
Fixpoint select (fuel : nat) (self : nat) (state : State)
    (h : Heap Key) (g : Rng) : res (Heap Key * Rng) :=
  match fuel with
  | 0 => OutOfFuel
  | S fuel' =>
      if ended state then
        h' ← backpropagate fuel' self (score state) h;
        Ok (h', g)
      else
        let '(statecopy, g1) := copy_undeterministic state g in
        nd ← get_node h self;
        let available_actions :=
          List.filter (fun a => negb (dict_mem (key a) (children nd)))
                      (get_actions statecopy) in
        if 0 <? length available_actions then
          expand fuel' self statecopy available_actions h g1
        else
          best ← select_loop h nd (get_actions statecopy) None (-1)%R;
          match best with
          | None => Raise AttributeError
          | Some (amax, cmax) =>
              let '(statecopy', g2) := step statecopy amax g1 in
              select fuel' cmax statecopy' h g2
          end
  end.

(** [TreeNode.step] *)
Definition tree_step (fuel : nat) (self : nat) (state : State)
    (h : Heap Key) (g : Rng) : res (Heap Key * Rng) :=
  select fuel self state h g.

(** The loop of [TreeNode.get_best]. *)
Fixpoint get_best_loop (h : Heap Key) (self : TreeNode Key) (acts : list Action)
    (amax : option Action) (cmax_weight : R) : res (option Action) :=
  match acts with
  | [] => Ok amax
  | a :: rest =>
      if dict_mem (key a) (children self) then
        c ← of_option KeyError (dict_get (key a) (children self));
        cn ← get_node h c;
        if Rgt_dec (sc cn) cmax_weight
        then get_best_loop h self rest (Some a) (sc cn)
        else get_best_loop h self rest amax cmax_weight
      else get_best_loop h self rest amax cmax_weight
  end.

(** [TreeNode.get_best] *)
Definition get_best (self : nat) (state : State) (h : Heap Key) (g : Rng)
  : res (Action * Rng) :=
  nd ← get_node h self;
  amax ← get_best_loop h nd (get_actions state) None (-1)%R;
  match amax with
  | Some a => Ok (a, g)
  | None => random_choice (get_actions state) g
  end.

(** ["\t"] *)
Definition tab : string := String (Ascii.ascii_of_nat 9) EmptyString.

(** [s * n] on strings. *)
Fixpoint str_repeat (s : string) (n : nat) : string :=
  match n with
  | 0 => EmptyString
  | S n' => s +:+ str_repeat s n'
  end.

(** [int(c.sc * 100) / 100], the number [print_tree] shows for [c]. *)
Definition shown_score (c : TreeNode Key) : R :=
  (IZR (py_int (sc c * 100)) / 100)%R.

(** The text [print_tree] prints for the child [c] at depth [indent]. *)
Definition tree_line (indent : nat) (c : TreeNode Key) : res string :=
  nm ← of_option TypeError (aname c);
  Ok (str_repeat tab indent
      +:+ nm +:+ ": " +:+ str_float (shown_score c)
      +:+ " " +:+ pretty (length (results c))).

(** The body of the [for] loop of [print_tree], [rec] being the recursive
    call on a child. *)
Fixpoint print_each (h : Heap Key) (indent : nat)
    (rec : nat -> res (list string)) (cs : list nat) : res (list string) :=
  match cs with
  | [] => Ok []
  | c :: cs' =>
      cn ← get_node h c;
      s ← tree_line indent cn;
      below ← rec c;
      rest ← print_each h indent rec cs';
      Ok (s :: below ++ rest)
  end.

(** [TreeNode.print_tree]; the result is the list of lines printed. *)
Fixpoint print_tree (fuel : nat) (self : nat) (indent : nat) (h : Heap Key)
  : res (list string) :=
  match fuel with
  | 0 => OutOfFuel
  | S fuel' =>
      nd ← get_node h self;
      print_each h indent (fun c => print_tree fuel' c (S indent) h)
        (dict_values (children nd))
  end.

(** The [for] loop of [MCTSAgent.choose_card]. *)
Fixpoint iterate (fuel : nat) (n : nat) (t : nat) (battle_state : State)
    (h : Heap Key) (g : Rng) : res (Heap Key * Rng) :=
  match n with
  | 0 => Ok (h, g)
  | S n' =>
      let '(sample_state, g1) := copy_undeterministic battle_state g in
      '(h', g2) ← tree_step fuel t sample_state h g1;
      iterate fuel n' t battle_state h' g2
  end.

(** What a call of [choose_card] leaves behind: the nodes it constructed,
    the random source and the lines it printed. *)
Record Trace : Type := mkTrace {
  nodes : Heap Key;
  rng : Rng;
  printed : list string
}.

(** [MCTSAgent.choose_card].  [get_best] never returns [None], so the
    branch under [if best_action is None] is not taken. *)
Definition choose_card (fuel : nat) (iterations : Z) (verbose : bool) (p : R)
    (battle_state : State) (g : Rng) : res (Move * Trace) :=
  let actions := get_actions battle_state in
  match actions with
  | [a] => Ok (to_action a battle_state, mkTrace [] g [])
  | _ =>
      let t := 0 in
      let h0 := [TreeNode_init p None] in
      '(h, g1) ← iterate fuel (Z.to_nat iterations) t battle_state h0 g;
      '(best_action, g2) ← get_best t battle_state h g1;
      out ← (if verbose then print_tree fuel t 0 h else Ok []);
      Ok (to_action best_action battle_state, mkTrace h g2 out)
  end.

End Search.

(** ** The shape of an arena *)

Section Shape.
Context {Key : Type}.

(** [mean l] is [sum(l) / len(l)]. *)
Definition mean (l : list R) : R := (py_sum l / INR (length l))%R.

(** The node after one more outcome has been recorded in it. *)
Definition bump (v : R) (nd : TreeNode Key) : TreeNode Key :=
  set_sc (mean (results nd ++ [v])) (set_results (results nd ++ [v]) nd).

(** [anc h n m]: [m] is [n] or is reached from [n] along [parent]. *)
Inductive anc (h : Heap Key) : nat -> nat -> Prop :=
  | anc_self n : anc h n n
  | anc_up n nd p m :
      h !! n = Some nd -> parent nd = Some p -> anc h p m -> anc h n m.

(** [below h self c d]: [c] is reached from [self] along [children], [d]
    levels below the children of [self]. *)
Inductive below (h : Heap Key) : nat -> nat -> nat -> Prop :=
  | below_child self nd k c :
      h !! self = Some nd -> (k, c) ∈ children nd -> below h self c 0
  | below_deeper self nd k c c' d :
      h !! self = Some nd -> (k, c) ∈ children nd ->
      below h c c' d -> below h self c' (S d).

(** Every parent was constructed before its child. *)
Definition parents_lt (h : Heap Key) : Prop :=
  forall n nd p, h !! n = Some nd -> parent nd = Some p -> p < n.

(** [bumped h h' n v]: [h'] is [h] with [v] recorded once in [n] and in
    each of its ancestors, and nothing else changed. *)
Definition bumped (h h' : Heap Key) (n : nat) (v : R) : Prop :=
  length h' = length h /\
  forall m nd, h !! m = Some nd ->
    (anc h n m /\ h' !! m = Some (bump v nd)) \/
    (~ anc h n m /\ h' !! m = Some nd).

Record wf_heap (h : Heap Key) : Prop := {
  wf_parent_lt : parents_lt h;
  wf_visits : forall n nd p pd,
    h !! n = Some nd -> parent nd = Some p -> h !! p = Some pd ->
    length (results nd) <= length (results pd);
  wf_child : forall n nd k c,
    h !! n = Some nd -> (k, c) ∈ children nd ->
    exists cd, h !! c = Some cd /\ parent cd = Some n /\ is_Some (aname cd);
  wf_values : forall n nd, h !! n = Some nd -> NoDup (dict_values (children nd));
  wf_mean : forall n nd,
    h !! n = Some nd -> results nd <> [] -> sc nd = mean (results nd)
}.

(** Every node below a root holds at least one outcome. *)
Definition visited (h : Heap Key) : Prop :=
  forall n nd p, h !! n = Some nd -> parent nd = Some p ->
    1 <= length (results nd).

Definition Inv (h : Heap Key) : Prop := wf_heap h /\ visited h.

(** The node [expand] constructs below [self] for an action of key [k]
    and text [nm], before its first outcome is recorded. *)
Definition fresh_child (self : nat) (nd : TreeNode Key) (k : Key) (nm : string)
  : TreeNode Key :=
  set_aname nm (set_action k (TreeNode_init (param nd) (Some self))).

(** The arena once [expand] has linked that node under [self]. *)
Definition grow `{EqDecision Key} (h : Heap Key) (self : nat)
    (nd : TreeNode Key) (k : Key) (nm : string) : Heap Key :=
  <[length h := fresh_child self nd k nm]>
    (<[self := set_children (dict_set k (length h) (children nd)) nd]>
       (h ++ [TreeNode_init (param nd) (Some self)])).

End Shape.

(** ** What a printed line says *)

Section Lines.
Context {Key : Type}.
Variable str_float : R -> string.

(** [line_of h indent (c, d) line]: [line] is the text for the node [c]
    of [h], indented by [indent + d] tabs. *)
Definition line_of (h : Heap Key) (indent : nat) (cd : nat * nat)
    (line : string) : Prop :=
  exists c nm, h !! cd.1 = Some c /\ aname c = Some nm /\
    line = str_repeat tab (indent + cd.2) +:+ nm +:+ ": "
           +:+ str_float (shown_score c) +:+ " "
           +:+ pretty (length (results c)).

End Lines.

(** ** Trees the search can build *)

Section Reach.
Context {State Action Key Move : Type} `{Engine State Action Key Move}.

(** The arenas [choose_card] goes through between two iterations: the
    fresh root, then whatever a completed [step] on the root leaves. *)
Inductive reachable : Heap Key -> Prop :=
  | reach_root p : reachable [TreeNode_init p None]
  | reach_step h fuel state g h' g' :
      reachable h ->
      tree_step fuel 0 state h g = Ok (h', g') ->
      reachable h'.

(** The value the selection loop compares, as a formula. *)
Definition ucb_value (self c : TreeNode Key) : R :=
  (sc c + param self *
     sqrt (ln (INR (length (results self)) / INR (length (results c)))))%R.

(** The child the selection loop looks at for the action [a], with its
    weight. *)
Definition child_weight (h : Heap Key) (self : TreeNode Key) (a : Action)
  : res (nat * R) :=
  c ← of_option KeyError (dict_get (key a) (children self));
  cn ← get_node h c;
  w ← ucb_weight self cn;
  Ok (c, w).

(** What [expand] would be if it applied the action to the state it is
    given; the code applies it to a further resample of that state. *)
Definition expand_without_resample (fuel : nat) (self : nat) (state : State)
    (available : list Action) (h : Heap Key) (g : Rng)
  : res (Heap Key * Rng) :=
  '(choice, g2) ← random_choice available g;
  nd ← get_node h self;
  let '(successor, g3) := step state choice g2 in
  rollout fuel (length h) successor
    (grow h self nd (key choice) (str choice)) g3.

(** The child [get_best] looks at for the action [a], with its mean. *)
Definition child_mean (h : Heap Key) (self : TreeNode Key) (a : Action)
  : option R :=
  match dict_get (key a) (children self) with
  | Some c => match h !! c with Some cn => Some (sc cn) | None => None end
  | None => None
  end.

End Reach.

(** ** A small engine to run the search on

    One decision among the actions in [hand]; the game ends after it, and
    has ended from the start when the hand is empty.
    A resample redraws the hidden number; the fitness is [base] plus the
    hidden number, and playing [0] with hidden number [1] is a win. *)

Module Toy.

Record ToyState : Type := mkToy {
  hand : list nat;
  played : list nat;
  hidden : nat
}.

Definition toy_actions (s : ToyState) : list nat :=
  match played s with
  | [] => hand s
  | _ => []
  end.

Definition toy_ended (s : ToyState) : bool :=
  match played s, hand s with
  | [], _ :: _ => false
  | _, _ => true
  end.

Definition toy_result (s : ToyState) : Z :=
  match played s, hidden s with
  | [0], 1 => 1
  | _, _ => 0
  end.

Definition toy_str (a : nat) : string :=
  match a with
  | 0 => "A"
  | _ => "B"
  end.

Definition toy_copy (s : ToyState) (g : Rng) : ToyState * Rng :=
  let '(n, g') := draw g in (mkToy (hand s) (played s) n, g').

#[local] Instance toy (base : Z) : Engine ToyState nat nat nat := {|
  key_eq_dec := Nat.eq_dec;
  get_actions := toy_actions;
  key := fun a => a;
  str := toy_str;
  to_action := fun a _ => a;
  step := fun s a g => (mkToy (hand s) (played s ++ [a]) (hidden s), g);
  ended := toy_ended;
  get_end_result := toy_result;
  state_score := fun s => IZR (base + Z.of_nat (hidden s));
  health := fun _ => 0%R;
  copy_undeterministic := toy_copy
|}.

Definition start : ToyState := mkToy [0; 1] [] 0.

(** [str] on the two floats the examples print. *)
Definition toy_str_float (x : R) : string :=
  if Req_dec_T x (66 / 100)%R then "0.66"
  else if Req_dec_T x (67 / 100)%R then "0.67"
  else "0.0".

(** The outcome of a playout that ends with hidden number [0]. *)
Definition outcome (base : Z) : R := ((IZR (base + 0) + 0) / 3)%R.

Definition leaf (p : R) (k : nat) (nm : string) (v : R) : TreeNode nat :=
  mkTreeNode [] (Some 0) [v] p ((0 + v) / INR 1)%R (Some k) (Some nm).

(** The tree after one iteration from [start] when every draw is [0]. *)
Definition tree1 (p : R) (v : R) : Heap nat :=
  [mkTreeNode [(0, 1)] None [v] p ((0 + v) / INR 1)%R None None;
   leaf p 0 "A" v].

(** The tree after two such iterations. *)
Definition tree2 (p : R) (v : R) : Heap nat :=
  [mkTreeNode [(0, 1); (1, 2)] None [v; v] p ((0 + v + v) / INR 2)%R None None;
   leaf p 0 "A" v;
   leaf p 1 "B" v].

End Toy.

(** ** What one iteration does to the arena *)

Section Effects.
Context {State Action Key Move : Type} `{Engine State Action Key Move}.

(** [expanded h hx]: [hx] is [h], or [h] with a node newly linked under
    one of its nodes, for an action whose key had no child there. *)
Inductive expanded (h : Heap Key) : Heap Key -> Prop :=
  | expanded_none : expanded h h
  | expanded_one m nd a :
      h !! m = Some nd -> dict_mem (key a) (children nd) = false ->
      expanded h (grow h m nd (key a) (str a)).

(** How the nodes of a tree are labelled and linked: only the root has no
    parent; every other node stands in the dictionary of its parent under
    the key of an action, and carries that key and the text of that
    action; the keys of a dictionary are distinct; every node carries the
    exploration parameter of the root. *)
Record labelled (h : Heap Key) : Prop := {
  lab_root : forall nd, h !! 0 = Some nd ->
    parent nd = None /\ action nd = None /\ aname nd = None;
  lab_orphan : forall m nd, h !! m = Some nd -> parent nd = None -> m = 0;
  lab_child : forall m nd p, h !! m = Some nd -> parent nd = Some p ->
    exists pd a, h !! p = Some pd /\ (key a, m) ∈ children pd /\
      action nd = Some (key a) /\ aname nd = Some (str a);
  lab_keys : forall n nd, h !! n = Some nd -> NoDup (children nd).*1;
  lab_param : forall m nd r, h !! m = Some nd -> h !! 0 = Some r ->
    param nd = param r
}.

(** Every recorded outcome satisfies [P]. *)
Definition outcomes_in (P : R -> Prop) (h : Heap Key) : Prop :=
  forall m nd r, h !! m = Some nd -> r ∈ results nd -> P r.

(** The outcomes held by the children in a dictionary, added up. *)
Definition child_visits (h : Heap Key) (cs : list (Key * nat)) : nat :=
  sum_list_with (fun kc : Key * nat =>
                   match h !! kc.2 with
                   | Some cd => length (results cd)
                   | None => 0
                   end) cs.

(** What the search asks of an engine for a decision never to fail: a
    resample of a state has ended exactly when the state has; a state that
    has not ended has a legal action; the score of a state that has ended
    is at least [lo]. *)
Record engine_contract (lo : R) : Prop := {
  resample_ended : forall s g, ended (copy_undeterministic s g).1 = ended s;
  legal_action : forall s, ended s = false -> get_actions s <> [];
  score_above : forall s, ended s = true -> (lo <= score s)%R
}.

End Effects.

(** * The search on binary64 floats

    The methods of [TreeNode] once more, with Python's [float] as the
    interpreter has it: IEEE 754 binary64, every operation rounded to
    nearest ([PrimFloat]).  Which of two scores is greater, and which
    digits [print_tree] shows, is decided here.
    - [>], [+], [*], [/], [math.sqrt] and [int] are computed.
    - [math.log] on a positive float, the builtin [sum] on a list of
      floats (addition from left to right, compensated since Python 3.12)
      and the builtin [str] on a float are the runtime's business: the
      interface [Runtime].
    - An [int] that meets a float ([1] returned by [score], [-1] the loops
      start from, a length) is the float of the same value; a length is
      below [2^53], where that float is exact. *)

#[local] Set Warnings "-inexact-float".

Module B64.

(** ** Python arithmetic on binary64 floats *)

(** An [int] as a float, rounded to nearest. *)
Definition float_of_Z (k : Z) : float :=
  SF2Prim (binary_normalize prec emax k 0 false).

Definition float_of_nat (n : nat) : float := float_of_Z (Z.of_nat n).

(** [x > y] *)
Definition gt (x y : float) : bool := (y <? x)%float.

(** [x / n] for a length [n]. *)
Definition py_div (x : float) (n : nat) : res float :=
  if n =? 0 then Raise ZeroDivisionError else Ok (x / float_of_nat n)%float.

(** [math.sqrt(x)]: a domain error below zero, and [-0.0] for [-0.0]. *)
Definition math_sqrt (x : float) : res float :=
  if (x <? 0)%float then Raise ValueError else Ok (PrimFloat.sqrt x).

(** [int(x)]: truncation toward zero; [OverflowError] on an infinity and
    [ValueError] on a NaN. *)
Definition py_int (x : float) : res Z :=
  match Prim2SF x with
  | S754_zero _ => Ok 0%Z
  | S754_finite s m e => Ok (cond_Zopp s (Z.shiftl (Z.pos m) e))
  | S754_infinity _ => Raise OverflowError
  | S754_nan => Raise ValueError
  end.

(** What the bot takes from the Python runtime as it is. *)
Class Runtime := {
  libm_log : float -> float;
  py_sum : list float -> float;
  str_float : float -> string
}.

(** [math.log(x)]: a domain error at zero and below. *)
Definition math_log `{Runtime} (x : float) : res float :=
  if (x <=? 0)%float then Raise ValueError else Ok (libm_log x).

(** ** The engine interface, with fitness and health as floats *)

Class Engine (State Action Key Move : Type) := {
  key_eq_dec :: EqDecision Key;
  get_actions : State -> list Action;
  key : Action -> Key;
  str : Action -> string;
  to_action : Action -> State -> Move;
  step : State -> Action -> Rng -> State * Rng;
  ended : State -> bool;
  get_end_result : State -> Z;
  state_score : State -> float;
  health : State -> float;
  copy_undeterministic : State -> Rng -> State * Rng
}.

(** ** Tree nodes *)

Record TreeNode (Key : Type) : Type := mkTreeNode {
  children : list (Key * nat);
  parent : option nat;
  results : list float;
  param : float;
  sc : float;
  action : option Key;
  aname : option string
}.

Arguments mkTreeNode {Key}.
Arguments children {Key}.
Arguments parent {Key}.
Arguments results {Key}.
Arguments param {Key}.
Arguments sc {Key}.
Arguments action {Key}.
Arguments aname {Key}.

Abbreviation Heap Key := (list (TreeNode Key)).

Section Node.
Context {Key : Type} `{Runtime}.

(** [TreeNode.__init__] *)
Definition TreeNode_init (p : float) (par : option nat) : TreeNode Key :=
  mkTreeNode [] par [] p 0.5%float None None.

Definition set_children (cs : list (Key * nat)) (n : TreeNode Key) :=
  mkTreeNode cs (parent n) (results n) (param n) (sc n) (action n) (aname n).

Definition set_results (rs : list float) (n : TreeNode Key) :=
  mkTreeNode (children n) (parent n) rs (param n) (sc n) (action n) (aname n).

Definition set_sc (x : float) (n : TreeNode Key) :=
  mkTreeNode (children n) (parent n) (results n) (param n) x (action n) (aname n).

Definition set_action (k : Key) (n : TreeNode Key) :=
  mkTreeNode (children n) (parent n) (results n) (param n) (sc n) (Some k) (aname n).

Definition set_aname (s : string) (n : TreeNode Key) :=
  mkTreeNode (children n) (parent n) (results n) (param n) (sc n) (action n) (Some s).

Definition get_node (h : Heap Key) (n : nat) : res (TreeNode Key) :=
  of_option BadRef (h !! n).

(** [TreeNode.backpropagate] *)
Fixpoint backpropagate (fuel : nat) (self : nat) (result : float) (h : Heap Key)
  : res (Heap Key) :=
  match fuel with
  | 0 => OutOfFuel
  | S fuel' =>
      nd ← get_node h self;
      let rs := results nd ++ [result] in
      m ← py_div (py_sum rs) (length rs);
      let h1 := <[self := set_sc m (set_results rs nd)]> h in
      match parent nd with
      | Some p => backpropagate fuel' p result h1
      | None => Ok h1
      end
  end.
End Node.

(** ** The methods of [TreeNode] *)

Section Search.
Context {State Action Key Move : Type} `{Engine State Action Key Move}.
Context `{Runtime}.

(** [TreeNode.score] *)
Definition score (state : State) : float :=
  if ended state then
    if (get_end_result state =? 1)%Z then 1%float
    else ((state_score state + health state) / 3)%float
  else ((state_score state + health state) / 3)%float.

(** The [while] loop of [TreeNode.rollout]. *)
Fixpoint playout (fuel : nat) (state : State) (g : Rng) : res (State * Rng) :=
  match fuel with
  | 0 => OutOfFuel
  | S fuel' =>
      if ended state then Ok (state, g)
      else
        '(a, g1) ← random_choice (get_actions state) g;
        let '(state', g2) := step state a g1 in
        playout fuel' state' g2
  end.

(** [TreeNode.rollout] *)
Definition rollout (fuel : nat) (self : nat) (state : State)
    (h : Heap Key) (g : Rng) : res (Heap Key * Rng) :=
  '(state', g') ← playout fuel state g;
  h' ← backpropagate fuel self (score state') h;
  Ok (h', g').

(** [TreeNode.expand] *)
Definition expand (fuel : nat) (self : nat) (state : State)
    (available : list Action) (h : Heap Key) (g : Rng)
  : res (Heap Key * Rng) :=
  let '(statecopy, g1) := copy_undeterministic state g in
  '(choice, g2) ← random_choice available g1;
  nd ← get_node h self;
  let nn := length h in
  let h1 := h ++ [TreeNode_init (param nd) (Some self)] in
  let h2 := <[self := set_children (dict_set (key choice) nn (children nd)) nd]> h1 in
  nnd ← get_node h2 nn;
  let h3 := <[nn := set_aname (str choice) (set_action (key choice) nnd)]> h2 in
  let '(statecopy', g3) := step statecopy choice g2 in
  rollout fuel nn statecopy' h3 g3.

(** [c.sc + self.param * math.sqrt(math.log(len(self.results) / len(c.results)))] *)
Definition ucb_weight (self c : TreeNode Key) : res float :=
  ratio ← py_div (float_of_nat (length (results self))) (length (results c));
  l ← math_log ratio;
  r ← math_sqrt l;
  Ok (sc c + param self * r)%float.

(** The second [for] loop of [TreeNode.select]; [best] is the pair
    [(amax, cmax)], [None] while both are [None]. *)
Fixpoint select_loop (h : Heap Key) (self : TreeNode Key) (acts : list Action)
    (best : option (Action * nat)) (cmax_weight : float)
  : res (option (Action * nat)) :=
  match acts with
  | [] => Ok best
  | a :: rest =>
      c ← of_option KeyError (dict_get (key a) (children self));
      cn ← get_node h c;
      cweight ← ucb_weight self cn;
      if gt cweight cmax_weight
      then select_loop h self rest (Some (a, c)) cweight
      else select_loop h self rest best cmax_weight
  end.

(** [TreeNode.select] *)
Fixpoint select (fuel : nat) (self : nat) (state : State)
    (h : Heap Key) (g : Rng) : res (Heap Key * Rng) :=
  match fuel with
  | 0 => OutOfFuel
  | S fuel' =>
      if ended state then
        h' ← backpropagate fuel' self (score state) h;
        Ok (h', g)
      else
        let '(statecopy, g1) := copy_undeterministic state g in
        nd ← get_node h self;
        let available_actions :=
          List.filter (fun a => negb (dict_mem (key a) (children nd)))
                      (get_actions statecopy) in
        if 0 <? length available_actions then
          expand fuel' self statecopy available_actions h g1
        else
          best ← select_loop h nd (get_actions statecopy) None (-1)%float;
          match best with
          | None => Raise AttributeError
          | Some (amax, cmax) =>
              let '(statecopy', g2) := step statecopy amax g1 in
              select fuel' cmax statecopy' h g2
          end
  end.

(** [TreeNode.step] *)
Definition tree_step (fuel : nat) (self : nat) (state : State)
    (h : Heap Key) (g : Rng) : res (Heap Key * Rng) :=
  select fuel self state h g.

(** The loop of [TreeNode.get_best]. *)
Fixpoint get_best_loop (h : Heap Key) (self : TreeNode Key) (acts : list Action)
    (amax : option Action) (cmax_weight : float) : res (option Action) :=
  match acts with
  | [] => Ok amax
  | a :: rest =>
      if dict_mem (key a) (children self) then
        c ← of_option KeyError (dict_get (key a) (children self));
        cn ← get_node h c;
        if gt (sc cn) cmax_weight
        then get_best_loop h self rest (Some a) (sc cn)
        else get_best_loop h self rest amax cmax_weight
      else get_best_loop h self rest amax cmax_weight
  end.

(** [TreeNode.get_best] *)
Definition get_best (self : nat) (state : State) (h : Heap Key) (g : Rng)
  : res (Action * Rng) :=
  nd ← get_node h self;
  amax ← get_best_loop h nd (get_actions state) None (-1)%float;
  match amax with
  | Some a => Ok (a, g)
  | None => random_choice (get_actions state) g
  end.

(** [int(c.sc * 100) / 100], the number [print_tree] shows for [c]. *)
Definition shown_score (c : TreeNode Key) : res float :=
  k ← py_int (sc c * 100)%float;
  Ok (float_of_Z k / 100)%float.

(** The text [print_tree] prints for the child [c] at depth [indent]. *)
Definition tree_line (indent : nat) (c : TreeNode Key) : res string :=
  nm ← of_option TypeError (aname c);
  shown ← shown_score c;
  Ok (str_repeat tab indent
      +:+ nm +:+ ": " +:+ str_float shown
      +:+ " " +:+ pretty (length (results c))).

(** The body of the [for] loop of [print_tree], [rec] being the recursive
    call on a child. *)
Fixpoint print_each (h : Heap Key) (indent : nat)
    (rec : nat -> res (list string)) (cs : list nat) : res (list string) :=
  match cs with
  | [] => Ok []
  | c :: cs' =>
      cn ← get_node h c;
      s ← tree_line indent cn;
      below ← rec c;
      rest ← print_each h indent rec cs';
      Ok (s :: below ++ rest)
  end.

(** [TreeNode.print_tree]; the result is the list of lines printed. *)
Fixpoint print_tree (fuel : nat) (self : nat) (indent : nat) (h : Heap Key)
  : res (list string) :=
  match fuel with
  | 0 => OutOfFuel
  | S fuel' =>
      nd ← get_node h self;
      print_each h indent (fun c => print_tree fuel' c (S indent) h)
        (dict_values (children nd))
  end.

(** The [for] loop of [MCTSAgent.choose_card]. *)
Fixpoint iterate (fuel : nat) (n : nat) (t : nat) (battle_state : State)
    (h : Heap Key) (g : Rng) : res (Heap Key * Rng) :=
  match n with
  | 0 => Ok (h, g)
  | S n' =>
      let '(sample_state, g1) := copy_undeterministic battle_state g in
      '(h', g2) ← tree_step fuel t sample_state h g1;
      iterate fuel n' t battle_state h' g2
  end.

(** The arenas [choose_card] goes through between two iterations: the
    fresh root, then whatever a completed [step] on the root leaves. *)
Inductive reachable : Heap Key -> Prop :=
  | reach_root p : reachable [TreeNode_init p None]
  | reach_step h fuel state g h' g' :
      reachable h ->
      tree_step fuel 0 state h g = Ok (h', g') ->
      reachable h'.

(** The child the selection loop looks at for the action [a], with the
    weight it computes for it. *)
Definition child_weight (h : Heap Key) (self : TreeNode Key) (a : Action)
  : res (nat * float) :=
  c ← of_option KeyError (dict_get (key a) (children self));
  cn ← get_node h c;
  w ← ucb_weight self cn;
  Ok (c, w).

(** The child [get_best] looks at for the action [a], with its mean. *)
Definition child_mean (h : Heap Key) (self : TreeNode Key) (a : Action)
  : option float :=
  match dict_get (key a) (children self) with
  | Some c => match h !! c with Some cn => Some (sc cn) | None => None end
  | None => None
  end.

End Search.

(** ** The shape of an arena *)

Section Shape.
Context {Key : Type} `{Runtime}.

(** [anc h n m]: [m] is [n] or is reached from [n] along [parent]. *)
Inductive anc (h : Heap Key) : nat -> nat -> Prop :=
  | anc_self n : anc h n n
  | anc_up n nd p m :
      h !! n = Some nd -> parent nd = Some p -> anc h p m -> anc h n m.

(** [below h self c d]: [c] is reached from [self] along [children], [d]
    levels below the children of [self]. *)
Inductive below (h : Heap Key) : nat -> nat -> nat -> Prop :=
  | below_child self nd k c :
      h !! self = Some nd -> (k, c) ∈ children nd -> below h self c 0
  | below_deeper self nd k c c' d :
      h !! self = Some nd -> (k, c) ∈ children nd ->
      below h c c' d -> below h self c' (S d).

(** The arena is a forest: a parent was constructed before its child; a
    node found in a dictionary is in the arena, names the owner of the
    dictionary as its parent and carries a label; no node stands twice in
    a dictionary. *)
Record forest (h : Heap Key) : Prop := {
  forest_parent_lt : forall n nd p,
    h !! n = Some nd -> parent nd = Some p -> p < n;
  forest_child : forall n nd k c,
    h !! n = Some nd -> (k, c) ∈ children nd ->
    exists cd, h !! c = Some cd /\ parent cd = Some n /\ is_Some (aname cd);
  forest_values : forall n nd, h !! n = Some nd -> NoDup (dict_values (children nd))
}.

(** The arena once [expand] has linked a new node under [self], for an
    action of key [k] and text [nm]. *)
Definition grow `{EqDecision Key} (h : Heap Key) (self : nat)
    (nd : TreeNode Key) (k : Key) (nm : string) : Heap Key :=
  <[length h := set_aname nm (set_action k (TreeNode_init (param nd) (Some self)))]>
    (<[self := set_children (dict_set k (length h) (children nd)) nd]>
       (h ++ [TreeNode_init (param nd) (Some self)])).

(** [same_links h h']: the nodes of [h'] are those of [h] with their
    links and labels; only [results] and [sc] may differ. *)
Definition same_links (h h' : Heap Key) : Prop :=
  length h' = length h /\
  forall m nd, h !! m = Some nd ->
    exists nd', h' !! m = Some nd' /\ children nd' = children nd /\
      parent nd' = parent nd /\ aname nd' = aname nd.

(** [line_of h indent (c, d) line]: [line] is the text for the node [c]
    of [h], indented by [indent + d] tabs: its label, then [str] of its
    mean score times [100], cut to an integer and divided by [100], then
    the number of its results. *)
Definition line_of (h : Heap Key) (indent : nat) (cd : nat * nat)
    (line : string) : Prop :=
  exists c nm k, h !! cd.1 = Some c /\ aname c = Some nm /\
    py_int (sc c * 100)%float = Ok k /\
    line = str_repeat tab (indent + cd.2) +:+ nm +:+ ": "
           +:+ str_float (float_of_Z k / 100)%float +:+ " "
           +:+ pretty (length (results c)).

End Shape.

End B64.

(** ** The small engine with float fitness

    The game of [Toy], the fitness read from a table at the hidden
    number. *)

Module Toy64.

#[local] Instance toy (fit : list float) : B64.Engine Toy.ToyState nat nat nat := {|
  B64.key_eq_dec := Nat.eq_dec;
  B64.get_actions := Toy.toy_actions;
  B64.key := fun a => a;
  B64.str := Toy.toy_str;
  B64.to_action := fun a _ => a;
  B64.step := fun s a g =>
    (Toy.mkToy (Toy.hand s) (Toy.played s ++ [a]) (Toy.hidden s), g);
  B64.ended := Toy.toy_ended;
  B64.get_end_result := Toy.toy_result;
  B64.state_score := fun s => nth (Toy.hidden s) fit 0%float;
  B64.health := fun _ => 0%float;
  B64.copy_undeterministic := Toy.toy_copy
|}.

(** [math.log] on the quotients the examples meet. *)
Definition toy_log (x : float) : float :=
  if (x =? 1)%float then 0%float
  else if (x =? 2)%float then 0.6931471805599453%float
  else if (x =? 1.5)%float then 0.4054651081081644%float
  else nan.

(** [str] on the floats the examples print. *)
Definition toy_str_float (x : float) : string :=
  if (x =? 0.5)%float then "0.5"
  else if (x =? 0.66)%float then "0.66"
  else if (x =? 0.67)%float then "0.67"
  else "nan".

(** [sum] as a left-to-right addition from [0]. *)
#[local] Instance runtime : B64.Runtime := {|
  B64.libm_log := toy_log;
  B64.py_sum := fun l => fold_left PrimFloat.add l 0%float;
  B64.str_float := toy_str_float
|}.

(** Two fitness values a unit in the last place apart. *)
Definition close : list float := [1.5%float; 0%float; 1.5000000000000002%float].

(** From [Toy.start] with [close] and exploration parameter [0.5], the
    tree after two iterations: action [0] met hidden number [0], action
    [1] hidden number [2]. *)
Definition tree2 : B64.Heap nat :=
  [B64.mkTreeNode [(0, 1); (1, 2)] None [0.5; 0.5000000000000001]%float
     0.5%float 0.5%float None None;
   B64.mkTreeNode [] (Some 0) [0.5%float] 0.5%float 0.5%float
     (Some 0) (Some "A"%string);
   B64.mkTreeNode [] (Some 0) [0.5000000000000001%float] 0.5%float
     0.5000000000000001%float (Some 1) (Some "B"%string)].

(** With fitness [2] at every hidden number, the tree after one
    iteration: the outcome is [2 / 3]. *)
Definition thirds : list float := [2%float].

Definition tree1 : B64.Heap nat :=
  [B64.mkTreeNode [(0, 1)] None [(2 / 3)%float] 0.5%float (2 / 3)%float
     None None;
   B64.mkTreeNode [] (Some 0) [(2 / 3)%float] 0.5%float (2 / 3)%float
     (Some 0) (Some "A"%string)].

End Toy64.

(** * Properties *)

Section NodeFacts.
Context {Key : Type}.
Implicit Types (h : Heap Key) (nd : TreeNode Key).

Lemma py_div_snoc (x : R) (l : list R) (v : R) :
  py_div x (length (l ++ [v])) = Ok (x / INR (length (l ++ [v])))%R.
Proof.
  unfold py_div. rewrite length_app. simpl.
  destruct (length l + 1 =? 0) eqn:E; [|reflexivity].
  apply Nat.eqb_eq in E. lia.
Qed.

Lemma anc_le h n m : parents_lt h -> anc h n m -> m <= n.
Proof.
  intros Hlt Ha. induction Ha as [n|n nd p m Hn Hp _ IH]; [lia|].
  specialize (Hlt _ _ _ Hn Hp). lia.
Qed.

Lemma anc_insert h i nd nd' a b :
  h !! i = Some nd -> parent nd' = parent nd ->
  anc (<[i := nd']> h) a b <-> anc h a b.
Proof.
  intros Hi Hp. split; intros Ha.
  - induction Ha as [n|n x p m Hn Hpx _ IH]; [constructor|].
    destruct (decide (i = n)) as [->|Hne].
    + rewrite list_lookup_insert_eq in Hn by (eapply lookup_lt_Some; eauto).
      injection Hn as <-. eapply anc_up; eauto. congruence.
    + rewrite list_lookup_insert_ne in Hn by done. eapply anc_up; eauto.
  - induction Ha as [n|n x p m Hn Hpx _ IH]; [constructor|].
    destruct (decide (i = n)) as [->|Hne].
    + eapply (anc_up _ n nd'); eauto.
      * apply list_lookup_insert_eq. eapply lookup_lt_Some; eauto.
      * congruence.
    + eapply anc_up; eauto. rewrite list_lookup_insert_ne by done. done.
Qed.

Lemma parents_lt_insert h i nd nd' :
  h !! i = Some nd -> parent nd' = parent nd ->
  parents_lt h -> parents_lt (<[i := nd']> h).
Proof.
  intros Hi Hp Hlt n x p Hn Hpx.
  destruct (decide (i = n)) as [->|Hne].
  - rewrite list_lookup_insert_eq in Hn by (eapply lookup_lt_Some; eauto).
    injection Hn as <-. eapply Hlt; eauto. congruence.
  - rewrite list_lookup_insert_ne in Hn by done. eauto.
Qed.

(** [backpropagate] reaches the root and records the value along the way. *)
Lemma backpropagate_bumped h (v : R) :
  parents_lt h ->
  forall fuel n, n < length h -> n < fuel ->
  exists h', backpropagate fuel n v h = Ok h' /\ bumped h h' n v.
Proof.
  intros Hlt fuel. revert h Hlt.
  induction fuel as [|fuel IH]; intros h Hlt n Hn Hf; [lia|].
  destruct (lookup_lt_is_Some_2 h n Hn) as [nd Hnd].
  simpl. unfold get_node. rewrite Hnd. simpl.
  rewrite py_div_snoc. simpl.
  set (nd' := set_sc _ _).
  assert (Hpar : parent nd' = parent nd) by reflexivity.
  assert (Hbump : nd' = bump v nd) by reflexivity.
  destruct (parent nd) as [p|] eqn:Hp.
  - assert (Hpn : p < n) by (eapply Hlt; eauto).
    destruct (IH (<[n := nd']> h)) with (n := p) as (h' & Hrun & Hlen & Hall).
    { eapply parents_lt_insert; eauto. }
    { rewrite length_insert. lia. }
    { lia. }
    exists h'. split; [exact Hrun|]. split.
    { rewrite Hlen, length_insert. reflexivity. }
    intros m x Hm. destruct (decide (n = m)) as [<-|Hne].
    + left. split; [constructor|].
      assert (x = nd) by congruence. subst x.
      destruct (Hall n nd') as [[Ha _]|[_ Hk]].
      { apply list_lookup_insert_eq. lia. }
      { apply anc_le in Ha; [lia|].
        eapply parents_lt_insert; eauto. }
      { rewrite Hk, Hbump. reflexivity. }
    + destruct (Hall m x) as [[Ha Hk]|[Ha Hk]].
      { rewrite list_lookup_insert_ne by done. done. }
      { left. split; [|done]. eapply anc_up; eauto.
        apply (anc_insert h n nd nd' p m Hnd) in Ha; [done|congruence]. }
      { right. split; [|done]. intros Hanc. apply Ha.
        inversion Hanc as [|? y q ? Hy Hq Hrest]; subst; [done|].
        assert (y = nd) by congruence. subst y.
        assert (q = p) by congruence. subst q.
        apply (anc_insert h n nd nd' p m Hnd); [congruence|done]. }
  - exists (<[n := nd']> h). split; [reflexivity|]. split.
    { apply length_insert. }
    intros m x Hm. destruct (decide (n = m)) as [<-|Hne].
    + left. split; [constructor|].
      assert (x = nd) by congruence. subst x.
      rewrite list_lookup_insert_eq by lia. rewrite Hbump. reflexivity.
    + right. split.
      * intros Hanc. inversion Hanc as [|? y q ? Hy Hq Hrest]; subst; [done|].
        congruence.
      * rewrite list_lookup_insert_ne by done. done.
Qed.

Lemma anc_parent h n m x p :
  anc h n m -> h !! m = Some x -> parent x = Some p -> anc h n p.
Proof.
  intros Ha Hm Hp. induction Ha as [n|n nd q m Hn Hq _ IH].
  - eapply anc_up; eauto. constructor.
  - eapply anc_up; eauto.
Qed.

Lemma bumped_lookup h h' n v m x' :
  bumped h h' n v -> h' !! m = Some x' ->
  exists x, h !! m = Some x /\
    ((anc h n m /\ x' = bump v x) \/ (~ anc h n m /\ x' = x)).
Proof.
  intros [Hlen Hall] Hm.
  assert (Hlt : m < length h) by (rewrite <- Hlen; eapply lookup_lt_Some; eauto).
  destruct (lookup_lt_is_Some_2 h m Hlt) as [x Hx].
  exists x. split; [done|].
  destruct (Hall m x Hx) as [[Ha Hk]|[Ha Hk]]; [left|right]; split; congruence.
Qed.

Lemma bumped_fields h h' n v m x' :
  bumped h h' n v -> h' !! m = Some x' ->
  exists x, h !! m = Some x /\ parent x' = parent x /\
    children x' = children x /\ aname x' = aname x /\
    param x' = param x /\
    length (results x) <= length (results x').
Proof.
  intros Hb Hm. destruct (bumped_lookup _ _ _ _ _ _ Hb Hm) as (x & Hx & Hc).
  exists x. split; [done|].
  destruct Hc as [[_ ->]|[_ ->]]; simpl; repeat split; try lia.
  rewrite length_app. lia.
Qed.

Lemma bumped_wf h h' n v : wf_heap h -> bumped h h' n v -> wf_heap h'.
Proof.
  intros Hwf Hb. split.
  - intros m x' p Hm Hp.
    destruct (bumped_fields _ _ _ _ _ _ Hb Hm) as (x & Hx & Hpar & _).
    eapply (wf_parent_lt h Hwf); eauto. congruence.
  - intros m x' p pd' Hm Hp Hpd.
    destruct (bumped_lookup _ _ _ _ _ _ Hb Hm) as (x & Hx & Hc).
    destruct (bumped_lookup _ _ _ _ _ _ Hb Hpd) as (pd & Hpx & Hpc).
    destruct Hc as [[Ha ->]|[Ha ->]].
    + simpl in Hp.
      assert (Hap : anc h n p) by (eapply anc_parent; eauto).
      destruct Hpc as [[_ ->]|[Hna _]]; [|done].
      simpl. rewrite !length_app. simpl.
      pose proof (wf_visits h Hwf m x p pd Hx Hp Hpx). lia.
    + pose proof (wf_visits h Hwf m x p pd Hx Hp Hpx).
      destruct Hpc as [[_ ->]|[_ ->]]; simpl; [rewrite length_app|]; lia.
  - intros m x' k c Hm Hin.
    destruct (bumped_fields _ _ _ _ _ _ Hb Hm) as (x & Hx & _ & Hch & _).
    rewrite Hch in Hin.
    destruct (wf_child h Hwf m x k c Hx Hin) as (cd & Hcd & Hcp & Hcn).
    destruct Hb as [Hlen Hall].
    destruct (Hall c cd Hcd) as [[_ Hk]|[_ Hk]]; eauto.
  - intros m x' Hm.
    destruct (bumped_fields _ _ _ _ _ _ Hb Hm) as (x & Hx & _ & Hch & _).
    rewrite Hch. eapply (wf_values h Hwf); eauto.
  - intros m x' Hm Hne.
    destruct (bumped_lookup _ _ _ _ _ _ Hb Hm) as (x & Hx & Hc).
    destruct Hc as [[_ ->]|[_ ->]]; [reflexivity|].
    eapply (wf_mean h Hwf); eauto.
Qed.

Lemma bumped_visited h h' n v :
  (forall m nd p, h !! m = Some nd -> parent nd = Some p ->
     m = n \/ 1 <= length (results nd)) ->
  bumped h h' n v -> visited h'.
Proof.
  intros Hv Hb m x' p Hm Hp.
  destruct (bumped_lookup _ _ _ _ _ _ Hb Hm) as (x & Hx & Hc).
  destruct Hc as [[_ ->]|[Ha ->]].
  - simpl. rewrite length_app. simpl. lia.
  - destruct (Hv m x p Hx Hp) as [->|]; [|done].
    exfalso. apply Ha. constructor.
Qed.

Lemma bumped_Inv h h' n v : Inv h -> bumped h h' n v -> Inv h'.
Proof.
  intros [Hwf Hv] Hb. split; [eapply bumped_wf; eauto|].
  eapply bumped_visited; eauto.
Qed.

Section Grow.
Context `{EqDecision Key}.

Lemma elem_of_dict_set (k k' : Key) (v c : nat) (d : list (Key * nat)) :
  (k', c) ∈ dict_set k v d -> (k', c) = (k, v) \/ (k', c) ∈ d.
Proof.
  induction d as [|[k0 v0] d IH]; simpl.
  - intros Hin. apply list_elem_of_singleton in Hin. by left.
  - destruct (decide (k = k0)) as [->|Hne]; intros Hin.
    + apply elem_of_cons in Hin as [Hin|Hin]; [by left|].
      right. by apply elem_of_cons; right.
    + apply elem_of_cons in Hin as [Hin|Hin].
      * right. apply elem_of_cons. by left.
      * destruct (IH Hin) as [?|?]; [by left|].
        right. by apply elem_of_cons; right.
Qed.

Lemma dict_values_dict_set_subset (k : Key) (v c : nat) (d : list (Key * nat)) :
  c ∈ dict_values (dict_set k v d) -> c = v \/ c ∈ dict_values d.
Proof.
  unfold dict_values. intros Hin.
  apply list_elem_of_fmap in Hin as ([k' c'] & -> & Hin).
  apply elem_of_dict_set in Hin as [Heq|Hin].
  - left. by inversion Heq.
  - right. apply list_elem_of_fmap. by exists (k', c').
Qed.

Lemma NoDup_dict_set (k : Key) (v : nat) (d : list (Key * nat)) :
  NoDup (dict_values d) -> v ∉ dict_values d ->
  NoDup (dict_values (dict_set k v d)).
Proof.
  unfold dict_values.
  induction d as [|[k0 v0] d IH]; simpl; intros Hnd Hv.
  - apply NoDup_singleton.
  - apply NoDup_cons in Hnd as [Hv0 Hnd].
    apply not_elem_of_cons in Hv as [Hne Hv].
    destruct (decide (k = k0)) as [->|Hk]; simpl.
    + apply NoDup_cons. split; [done|done].
    + apply NoDup_cons. split; [|by apply IH].
      intros Hin. apply (dict_values_dict_set_subset k v v0 d) in Hin.
      destruct Hin as [?|?]; [congruence|done].
Qed.

Lemma dict_get_elem_of (k : Key) (c : nat) (d : list (Key * nat)) :
  dict_get k d = Some c -> (k, c) ∈ d.
Proof.
  induction d as [|[k0 v0] d IH]; simpl; [done|].
  destruct (decide (k = k0)) as [->|Hne]; intros Hg.
  - injection Hg as ->. apply elem_of_cons. by left.
  - apply elem_of_cons. right. by apply IH.
Qed.

Lemma dict_set_fresh (k : Key) (v : nat) (d : list (Key * nat)) :
  dict_mem k d = false -> dict_set k v d = d ++ [(k, v)].
Proof.
  unfold dict_mem. induction d as [|[k0 v0] d IH]; simpl; [done|].
  destruct (decide (k = k0)) as [->|Hne]; [done|].
  intros Hm. by rewrite IH.
Qed.

Lemma grow_length h self nd k nm :
  length (grow h self nd k nm) = S (length h).
Proof.
  unfold grow. rewrite !length_insert, length_app. simpl. lia.
Qed.

Lemma grow_lookup h self nd k nm m x :
  h !! self = Some nd ->
  grow h self nd k nm !! m = Some x ->
  (m = length h /\ x = fresh_child self nd k nm) \/
  (m = self /\ x = set_children (dict_set k (length h) (children nd)) nd) \/
  (m <> self /\ m < length h /\ h !! m = Some x).
Proof.
  intros Hs Hm. pose proof (lookup_lt_Some _ _ _ Hs) as Hlt.
  unfold grow in Hm.
  destruct (decide (m = length h)) as [->|Hne].
  - left. split; [done|].
    rewrite list_lookup_insert_eq in Hm
      by (rewrite length_insert, length_app; simpl; lia).
    congruence.
  - rewrite list_lookup_insert_ne in Hm by done. right.
    destruct (decide (m = self)) as [->|Hns].
    + left. split; [done|].
      rewrite list_lookup_insert_eq in Hm by (rewrite length_app; simpl; lia).
      congruence.
    + right. rewrite list_lookup_insert_ne in Hm by done.
      assert (m < length h).
      { apply lookup_lt_Some in Hm. rewrite length_app in Hm. simpl in Hm. lia. }
      rewrite lookup_app_l in Hm by done. done.
Qed.

Lemma grow_lookup_new h self nd k nm :
  h !! self = Some nd ->
  grow h self nd k nm !! length h = Some (fresh_child self nd k nm).
Proof.
  intros Hs. pose proof (lookup_lt_Some _ _ _ Hs) as Hlt.
  unfold grow. apply list_lookup_insert_eq.
  rewrite length_insert, length_app. simpl. lia.
Qed.

Lemma grow_lookup_self h self nd k nm :
  h !! self = Some nd ->
  grow h self nd k nm !! self =
    Some (set_children (dict_set k (length h) (children nd)) nd).
Proof.
  intros Hs. pose proof (lookup_lt_Some _ _ _ Hs) as Hlt.
  unfold grow. rewrite list_lookup_insert_ne by lia.
  apply list_lookup_insert_eq. rewrite length_app. simpl. lia.
Qed.

Lemma grow_lookup_old h self nd k nm m :
  m <> self -> m < length h ->
  grow h self nd k nm !! m = h !! m.
Proof.
  intros Hne Hlt. unfold grow.
  rewrite list_lookup_insert_ne by lia.
  rewrite list_lookup_insert_ne by done.
  by apply lookup_app_l.
Qed.

Lemma grow_lookup_lt h self nd k nm m xo :
  h !! self = Some nd -> h !! m = Some xo ->
  exists x, grow h self nd k nm !! m = Some x /\
    parent x = parent xo /\ aname x = aname xo /\
    results x = results xo /\ sc x = sc xo /\ param x = param xo.
Proof.
  intros Hs Hm. destruct (decide (m = self)) as [->|Hne].
  - rewrite (grow_lookup_self _ _ _ _ _ Hs).
    assert (xo = nd) by congruence. subst xo.
    eexists. split; [reflexivity|]. done.
  - rewrite grow_lookup_old by (try done; eapply lookup_lt_Some; eauto).
    exists xo. done.
Qed.

Lemma grow_lookup_inv h self nd k nm m x :
  h !! self = Some nd -> m < length h ->
  grow h self nd k nm !! m = Some x ->
  exists xo, h !! m = Some xo /\
    parent x = parent xo /\ aname x = aname xo /\
    results x = results xo /\ sc x = sc xo /\ param x = param xo.
Proof.
  intros Hs Hlt Hm.
  destruct (lookup_lt_is_Some_2 h m Hlt) as [xo Hxo].
  destruct (grow_lookup_lt h self nd k nm m xo Hs Hxo) as (x' & Hx' & Hf).
  exists xo. split; [done|]. congruence.
Qed.

Lemma grow_wf h self nd k nm :
  wf_heap h -> h !! self = Some nd -> wf_heap (grow h self nd k nm).
Proof.
  intros Hwf Hs. pose proof (lookup_lt_Some _ _ _ Hs) as Hlt. split.
  - intros m x p Hm Hp.
    destruct (grow_lookup _ _ _ _ _ _ _ Hs Hm) as [[-> ->]|[[-> ->]|(_ & _ & Hx)]].
    + simpl in Hp. injection Hp as <-. done.
    + simpl in Hp. eapply (wf_parent_lt h Hwf); eauto.
    + eapply (wf_parent_lt h Hwf); eauto.
  - intros m x p pd Hm Hp Hpd.
    destruct (decide (m = length h)) as [->|Hne].
    + rewrite (grow_lookup_new _ _ _ _ _ Hs) in Hm.
      injection Hm as <-. simpl. lia.
    + assert (Hml : m < length h).
      { apply lookup_lt_Some in Hm. rewrite grow_length in Hm. lia. }
      destruct (grow_lookup_inv _ _ _ _ _ _ _ Hs Hml Hm)
        as (xo & Hxo & Hpar & _ & Hres & _).
      rewrite Hpar in Hp.
      pose proof (wf_parent_lt h Hwf m xo p Hxo Hp) as Hpm.
      destruct (grow_lookup_inv _ _ _ _ _ p pd Hs ltac:(lia) Hpd)
        as (po & Hpo & _ & _ & Hpres & _).
      rewrite Hres, Hpres. eapply (wf_visits h Hwf); eauto.
  - intros m x k' c Hm Hin.
    assert (Hold : forall m' xo, h !! m' = Some xo -> (k', c) ∈ children xo ->
      exists cd, grow h self nd k nm !! c = Some cd /\
                 parent cd = Some m' /\ is_Some (aname cd)).
    { intros m' xo Hxo Hin'.
      destruct (wf_child h Hwf m' xo k' c Hxo Hin') as (cd & Hcd & Hcp & Hcn).
      destruct (grow_lookup_lt h self nd k nm c cd Hs Hcd)
        as (cd' & Hcd' & Hp' & Hn' & _).
      exists cd'. rewrite Hp', Hn'. done. }
    destruct (grow_lookup _ _ _ _ _ _ _ Hs Hm) as [[-> ->]|[[-> ->]|(_ & _ & Hx)]].
    + simpl in Hin. by apply elem_of_nil in Hin.
    + simpl in Hin. apply elem_of_dict_set in Hin as [Heq|Hin]; [|eauto].
      inversion Heq; subst. exists (fresh_child self nd k nm).
      split; [by apply grow_lookup_new|]. simpl. eauto.
    + eauto.
  - intros m x Hm.
    destruct (grow_lookup _ _ _ _ _ _ _ Hs Hm) as [[-> ->]|[[-> ->]|(_ & _ & Hx)]].
    + simpl. apply NoDup_nil_2.
    + simpl. apply NoDup_dict_set; [eapply (wf_values h Hwf); eauto|].
      intros Hin. unfold dict_values in Hin.
      apply list_elem_of_fmap in Hin as ([k' c] & Hc & Hin). simpl in Hc. subst c.
      destruct (wf_child h Hwf self nd k' (length h) Hs Hin) as (cd & Hcd & _).
      apply lookup_lt_Some in Hcd. lia.
    + eapply (wf_values h Hwf); eauto.
  - intros m x Hm Hne.
    destruct (grow_lookup _ _ _ _ _ _ _ Hs Hm) as [[-> ->]|[[-> ->]|(_ & _ & Hx)]].
    + simpl in Hne. done.
    + simpl in *. eapply (wf_mean h Hwf); eauto.
    + eapply (wf_mean h Hwf); eauto.
Qed.

Lemma grow_visited h self nd k nm :
  visited h -> h !! self = Some nd ->
  forall m x p, grow h self nd k nm !! m = Some x -> parent x = Some p ->
    m = length h \/ 1 <= length (results x).
Proof.
  intros Hv Hs m x p Hm Hp.
  destruct (grow_lookup _ _ _ _ _ _ _ Hs Hm) as [[-> ->]|[[-> ->]|(_ & _ & Hx)]].
  - by left.
  - right. simpl in *. eapply Hv; eauto.
  - right. eapply Hv; eauto.
Qed.

End Grow.

End NodeFacts.

Lemma bind_Ok {A B : Type} (m : res A) (f : A -> res B) (r : B) :
  m ≫= f = Ok r -> exists a, m = Ok a /\ f a = Ok r.
Proof. destruct m; simpl; intros Hm; try discriminate. eauto. Qed.

Lemma of_option_Ok {A : Type} (e : exn) (o : option A) (a : A) :
  of_option e o = Ok a -> o = Some a.
Proof. destruct o; simpl; congruence. Qed.

Section SearchFacts.
Context {State Action Key Move : Type} `{Engine State Action Key Move}.
Implicit Types (h : Heap Key) (nd : TreeNode Key) (g : Rng) (state : State).

Lemma backpropagate_mono (v : R) fuel fuel' n h h' :
  backpropagate fuel n v h = Ok h' -> fuel <= fuel' ->
  backpropagate fuel' n v h = Ok h'.
Proof.
  revert fuel' n h. induction fuel as [|fuel IH]; intros fuel' n h; [done|].
  destruct fuel' as [|fuel']; [lia|]. simpl. intros Hrun Hle.
  destruct (get_node h n) as [nd| |]; simpl in *; try done.
  destruct (py_div _ _) as [m| |]; simpl in *; try done.
  destruct (parent nd); [|done]. apply IH; [done|lia].
Qed.

Lemma backpropagate_Ok_bumped (v : R) fuel n h h' :
  parents_lt h -> backpropagate fuel n v h = Ok h' -> bumped h h' n v.
Proof.
  intros Hlt Hrun.
  assert (Hn : n < length h).
  { destruct fuel; [done|]. simpl in Hrun.
    apply bind_Ok in Hrun as (nd & Hnd & _).
    apply of_option_Ok in Hnd. eapply lookup_lt_Some; eauto. }
  destruct (backpropagate_bumped h v Hlt (fuel + S n) n Hn ltac:(lia))
    as (h'' & Hrun' & Hb).
  apply (backpropagate_mono v fuel (fuel + S n)) in Hrun; [|lia].
  congruence.
Qed.

Lemma playout_mono fuel fuel' state g r :
  playout fuel state g = Ok r -> fuel <= fuel' -> playout fuel' state g = Ok r.
Proof.
  revert fuel' state g. induction fuel as [|fuel IH]; intros fuel' state g; [done|].
  destruct fuel' as [|fuel']; [lia|]. simpl. intros Hrun Hle.
  destruct (ended state); [done|].
  destruct (random_choice _ _) as [[a g1]| |]; simpl in *; try done.
  destruct (step state a g1) as [s' g2]. apply IH; [done|lia].
Qed.

Lemma expand_grow fuel self state available h g nd :
  h !! self = Some nd ->
  expand fuel self state available h g =
    '(choice, g2) ← random_choice available (copy_undeterministic state g).2;
    rollout fuel (length h) (step (copy_undeterministic state g).1 choice g2).1
      (grow h self nd (key choice) (str choice))
      (step (copy_undeterministic state g).1 choice g2).2.
Proof.
  intros Hs. unfold expand.
  destruct (copy_undeterministic state g) as [statecopy g1]. simpl.
  destruct (random_choice available g1) as [[choice g2]| |]; simpl; try done.
  unfold get_node. rewrite Hs. simpl.
  pose proof (lookup_lt_Some _ _ _ Hs) as Hlt.
  rewrite list_lookup_insert_ne by lia.
  rewrite lookup_app_r by lia. rewrite Nat.sub_diag. simpl.
  destruct (step statecopy choice g2) as [s' g3]. reflexivity.
Qed.

Lemma rollout_Inv fuel n state h g h' g' :
  wf_heap h ->
  (forall m x p, h !! m = Some x -> parent x = Some p ->
     m = n \/ 1 <= length (results x)) ->
  rollout fuel n state h g = Ok (h', g') -> Inv h'.
Proof.
  intros Hwf Hv Hrun. unfold rollout in Hrun.
  apply bind_Ok in Hrun as ([s' g1] & _ & Hrun).
  apply bind_Ok in Hrun as (h1 & Hbp & Hrun). injection Hrun as <- <-.
  apply backpropagate_Ok_bumped in Hbp; [|apply Hwf].
  split; [eapply bumped_wf; eauto|eapply bumped_visited; eauto].
Qed.

Lemma expand_Inv fuel self state available h g h' g' :
  Inv h -> expand fuel self state available h g = Ok (h', g') -> Inv h'.
Proof.
  intros [Hwf Hv] Hrun.
  destruct (h !! self) as [nd|] eqn:Hs.
  - rewrite (expand_grow _ _ _ _ _ _ nd Hs) in Hrun.
    apply bind_Ok in Hrun as ([choice g2] & _ & Hrun).
    eapply rollout_Inv; [| |exact Hrun].
    + by apply grow_wf.
    + by apply grow_visited.
  - unfold expand in Hrun.
    destruct (copy_undeterministic state g) as [statecopy g1].
    apply bind_Ok in Hrun as ([choice g2] & _ & Hrun).
    unfold get_node in Hrun. rewrite Hs in Hrun. done.
Qed.

Lemma select_Inv fuel self state h g h' g' :
  Inv h -> select fuel self state h g = Ok (h', g') -> Inv h'.
Proof.
  revert self state g. induction fuel as [|fuel IH]; intros self state g HI; [done|].
  simpl. destruct (ended state).
  - intros Hrun. apply bind_Ok in Hrun as (h1 & Hbp & Hrun).
    injection Hrun as <- <-.
    apply backpropagate_Ok_bumped in Hbp; [|apply HI].
    eapply bumped_Inv; eauto.
  - destruct (copy_undeterministic state g) as [statecopy g1].
    intros Hrun. apply bind_Ok in Hrun as (nd & Hnd & Hrun).
    destruct (0 <? _).
    + eapply expand_Inv; eauto.
    + apply bind_Ok in Hrun as (best & _ & Hrun).
      destruct best as [[amax cmax]|]; [|done].
      destruct (step statecopy amax g1) as [s' g2]. eapply IH; eauto.
Qed.

Lemma Inv_root (p : R) : Inv [TreeNode_init (Key := Key) p None].
Proof.
  split; [split|].
  - intros [|n] nd q Hn Hq; simpl in *; [|done]. injection Hn as <-. done.
  - intros [|n] nd q pd Hn Hq; simpl in *; [|done]. injection Hn as <-. done.
  - intros [|n] nd k c Hn Hin; simpl in *; [|done]. injection Hn as <-.
    simpl in Hin. by apply elem_of_nil in Hin.
  - intros [|n] nd Hn; simpl in *; [|done]. injection Hn as <-.
    simpl. apply NoDup_nil_2.
  - intros [|n] nd Hn Hne; simpl in *; [|done]. injection Hn as <-. done.
  - intros [|n] nd q Hn Hq; simpl in *; [|done]. injection Hn as <-. done.
Qed.

Lemma reachable_Inv h : reachable h -> Inv h.
Proof.
  induction 1 as [p|h fuel state g h' g' _ IH Hstep].
  - apply Inv_root.
  - eapply select_Inv; eauto.
Qed.

End SearchFacts.

(** ** Scoring and the driver's shortcut *)

Section Scoring.
Context {State Action Key Move : Type} `{Engine State Action Key Move}.

(** C4. [score(state)] is exactly [1] when the state has ended and its end
    result is [1] (a win); in every other case, ended or not, it is
    [(state.score() + state.health()) / 3]: a loss is never scored as a
    hard [0]. *)
Theorem score_win_or_blend (state : State) :
  (ended state = true /\ get_end_result state = 1%Z -> score state = 1%R) /\
  (~ (ended state = true /\ get_end_result state = 1%Z) ->
   score state = ((state_score state + health state) / 3)%R).
Proof.
  unfold score. split.
  - intros [-> ->]. reflexivity.
  - intros Hn. destruct (ended state); [|reflexivity].
    destruct (get_end_result state =? 1)%Z eqn:E; [|reflexivity].
    apply Z.eqb_eq in E. exfalso. apply Hn. done.
Qed.

(** C5. With exactly one legal action, [choose_card] returns that action
    at once: whatever the fuel and the iteration budget, no node is
    constructed, no randomness is consumed (so no state is resampled and
    no iteration runs) and nothing is printed. *)
Theorem choose_card_single_action (str_float : R -> string)
    (fuel : nat) (iterations : Z) (verbose : bool) (p : R)
    (battle_state : State) (g : Rng) (a : Action) :
  get_actions battle_state = [a] ->
  choose_card str_float fuel iterations verbose p battle_state g =
    Ok (to_action a battle_state, mkTrace [] g []).
Proof. intros Ha. unfold choose_card. rewrite Ha. reflexivity. Qed.

End Scoring.

Lemma score_win_or_blend_witness :
  @score _ _ _ _ (Toy.toy 3) (Toy.mkToy [0; 1] [0] 1) = 1%R /\
  @score _ _ _ _ (Toy.toy 3) (Toy.mkToy [0; 1] [1] 0) = ((IZR (3 + 0) + 0) / 3)%R.
Proof.
  split.
  - apply (proj1 (@score_win_or_blend _ _ _ _ (Toy.toy 3) (Toy.mkToy [0; 1] [0] 1))).
    split; reflexivity.
  - apply (proj2 (@score_win_or_blend _ _ _ _ (Toy.toy 3) (Toy.mkToy [0; 1] [1] 0))).
    simpl. intros [_ Hr]. discriminate Hr.
Defined.

Lemma choose_card_single_action_witness :
  @choose_card _ _ _ _ (Toy.toy 0) (fun _ => "0.0"%string) 0 100 true 0%R
     (Toy.mkToy [1] [] 0) [4; 2] =
  Ok (1, mkTrace [] [4; 2] []).
Proof.
  apply (@choose_card_single_action _ _ _ _ (Toy.toy 0)).
  reflexivity.
Defined.

(** ** Backpropagation *)

Section Backpropagation.
Context {Key : Type}.

(** C2. On an arena whose parent links point to earlier nodes (every tree
    the search builds), [backpropagate(value)] returns once it has more fuel
    than the index of the node; it appends [value], as it is, exactly once
    to the results of the node and of each of its ancestors up to the root,
    sets the mean score of each of them to [sum(results) / len(results)],
    and leaves every other node as it was: no recorded outcome is removed
    or changed. *)
Theorem backpropagate_records (h : Heap Key) (n fuel : nat) (v : R) :
  parents_lt h -> n < length h -> n < fuel ->
  exists h', backpropagate fuel n v h = Ok h' /\ length h' = length h /\
    forall m nd, h !! m = Some nd ->
      exists nd', h' !! m = Some nd' /\
        parent nd' = parent nd /\ children nd' = children nd /\
        ((anc h n m /\ results nd' = results nd ++ [v] /\
          sc nd' = (py_sum (results nd') / INR (length (results nd')))%R)
         \/ (~ anc h n m /\ nd' = nd)).
Proof.
  intros Hlt Hn Hf.
  destruct (backpropagate_bumped h v Hlt fuel n Hn Hf) as (h' & Hrun & Hlen & Hall).
  exists h'. split; [done|]. split; [done|].
  intros m nd Hm. destruct (Hall m nd Hm) as [[Ha Hk]|[Ha Hk]].
  - exists (bump v nd). split; [done|]. do 2 (split; [reflexivity|]).
    left. split; [done|]. split; reflexivity.
  - exists nd. split; [done|]. do 2 (split; [reflexivity|]). by right.
Qed.

End Backpropagation.

(** A root, a child and a grandchild; the value is recorded from the
    grandchild. *)
Lemma backpropagate_records_witness :
  let n0 := mkTreeNode [(7, 1)] None [0%R; 1%R] 0%R (1 / 2)%R None None in
  let n1 := mkTreeNode [(8, 2)] (Some 0) [0%R; 1%R] 0%R (1 / 2)%R (Some 7) (Some "a"%string) in
  let n2 := mkTreeNode [] (Some 1) [1%R] 0%R 1%R (Some 8) (Some "b"%string) in
  exists h', backpropagate 3 2 1%R [n0; n1; n2] = Ok h' /\ length h' = 3 /\
    forall m nd, [n0; n1; n2] !! m = Some nd ->
      exists nd', h' !! m = Some nd' /\
        parent nd' = parent nd /\ children nd' = children nd /\
        ((anc [n0; n1; n2] 2 m /\ results nd' = results nd ++ [1%R] /\
          sc nd' = (py_sum (results nd') / INR (length (results nd')))%R)
         \/ (~ anc [n0; n1; n2] 2 m /\ nd' = nd)).
Proof.
  intros n0 n1 n2.
  apply (backpropagate_records [n0; n1; n2] 2 3 1%R).
  - intros [|[|[|m]]] nd p Hm Hp; simpl in Hm; try discriminate;
      injection Hm as <-; simpl in Hp; try discriminate;
      injection Hp as <-; lia.
  - simpl. lia.
  - lia.
Defined.

(** ** Visit counts along the edges of a reachable tree *)

Lemma ratio_ge_1 (a b : nat) : 1 <= b -> b <= a -> (1 <= INR a / INR b)%R.
Proof.
  intros Hb Hab.
  assert (Hpos : (0 < INR b)%R) by (apply lt_0_INR; lia).
  apply le_INR in Hab.
  replace 1%R with (INR b * / INR b)%R by (field; lra).
  unfold Rdiv. apply Rmult_le_compat_r; [|done].
  left. by apply Rinv_0_lt_compat.
Qed.

Lemma ln_nonneg (x : R) : (1 <= x)%R -> (0 <= ln x)%R.
Proof.
  intros [Hlt|<-].
  - left. rewrite <- ln_1. apply ln_increasing; lra.
  - rewrite ln_1. lra.
Qed.

Lemma ucb_weight_defined {Key : Type} (self c : TreeNode Key) :
  1 <= length (results c) -> length (results c) <= length (results self) ->
  ucb_weight self c =
    Ok (sc c + param self *
          sqrt (ln (INR (length (results self)) / INR (length (results c)))))%R.
Proof.
  intros Hc Hle. unfold ucb_weight, py_div.
  destruct (length (results c) =? 0) eqn:E; [apply Nat.eqb_eq in E; lia|].
  simpl. pose proof (ratio_ge_1 _ _ Hc Hle) as Hr.
  unfold math_log. destruct (Rlt_dec 0 _) as [_|Hn]; [|exfalso; apply Hn; lra].
  simpl. unfold math_sqrt.
  destruct (Rle_dec 0 _) as [_|Hn]; [done|].
  exfalso. apply Hn. by apply ln_nonneg.
Qed.

Section Visits.
Context {State Action Key Move : Type} `{Engine State Action Key Move}.

Lemma Inv_child (h : Heap Key) (n : nat) (nd : TreeNode Key) (k : Key) (c : nat) :
  Inv h -> h !! n = Some nd -> dict_get k (children nd) = Some c ->
  exists cd, h !! c = Some cd /\ parent cd = Some n /\
    1 <= length (results cd) /\ length (results cd) <= length (results nd).
Proof.
  intros [Hwf Hv] Hn Hg. apply dict_get_elem_of in Hg.
  destruct (wf_child h Hwf n nd k c Hn Hg) as (cd & Hcd & Hp & _).
  exists cd. split; [done|]. split; [done|]. split.
  - eapply Hv; eauto.
  - eapply (wf_visits h Hwf); eauto.
Qed.

(** C9. In every arena the search can be in between two iterations, a
    node never holds more outcomes than its parent; so for each child the
    selection loop looks up, the argument of the logarithm is at least [1]
    and the argument of the square root is at least [0]. *)
Theorem visits_decrease_down_edges (h : Heap Key) :
  reachable h ->
  (forall n nd p, h !! n = Some nd -> parent nd = Some p ->
     exists pd, h !! p = Some pd /\
       length (results nd) <= length (results pd)) /\
  (forall self nd k c, h !! self = Some nd ->
     dict_get k (children nd) = Some c ->
     exists cd, h !! c = Some cd /\ parent cd = Some self /\
       (1 <= INR (length (results nd)) / INR (length (results cd)))%R /\
       (0 <= ln (INR (length (results nd)) / INR (length (results cd))))%R).
Proof.
  intros Hr. pose proof (reachable_Inv h Hr) as HI. split.
  - intros n nd p Hn Hp. destruct HI as [Hwf _].
    pose proof (wf_parent_lt h Hwf n nd p Hn Hp) as Hlt.
    apply lookup_lt_Some in Hn as Hnl.
    destruct (lookup_lt_is_Some_2 h p ltac:(lia)) as [pd Hpd].
    exists pd. split; [done|]. eapply (wf_visits h Hwf); eauto.
  - intros self nd k c Hs Hg.
    destruct (Inv_child h self nd k c HI Hs Hg) as (cd & Hcd & Hp & H1 & Hle).
    exists cd. split; [done|]. split; [done|].
    pose proof (ratio_ge_1 _ _ H1 Hle) as Hratio.
    split; [done|]. by apply ln_nonneg.
Qed.

(** C8. In every arena the search can be in between two iterations, and
    for every node [self] of it: a child found under the key of an action
    holds at least one outcome, and so does [self]; the quotient of the
    two counts is positive, and the weight the selection loop computes for
    the child is a number, not a [ZeroDivisionError] or a [ValueError]. *)
Theorem ucb_weight_never_fails (h : Heap Key) (self : nat)
    (nd : TreeNode Key) (a : Action) (c : nat) :
  reachable h -> h !! self = Some nd ->
  dict_get (key a) (children nd) = Some c ->
  exists cd, h !! c = Some cd /\
    1 <= length (results nd) /\ 1 <= length (results cd) /\
    (0 < INR (length (results nd)) / INR (length (results cd)))%R /\
    ucb_weight nd cd = Ok (ucb_value nd cd).
Proof.
  intros Hr Hs Hg. pose proof (reachable_Inv h Hr) as HI.
  destruct (Inv_child h self nd (key a) c HI Hs Hg) as (cd & Hcd & Hp & H1 & Hle).
  exists cd. split; [done|]. split; [lia|]. split; [done|]. split.
  - pose proof (ratio_ge_1 _ _ H1 Hle). lra.
  - by apply ucb_weight_defined.
Qed.

End Visits.

Lemma reachable_tree1 (base : Z) (p : R) :
  @reachable _ _ _ _ (Toy.toy base) (Toy.tree1 p (Toy.outcome base)).
Proof.
  apply (@reach_step _ _ _ _ (Toy.toy base)
           [TreeNode_init p None] 3 Toy.start [] _ []).
  - apply reach_root.
  - reflexivity.
Qed.

Lemma reachable_tree2 (base : Z) (p : R) :
  @reachable _ _ _ _ (Toy.toy base) (Toy.tree2 p (Toy.outcome base)).
Proof.
  apply (@reach_step _ _ _ _ (Toy.toy base)
           (Toy.tree1 p (Toy.outcome base)) 3 Toy.start [] _ []).
  - apply reachable_tree1.
  - reflexivity.
Qed.

Lemma visits_decrease_down_edges_witness :
  (forall n nd p, Toy.tree2 (1 / 2) (Toy.outcome 0) !! n = Some nd ->
     parent nd = Some p ->
     exists pd, Toy.tree2 (1 / 2) (Toy.outcome 0) !! p = Some pd /\
       length (results nd) <= length (results pd)) /\
  (forall self nd k c, Toy.tree2 (1 / 2) (Toy.outcome 0) !! self = Some nd ->
     dict_get k (children nd) = Some c ->
     exists cd, Toy.tree2 (1 / 2) (Toy.outcome 0) !! c = Some cd /\
       parent cd = Some self /\
       (1 <= INR (length (results nd)) / INR (length (results cd)))%R /\
       (0 <= ln (INR (length (results nd)) / INR (length (results cd))))%R).
Proof.
  apply (@visits_decrease_down_edges _ _ _ _ (Toy.toy 0)).
  apply reachable_tree2.
Defined.

Lemma ucb_weight_never_fails_witness :
  let h := Toy.tree2 (1 / 2) (Toy.outcome 0) in
  exists nd cd, h !! 0 = Some nd /\ h !! 2 = Some cd /\
    1 <= length (results nd) /\ 1 <= length (results cd) /\
    (0 < INR (length (results nd)) / INR (length (results cd)))%R /\
    ucb_weight nd cd = Ok (ucb_value nd cd).
Proof.
  intros h.
  destruct (@ucb_weight_never_fails _ _ _ _ (Toy.toy 0) h 0
              (mkTreeNode [(0, 1); (1, 2)] None
                 [Toy.outcome 0; Toy.outcome 0] (1 / 2)
                 ((0 + Toy.outcome 0 + Toy.outcome 0) / INR 2)%R None None)
              1 2) as (cd & Hcd & Hrest).
  - apply reachable_tree2.
  - reflexivity.
  - reflexivity.
  - eexists. exists cd. split; [reflexivity|]. split; [exact Hcd|]. exact Hrest.
Defined.

(** ** One iteration *)

Section OneIteration.
Context {State Action Key Move : Type} `{Engine State Action Key Move}.

Lemma filter_no_children (acts : list Action) :
  List.filter (fun a => negb (dict_mem (key a) (@nil (Key * nat)))) acts = acts.
Proof.
  induction acts as [|a acts IH]; [done|].
  change (a :: List.filter (fun a => negb (dict_mem (key a) (@nil (Key * nat)))) acts
          = a :: acts).
  by rewrite IH.
Qed.

Lemma random_choice_Ok {A : Type} (l : list A) (g : Rng) :
  l <> [] -> exists x g', random_choice l g = Ok (x, g') /\ x ∈ l.
Proof.
  destruct l as [|x l]; [done|]. intros _. unfold random_choice.
  destruct (draw g) as [n g']. eexists _, _. split; [reflexivity|].
  apply list_elem_of_In. apply nth_In. apply Nat.mod_upper_bound. done.
Qed.

Lemma backpropagate_first (fuel : nat) (v : R) (root child : TreeNode Key) :
  parent root = None -> parent child = Some 0 ->
  backpropagate (S (S fuel)) 1 v [root; child] =
    Ok [bump v root; bump v child].
Proof.
  intros Hr Hc. simpl. rewrite py_div_snoc. simpl. rewrite Hc. simpl.
  rewrite py_div_snoc. simpl. rewrite Hr. reflexivity.
Qed.

(** C6. Part one: with a budget of one iteration on a state that has not
    ended and has a legal action, and an engine whose resamples keep both
    facts and whose random playouts end, the loop of [choose_card] returns
    (given enough fuel) with exactly two nodes in the arena, the root and
    one child of it, each holding exactly one outcome, the same one.
    Part two: in every arena the search can be in between two iterations,
    a node that was expanded (a node with a parent) holds at least one
    outcome. *)
Theorem one_iteration_one_node (p : R) (battle_state : State) (g : Rng) :
  (forall s g0, ended (copy_undeterministic s g0).1 = ended s) ->
  (forall s g0, get_actions (copy_undeterministic s g0).1 = [] ->
                get_actions s = []) ->
  (forall s g0, exists n r, playout n s g0 = Ok r) ->
  ended battle_state = false ->
  get_actions battle_state <> [] ->
  (exists fuel0, forall fuel, fuel0 <= fuel ->
     exists root child g' k v,
       iterate fuel 1 0 battle_state [TreeNode_init p None] g =
         Ok ([root; child], g') /\
       parent root = None /\ children root = [(k, 1)] /\ results root = [v] /\
       parent child = Some 0 /\ children child = [] /\ results child = [v] /\
       action child = Some k) /\
  (forall h, reachable h ->
     forall n nd q, h !! n = Some nd -> parent nd = Some q ->
       1 <= length (results nd)).
Proof.
  intros Hended Hacts Hplay Hne Hlegal. split.
  - destruct (copy_undeterministic battle_state g) as [sample g1] eqn:Esample.
    destruct (copy_undeterministic sample g1) as [statecopy g2] eqn:Ecopy.
    destruct (copy_undeterministic statecopy g2) as [statecopy2 g3] eqn:Ecopy2.
    assert (Hs : ended sample = false).
    { pose proof (Hended battle_state g) as E. rewrite Esample in E.
      simpl in E. congruence. }
    assert (Ha : get_actions statecopy <> []).
    { intros E. apply Hlegal. apply (Hacts battle_state g).
      rewrite Esample. simpl. apply (Hacts sample g1).
      rewrite Ecopy. done. }
    destruct (random_choice_Ok (get_actions statecopy) g3 Ha)
      as (choice & g4 & Hchoice & _).
    destruct (step statecopy2 choice g4) as [successor g5] eqn:Estep.
    destruct (Hplay successor g5) as (n & [final g6] & Hn).
    exists (S (S (S n))). intros fuel Hfuel.
    destruct fuel as [|fuel]; [lia|].
    exists (bump (score final)
              (set_children [(key choice, 1)] (TreeNode_init p None))),
           (bump (score final)
              (fresh_child 0 (TreeNode_init p None) (key choice) (str choice))),
           g6, (key choice), (score final).
    split; [|done].
    simpl. rewrite Esample. unfold tree_step. simpl. rewrite Hs, Ecopy. simpl.
    rewrite filter_no_children.
    destruct (0 <? length (get_actions statecopy)) eqn:Elen.
    2: { apply Nat.ltb_ge in Elen. destruct (get_actions statecopy); [done|].
         simpl in Elen. lia. }
    rewrite (expand_grow _ _ _ _ _ _ (TreeNode_init p None)) by reflexivity.
    rewrite Ecopy2. simpl. rewrite Hchoice. simpl. rewrite Estep. simpl.
    unfold rollout.
    rewrite (playout_mono n fuel successor g5 (final, g6) Hn) by lia. simpl.
    destruct fuel as [|[|fuel]]; [lia|lia|].
    unfold grow. simpl length. simpl insert.
    rewrite backpropagate_first by reflexivity. reflexivity.
  - intros h Hr. pose proof (reachable_Inv h Hr) as [_ Hv]. exact Hv.
Qed.

End OneIteration.

Lemma toy_playout_ends (base : Z) (s : Toy.ToyState) (g0 : Rng) :
  exists n r, @playout _ _ _ _ (Toy.toy base) n s g0 = Ok r.
Proof.
  exists 2. destruct s as [hand played hidden].
  destruct played as [|a played]; [destruct hand as [|x hand]|];
    try (eexists; reflexivity).
  simpl. unfold Toy.toy_ended, Toy.toy_actions. simpl.
  destruct (draw g0) as [n g']. simpl. eexists. reflexivity.
Qed.

Lemma one_iteration_one_node_witness :
  exists fuel0, forall fuel, fuel0 <= fuel ->
    exists root child g' k v,
      @iterate _ _ _ _ (Toy.toy 0) fuel 1 0 Toy.start
        [TreeNode_init (1 / 2) None] [] = Ok ([root; child], g') /\
      parent root = None /\ children root = [(k, 1)] /\ results root = [v] /\
      parent child = Some 0 /\ children child = [] /\ results child = [v] /\
      action child = Some k.
Proof.
  apply (@one_iteration_one_node _ _ _ _ (Toy.toy 0) (1 / 2)%R Toy.start []).
  - intros s g0. simpl. unfold Toy.toy_copy. destruct (draw g0). reflexivity.
  - intros s g0. simpl. unfold Toy.toy_copy. destruct (draw g0). simpl.
    unfold Toy.toy_actions. simpl. done.
  - apply toy_playout_ends.
  - reflexivity.
  - discriminate.
Defined.

(** ** Expansion *)

Section Expansion.
Context {State Action Key Move : Type} `{Engine State Action Key Move}.

Lemma random_choice_draw {A : Type} (l : list A) (g : Rng) :
  l <> [] ->
  exists x, l !! ((draw g).1 mod length l) = Some x /\
            random_choice l g = Ok (x, (draw g).2).
Proof.
  intros Hl. unfold random_choice. destruct (draw g) as [n g'].
  change ((n, g').1) with n. change ((n, g').2) with g'.
  assert (Hlt : n mod length l < length l).
  { apply Nat.mod_upper_bound. destruct l; [done|]. simpl. lia. }
  destruct (lookup_lt_is_Some_2 l _ Hlt) as [x Hx].
  exists x. split; [done|].
  destruct l as [|y l]; [done|].
  by rewrite (nth_lookup_Some _ _ y x Hx).
Qed.

(** C7, as the code has it. [expand(state, available)] resamples the state
    it is given once more, takes from [available] the action at the drawn
    position, and is the rollout, on a node newly linked under [self], from
    the successor of that resample by the action.  When the playout from
    the successor ends, [expand] returns with exactly one more node in the
    arena: [self] has one more child, under the key of the action, and one
    more outcome; the new node has [self] as parent, the key and text of
    the action, no child, and that outcome as its only result. *)
Theorem expand_adds_one_child (fuel : nat) (self : nat) (state : State)
    (available : list Action) (h : Heap Key) (g : Rng) (nd : TreeNode Key) :
  wf_heap h -> h !! self = Some nd -> available <> [] ->
  (forall a, a ∈ available -> dict_mem (key a) (children nd) = false) ->
  exists choice,
    let statecopy := (copy_undeterministic state g).1 in
    let g1 := (copy_undeterministic state g).2 in
    let successor := (step statecopy choice (draw g1).2).1 in
    let g3 := (step statecopy choice (draw g1).2).2 in
    available !! ((draw g1).1 mod length available) = Some choice /\
    expand fuel self state available h g =
      rollout fuel (length h) successor
        (grow h self nd (key choice) (str choice)) g3 /\
    forall final g',
      playout fuel successor g3 = Ok (final, g') -> length h < fuel ->
      exists h' nd' cd,
        expand fuel self state available h g = Ok (h', g') /\
        length h' = S (length h) /\
        h' !! self = Some nd' /\
        children nd' = children nd ++ [(key choice, length h)] /\
        results nd' = results nd ++ [score final] /\
        h' !! length h = Some cd /\
        parent cd = Some self /\ action cd = Some (key choice) /\
        aname cd = Some (str choice) /\ children cd = [] /\
        results cd = [score final].
Proof.
  intros Hwf Hs Hav Hnew.
  destruct (random_choice_draw available (copy_undeterministic state g).2 Hav)
    as (choice & Hpos & Hchoice).
  exists choice. cbv zeta. split; [done|].
  assert (Heq : expand fuel self state available h g =
    rollout fuel (length h)
      (step (copy_undeterministic state g).1 choice
         (draw (copy_undeterministic state g).2).2).1
      (grow h self nd (key choice) (str choice))
      (step (copy_undeterministic state g).1 choice
         (draw (copy_undeterministic state g).2).2).2).
  { rewrite (expand_grow _ _ _ _ _ _ nd Hs). rewrite Hchoice. reflexivity. }
  split; [done|].
  intros final g' Hplay Hfuel. rewrite Heq. unfold rollout. rewrite Hplay. simpl.
  set (hg := grow h self nd (key choice) (str choice)).
  pose proof (grow_wf h self nd (key choice) (str choice) Hwf Hs) as Hwg.
  destruct (backpropagate_bumped hg (score final) (wf_parent_lt _ Hwg)
              fuel (length h)) as (h' & Hrun & Hlen & Hall).
  { unfold hg. rewrite grow_length. lia. }
  { done. }
  pose proof (grow_lookup_new h self nd (key choice) (str choice) Hs) as Hn.
  pose proof (grow_lookup_self h self nd (key choice) (str choice) Hs) as Hself.
  fold hg in Hn, Hself.
  assert (Hanc : anc hg (length h) self).
  { eapply anc_up; [exact Hn|reflexivity|constructor]. }
  exists h', (bump (score final)
                (set_children (dict_set (key choice) (length h) (children nd)) nd)),
             (bump (score final) (fresh_child self nd (key choice) (str choice))).
  rewrite Hrun. simpl. split; [done|].
  split; [unfold hg in Hlen; by rewrite grow_length in Hlen|].
  split.
  { destruct (Hall _ _ Hself) as [[_ Hk]|[Hna _]]; done. }
  split.
  { simpl. apply dict_set_fresh. apply Hnew.
    eapply list_elem_of_lookup_2; eauto. }
  split; [done|]. split.
  { destruct (Hall _ _ Hn) as [[_ Hk]|[Hna _]]; [done|].
    exfalso. apply Hna. constructor. }
  done.
Qed.

End Expansion.

Lemma expand_adds_one_child_witness :
  exists choice h' nd' cd,
    [0; 1] !! (0 mod 2) = Some choice /\
    @expand _ _ _ _ (Toy.toy 0) 3 0 Toy.start [0; 1]
      [TreeNode_init (1 / 2) None] [4; 0] = Ok (h', []) /\
    length h' = 2 /\
    h' !! 0 = Some nd' /\
    children nd' = [(choice, 1)] /\
    results nd' = [@score _ _ _ _ (Toy.toy 0) (Toy.mkToy [0; 1] [choice] 4)] /\
    h' !! 1 = Some cd /\
    parent cd = Some 0 /\ action cd = Some choice /\
    results cd = [@score _ _ _ _ (Toy.toy 0) (Toy.mkToy [0; 1] [choice] 4)].
Proof.
  destruct (@expand_adds_one_child _ _ _ _ (Toy.toy 0) 3 0 Toy.start [0; 1]
              [TreeNode_init (1 / 2) None] [4; 0] (TreeNode_init (1 / 2) None))
    as (choice & Hpos & _ & Hrun).
  - apply Inv_root.
  - reflexivity.
  - discriminate.
  - intros a _. reflexivity.
  - simpl in Hpos. injection Hpos as <-.
    destruct (Hrun (Toy.mkToy [0; 1] [0] 4) []) as (h' & nd' & cd & Hr).
    + reflexivity.
    + simpl. lia.
    + exists 0, h', nd', cd. simpl in Hr.
      destruct Hr as (? & ? & ? & ? & ? & ? & ? & ? & ? & ? & ?).
      repeat split; try done.
Defined.

(** Counterexample to C7 as the specification words it. On the small
    engine the outcome recorded in the new node is that of the successor
    of a further resample of the state (hidden number [4]); applying the
    action to the state given (hidden number [0]) would have recorded
    another. *)
Lemma expand_resamples_again :
  exists v v',
    (v <> v')%R /\
    @expand _ _ _ _ (Toy.toy 0) 3 0 Toy.start [0; 1]
      [TreeNode_init (1 / 2) None] [4; 0] =
      Ok ([mkTreeNode [(0, 1)] None [v] (1 / 2) ((0 + v) / INR 1)%R None None;
           mkTreeNode [] (Some 0) [v] (1 / 2) ((0 + v) / INR 1)%R
             (Some 0) (Some "A"%string)], []) /\
    @expand_without_resample _ _ _ _ (Toy.toy 0) 3 0 Toy.start [0; 1]
      [TreeNode_init (1 / 2) None] [4; 0] =
      Ok ([mkTreeNode [(0, 1)] None [v'] (1 / 2) ((0 + v') / INR 1)%R None None;
           mkTreeNode [] (Some 0) [v'] (1 / 2) ((0 + v') / INR 1)%R
             (Some 0) (Some "A"%string)], [0]).
Proof.
  exists ((IZR (0 + 4) + 0) / 3)%R, ((IZR (0 + 0) + 0) / 3)%R.
  split; [change ((4 + 0) / 3 <> (0 + 0) / 3)%R; lra|]. split; reflexivity.
Qed.

(** ** Selection *)

Section Selection.
Context {State Action Key Move : Type} `{Engine State Action Key Move}.
Implicit Types (h : Heap Key) (nd : TreeNode Key) (g : Rng) (state : State).

Lemma select_loop_cons h nd a rest best cw c w :
  child_weight h nd a = Ok (c, w) ->
  select_loop h nd (a :: rest) best cw =
    if Rgt_dec w cw then select_loop h nd rest (Some (a, c)) w
    else select_loop h nd rest best cw.
Proof.
  unfold child_weight. simpl.
  destruct (of_option KeyError _) as [c0| |]; simpl; try done.
  destruct (get_node h c0) as [cn| |]; simpl; try done.
  destruct (ucb_weight nd cn) as [w0| |]; simpl; try done.
  intros [= -> ->]. reflexivity.
Qed.

(** The loop keeps the first action of greatest weight, if that weight
    exceeds the threshold it starts from. *)
Lemma select_loop_max h nd acts best cw :
  (forall a, a ∈ acts -> exists c w, child_weight h nd a = Ok (c, w)) ->
  exists r, select_loop h nd acts best cw = Ok r /\
    ((r = best /\
      forall a c w, a ∈ acts -> child_weight h nd a = Ok (c, w) -> (w <= cw)%R) \/
     (exists i a c w,
        acts !! i = Some a /\ child_weight h nd a = Ok (c, w) /\
        r = Some (a, c) /\ (cw < w)%R /\
        forall j a' c' w', acts !! j = Some a' ->
          child_weight h nd a' = Ok (c', w') ->
          (w' <= w)%R /\ (j < i -> (w' < w)%R))).
Proof.
  revert best cw. induction acts as [|a acts IH]; intros best cw Hall.
  - exists best. split; [reflexivity|]. left. split; [done|].
    intros a c w Hin. by apply elem_of_nil in Hin.
  - destruct (Hall a) as (c & w & Hw); [apply elem_of_cons; by left|].
    assert (Hrest : forall a', a' ∈ acts ->
              exists c' w', child_weight h nd a' = Ok (c', w')).
    { intros a' Hin. apply Hall. apply elem_of_cons. by right. }
    rewrite (select_loop_cons h nd a acts best cw c w Hw).
    destruct (Rgt_dec w cw) as [Hgt|Hle].
    + destruct (IH (Some (a, c)) w Hrest) as (r & Hr & [[-> Hmax]|Hlater]).
      * exists (Some (a, c)). split; [done|]. right.
        exists 0, a, c, w. repeat split; try done.
        -- destruct j as [|j]; simpl in *.
           ++ assert (w' = w) by congruence. lra.
           ++ eapply Hmax; [eapply list_elem_of_lookup_2|]; eauto.
        -- lia.
      * destruct Hlater as (i & a1 & c1 & w1 & Hi & Hw1 & -> & Hlt & Hmax).
        exists (Some (a1, c1)). split; [done|]. right.
        exists (S i), a1, c1, w1. repeat split; try done; try lra.
        -- destruct j as [|j]; simpl in *.
           ++ assert (w' = w) by congruence. lra.
           ++ eapply Hmax; eauto.
        -- destruct j as [|j]; simpl in *.
           ++ assert (w' = w) by congruence. lra.
           ++ intros Hj. eapply Hmax; eauto. lia.
    + assert (Hle' : (w <= cw)%R) by lra.
      destruct (IH best cw Hrest) as (r & Hr & [[-> Hmax]|Hlater]).
      * exists best. split; [done|]. left. split; [done|].
        intros a' c' w' Hin Hw'. apply elem_of_cons in Hin as [->|Hin].
        -- assert (w' = w) by congruence. lra.
        -- eapply Hmax; eauto.
      * destruct Hlater as (i & a1 & c1 & w1 & Hi & Hw1 & -> & Hlt & Hmax).
        exists (Some (a1, c1)). split; [done|]. right.
        exists (S i), a1, c1, w1. repeat split; try done.
        -- destruct j as [|j]; simpl in *.
           ++ assert (w' = w) by congruence. lra.
           ++ eapply Hmax; eauto.
        -- destruct j as [|j]; simpl in *.
           ++ assert (w' = w) by congruence. lra.
           ++ intros Hj. eapply Hmax; eauto. lia.
Qed.

End Selection.

(** ** The final choice *)

Section FinalChoice.
Context {State Action Key Move : Type} `{Engine State Action Key Move}.
Implicit Types (h : Heap Key) (nd : TreeNode Key) (g : Rng) (state : State).





End FinalChoice.

(** ** The printed tree *)

Section Printing.
Context {Key : Type}.
Variable str_float : R -> string.
Implicit Types (h : Heap Key) (nd : TreeNode Key).

Lemma anc_comparable h x a b :
  anc h x a -> anc h x b -> anc h a b \/ anc h b a.
Proof.
  intros Ha. revert b. induction Ha as [x|x nd p a Hx Hp Ha IH]; intros b Hb.
  - by left.
  - inversion Hb as [|? nd' p' ? Hx' Hp' Hb']; subst.
    + right. eapply anc_up; eauto.
    + assert (nd' = nd) by congruence. subst nd'.
      assert (p' = p) by congruence. subst p'. by apply IH.
Qed.

Lemma anc_trans h a b c : anc h a b -> anc h b c -> anc h a c.
Proof.
  intros Hab Hbc. induction Hab as [a|a nd p b Ha Hp _ IH]; [done|].
  eapply anc_up; eauto.
Qed.






End Printing.

(** ** One iteration, node by node *)

Section StepEffect.
Context {State Action Key Move : Type} `{Engine State Action Key Move}.
Implicit Types (h : Heap Key) (nd : TreeNode Key) (g : Rng) (state : State).

Lemma playout_ended fuel state g final g' :
  playout fuel state g = Ok (final, g') -> ended final = true.
Proof.
  revert state g. induction fuel as [|fuel IH]; intros state g; [done|].
  simpl. destruct (ended state) eqn:E.
  - intros [= <- <-]. done.
  - intros Hrun. apply bind_Ok in Hrun as ([a g1] & _ & Hrun).
    destruct (step state a g1) as [s' g2]. eauto.
Qed.

Lemma random_choice_elem {A : Type} (l : list A) g x g' :
  random_choice l g = Ok (x, g') -> x ∈ l.
Proof.
  intros Hc. destruct l as [|y l]; [done|].
  destruct (random_choice_Ok (y :: l) g) as (x' & g'' & Hc' & Hin); [done|].
  congruence.
Qed.

Lemma filter_unexplored_elem (cs : list (Key * nat)) (acts : list Action) a :
  a ∈ List.filter (fun a => negb (dict_mem (key a) cs)) acts ->
  a ∈ acts /\ dict_mem (key a) cs = false.
Proof.
  intros Hin. apply list_elem_of_In in Hin. apply filter_In in Hin as [Hin Hb].
  split; [by apply list_elem_of_In|]. by destruct (dict_mem (key a) cs).
Qed.

Lemma filter_unexplored_nil (cs : list (Key * nat)) (acts : list Action) a :
  List.filter (fun a => negb (dict_mem (key a) cs)) acts = [] ->
  a ∈ acts -> dict_mem (key a) cs = true.
Proof.
  intros Hnil Hin. destruct (dict_mem (key a) cs) eqn:E; [done|].
  assert (Hf : a ∈ List.filter (fun a => negb (dict_mem (key a) cs)) acts).
  { apply list_elem_of_In. apply filter_In. split; [by apply list_elem_of_In|].
    by rewrite E. }
  rewrite Hnil in Hf. by apply elem_of_nil in Hf.
Qed.

Lemma select_loop_Some h nd acts best cw a c :
  select_loop h nd acts best cw = Ok (Some (a, c)) ->
  best = Some (a, c) \/
  (a ∈ acts /\ dict_get (key a) (children nd) = Some c /\ is_Some (h !! c)).
Proof.
  revert best cw. induction acts as [|a0 acts IH]; intros best cw; simpl.
  - intros [= ->]. by left.
  - intros Hrun. apply bind_Ok in Hrun as (c0 & Hc0 & Hrun).
    apply of_option_Ok in Hc0.
    apply bind_Ok in Hrun as (cn & Hcn & Hrun). apply of_option_Ok in Hcn.
    apply bind_Ok in Hrun as (w & _ & Hrun).
    destruct (Rgt_dec w cw).
    + apply IH in Hrun as [[= -> ->]|(Hin & Hg & Hs)].
      * right. split; [apply elem_of_cons; by left|]. eauto.
      * right. split; [apply elem_of_cons; by right|]. eauto.
    + apply IH in Hrun as [->|(Hin & Hg & Hs)]; [by left|].
      right. split; [apply elem_of_cons; by right|]. eauto.
Qed.

Lemma grow_lookup_full h self nd k nm m xo :
  h !! self = Some nd -> h !! m = Some xo ->
  exists x, grow h self nd k nm !! m = Some x /\
    parent x = parent xo /\ aname x = aname xo /\ action x = action xo /\
    results x = results xo /\ sc x = sc xo /\ param x = param xo /\
    (children x = children xo \/
     (m = self /\ children x = dict_set k (length h) (children xo))).
Proof.
  intros Hs Hm. destruct (decide (m = self)) as [->|Hne].
  - rewrite (grow_lookup_self _ _ _ _ _ Hs).
    assert (xo = nd) by congruence. subst xo.
    eexists. split; [reflexivity|]. simpl. do 6 (split; [done|]). by right.
  - rewrite grow_lookup_old by (try done; eapply lookup_lt_Some; eauto).
    exists xo. do 7 (split; [done|]). by left.
Qed.

Lemma expanded_lookup h hx m xo :
  expanded h hx -> h !! m = Some xo ->
  exists x, hx !! m = Some x /\
    parent x = parent xo /\ aname x = aname xo /\ action x = action xo /\
    results x = results xo /\ sc x = sc xo /\ param x = param xo /\
    exists extra, children x = children xo ++ extra /\ length extra <= 1.
Proof.
  intros [|s nd a Hs Hfresh] Hm.
  - exists xo. do 7 (split; [done|]). exists []. split; [by rewrite app_nil_r|simpl; lia].
  - destruct (grow_lookup_full h s nd (key a) (str a) m xo Hs Hm)
      as (x & Hx & Hp & Hn & Ha & Hr & Hsc & Hpa & Hch).
    exists x. do 7 (split; [done|]).
    destruct Hch as [->|[-> ->]].
    + exists []. split; [by rewrite app_nil_r|simpl; lia].
    + assert (xo = nd) by congruence. subst xo.
      exists [(key a, length h)]. split; [by apply dict_set_fresh|simpl; lia].
Qed.

Lemma expanded_length h hx :
  expanded h hx -> length h <= length hx <= S (length h).
Proof. intros [|s nd a Hs Hfresh]; [lia|]. rewrite grow_length. lia. Qed.

Lemma expanded_anc h hx a b : expanded h hx -> anc h a b -> anc hx a b.
Proof.
  intros He Ha. induction Ha as [a|a x p b Hx Hp _ IH]; [constructor|].
  destruct (expanded_lookup h hx a x He Hx) as (x' & Hx' & Hp' & _).
  eapply anc_up; eauto. congruence.
Qed.

Lemma expanded_wf h hx : wf_heap h -> expanded h hx -> wf_heap hx.
Proof. intros Hwf [|s nd a Hs Hfresh]; [done|]. by apply grow_wf. Qed.

(** A completed [select] is at most one expansion followed by the
    recording of the score of a state that has ended, from a node at or
    below the one it was called on. *)
Lemma select_effect fuel self state h g h' g' :
  Inv h -> self < length h ->
  select fuel self state h g = Ok (h', g') ->
  exists hx n final,
    expanded h hx /\ bumped hx h' n (score final) /\ anc hx n self /\
    ended final = true.
Proof.
  intros HI. pose proof HI as [Hwf Hv].
  revert self state g. induction fuel as [|fuel IH]; intros self state g Hlt; [done|].
  simpl. destruct (ended state) eqn:E.
  - intros Hrun. apply bind_Ok in Hrun as (h1 & Hbp & Hrun).
    injection Hrun as <- <-.
    exists h, self, state. split; [constructor|]. split.
    { eapply backpropagate_Ok_bumped; [apply Hwf|exact Hbp]. }
    split; [constructor|done].
  - destruct (copy_undeterministic state g) as [statecopy g1].
    intros Hrun. apply bind_Ok in Hrun as (nd & Hnd & Hrun).
    apply of_option_Ok in Hnd.
    destruct (0 <? _) eqn:Hav.
    + rewrite (expand_grow _ _ _ _ _ _ nd Hnd) in Hrun.
      apply bind_Ok in Hrun as ([choice g2] & Hchoice & Hrun).
      apply random_choice_elem in Hchoice.
      apply filter_unexplored_elem in Hchoice as [_ Hfresh].
      unfold rollout in Hrun.
      apply bind_Ok in Hrun as ([final g3] & Hplay & Hrun).
      apply bind_Ok in Hrun as (h1 & Hbp & Hrun). injection Hrun as <- <-.
      exists (grow h self nd (key choice) (str choice)), (length h), final.
      split; [by apply expanded_one|]. split.
      { eapply backpropagate_Ok_bumped; [|exact Hbp].
        apply grow_wf; done. }
      split.
      { eapply anc_up; [by apply grow_lookup_new|reflexivity|constructor]. }
      eapply playout_ended; eauto.
    + apply bind_Ok in Hrun as (best & Hloop & Hrun).
      destruct best as [[amax cmax]|]; [|done].
      destruct (step statecopy amax g1) as [s' g2].
      apply select_loop_Some in Hloop as [|(_ & Hg & [cd Hcd])]; [done|].
      destruct (Inv_child h self nd (key amax) cmax HI Hnd Hg)
        as (cd' & Hcd' & Hp & _).
      assert (cd' = cd) by congruence. subst cd'.
      destruct (IH cmax s' g2) as (hx & n & final & He & Hb & Ha & Hf).
      { eapply lookup_lt_Some; eauto. }
      { done. }
      exists hx, n, final. split; [done|]. split; [done|]. split; [|done].
      eapply anc_trans; [exact Ha|].
      destruct (expanded_lookup h hx cmax cd He Hcd) as (x & Hx & Hpx & _).
      eapply anc_up; [exact Hx|rewrite Hpx; exact Hp|constructor].
Qed.

End StepEffect.

(** ** Selection at a state that has ended, rollouts, and what one
    iteration records *)

Section Recording.
Context {State Action Key Move : Type} `{Engine State Action Key Move}.
Implicit Types (h : Heap Key) (nd : TreeNode Key) (g : Rng) (state : State).

(** X1. [select] on a state that has ended resamples nothing and draws
    nothing: it returns with the random source untouched and the same
    nodes, having recorded [score(state)] once in [self] and in each of its
    ancestors and nowhere else. *)
Theorem select_at_ended_state (fuel self : nat) (state : State)
    (h : Heap Key) (g : Rng) :
  ended state = true -> parents_lt h -> self < length h -> self < fuel ->
  exists h', select (S fuel) self state h g = Ok (h', g) /\
    length h' = length h /\
    forall m x, h !! m = Some x ->
      exists x', h' !! m = Some x' /\
        parent x' = parent x /\ children x' = children x /\
        ((anc h self m /\ results x' = results x ++ [score state]) \/
         (~ anc h self m /\ x' = x)).
Proof.
  intros He Hlt Hs Hf. simpl. rewrite He.
  destruct (backpropagate_bumped h (score state) Hlt fuel self Hs Hf)
    as (h' & -> & Hlen & Hall).
  exists h'. split; [done|]. split; [done|].
  intros m x Hm. destruct (Hall m x Hm) as [[Ha Hk]|[Ha Hk]].
  - exists (bump (score state) x). split; [done|].
    do 2 (split; [reflexivity|]). left. done.
  - exists x. split; [done|]. do 2 (split; [reflexivity|]). by right.
Qed.

(** X2. When the random playout from [state] ends, within the fuel, in
    [final], that state has ended, and [rollout] returns having recorded
    [score(final)] in [self]; it constructs no node and links none: the
    arena keeps its length and every node its parent and children, and a
    node's results are as before or extended by that one score. *)
Theorem rollout_records_final_score (fuel self : nat) (state final : State)
    (h : Heap Key) (g g' : Rng) (nd : TreeNode Key) :
  parents_lt h -> h !! self = Some nd -> self < fuel ->
  playout fuel state g = Ok (final, g') ->
  ended final = true /\
  exists h' nd', rollout fuel self state h g = Ok (h', g') /\
    length h' = length h /\
    h' !! self = Some nd' /\ results nd' = results nd ++ [score final] /\
    forall m x, h !! m = Some x ->
      exists x', h' !! m = Some x' /\
        parent x' = parent x /\ children x' = children x /\
        (results x' = results x \/ results x' = results x ++ [score final]).
Proof.
  intros Hlt Hs Hf Hplay. split; [eapply playout_ended; eauto|].
  pose proof (lookup_lt_Some _ _ _ Hs) as Hsl.
  destruct (backpropagate_bumped h (score final) Hlt fuel self Hsl Hf)
    as (h' & Hrun & Hlen & Hall).
  exists h', (bump (score final) nd). unfold rollout. rewrite Hplay. simpl.
  rewrite Hrun. simpl. split; [done|]. split; [done|]. split.
  { destruct (Hall self nd Hs) as [[_ Hk]|[Ha _]]; [done|].
    exfalso. apply Ha. constructor. }
  split; [reflexivity|].
  intros m x Hm. destruct (Hall m x Hm) as [[Ha Hk]|[Ha Hk]].
  - exists (bump (score final) x). split; [done|].
    do 2 (split; [reflexivity|]). by right.
  - exists x. split; [done|]. do 2 (split; [reflexivity|]). by left.
Qed.

Lemma effect_nodes h hx h' n v self :
  expanded h hx -> bumped hx h' n v -> anc hx n self ->
  length h <= length h' <= S (length h) /\
  forall m x, h !! m = Some x ->
    exists x', h' !! m = Some x' /\
      parent x' = parent x /\ action x' = action x /\ aname x' = aname x /\
      param x' = param x /\
      (exists extra, children x' = children x ++ extra /\ length extra <= 1) /\
      (results x' = results x \/ results x' = results x ++ [v]) /\
      (anc h self m -> results x' = results x ++ [v]).
Proof.
  intros He Hb Ha. pose proof (expanded_length h hx He) as Hl.
  destruct Hb as [Hlen Hall]. split; [lia|].
  intros m x Hm.
  destruct (expanded_lookup h hx m x He Hm)
    as (xh & Hxh & Hp & Hn & Hac & Hr & _ & Hpa & Hch).
  destruct (Hall m xh Hxh) as [[Hanc Hk]|[Hanc Hk]].
  - exists (bump v xh). split; [done|]. simpl.
    do 5 (split; [done|]). rewrite Hr. split; [by right|done].
  - exists xh. split; [done|]. do 5 (split; [done|]).
    split; [by left|]. intros Hsm. exfalso. apply Hanc.
    eapply anc_trans; [exact Ha|]. by eapply expanded_anc.
Qed.

(** X3. A completed [select] on a node of a tree the search can be in
    records exactly one new outcome, the score of a state that has ended:
    the node it was called on and its ancestors get it appended, every
    other node keeps its results or gets it appended once.  At most one
    node is constructed, and a node that was there keeps its parent, key,
    text and parameter, and its children up to one added at the end. *)
Theorem select_records_one_outcome (fuel self : nat) (state : State)
    (h h' : Heap Key) (g g' : Rng) :
  reachable h -> self < length h ->
  select fuel self state h g = Ok (h', g') ->
  exists final,
    ended final = true /\
    length h <= length h' <= S (length h) /\
    forall m x, h !! m = Some x ->
      exists x', h' !! m = Some x' /\
        parent x' = parent x /\ action x' = action x /\ aname x' = aname x /\
        param x' = param x /\
        (exists extra, children x' = children x ++ extra /\ length extra <= 1) /\
        (results x' = results x \/ results x' = results x ++ [score final]) /\
        (anc h self m -> results x' = results x ++ [score final]).
Proof.
  intros Hr Hs Hrun.
  destruct (select_effect fuel self state h g h' g' (reachable_Inv h Hr) Hs Hrun)
    as (hx & n & final & He & Hb & Ha & Hf).
  exists final. split; [done|].
  eapply effect_nodes; eauto.
Qed.

Lemma iterate_effect fuel n state h g h' g' r :
  reachable h -> h !! 0 = Some r ->
  iterate fuel n 0 state h g = Ok (h', g') ->
  reachable h' /\ length h' <= length h + n /\
  exists r', h' !! 0 = Some r' /\
    length (results r') = length (results r) + n /\ param r' = param r.
Proof.
  revert h g r. induction n as [|n IH]; intros h g r Hr H0.
  - simpl. intros [= <- <-]. split; [done|]. split; [lia|].
    exists r. split; [done|]. split; [lia|done].
  - simpl. destruct (copy_undeterministic state g) as [sample g1].
    intros Hrun. apply bind_Ok in Hrun as ([h1 g2] & Hstep & Hrun).
    pose proof (lookup_lt_Some _ _ _ H0) as Hl.
    assert (Hr1 : reachable h1) by (eapply reach_step; eauto).
    destruct (select_effect fuel 0 sample h g1 h1 g2 (reachable_Inv h Hr) Hl Hstep)
      as (hx & m & final & He & Hb & Ha & _).
    destruct (effect_nodes h hx h1 m (score final) 0 He Hb Ha) as [Hlen Hall].
    destruct (Hall 0 r H0) as (r1 & Hr1' & _ & _ & _ & Hpa & _ & _ & Happ).
    specialize (Happ (anc_self h 0)).
    destruct (IH h1 g2 r1 Hr1 Hr1' Hrun) as (Hr' & Hlen' & r' & H0' & Hres & Hpar).
    split; [done|]. split; [lia|].
    exists r'. split; [done|]. rewrite Hres, Happ, length_app. simpl.
    split; [lia|congruence].
Qed.

(** X4. When the loop of [choose_card] completes [n] iterations on a
    fresh root, the root holds exactly [n] outcomes and still the
    exploration parameter it was constructed with, and the arena holds
    at most [n] nodes besides the root. *)
Theorem iterate_root_visits (fuel n : nat) (p : R) (battle_state : State)
    (g g' : Rng) (h' : Heap Key) :
  iterate fuel n 0 battle_state [TreeNode_init p None] g = Ok (h', g') ->
  reachable h' /\ length h' <= S n /\
  exists root, h' !! 0 = Some root /\
    length (results root) = n /\ param root = p.
Proof.
  intros Hrun.
  destruct (iterate_effect fuel n battle_state [TreeNode_init p None] g h' g'
              (TreeNode_init p None) (reach_root p) eq_refl Hrun)
    as (Hr & Hlen & r' & H0 & Hres & Hpa).
  split; [done|]. split; [simpl in Hlen; lia|]. eauto.
Qed.

End Recording.

Lemma select_at_ended_state_witness :
  exists h', @select _ _ _ _ (Toy.toy 0) 3 1 (Toy.mkToy [0; 1] [0] 0)
               (Toy.tree2 (1 / 2) (Toy.outcome 0)) [7] = Ok (h', [7]) /\
    length h' = 3.
Proof.
  destruct (@select_at_ended_state _ _ _ _ (Toy.toy 0) 2 1
              (Toy.mkToy [0; 1] [0] 0) (Toy.tree2 (1 / 2) (Toy.outcome 0)) [7])
    as (h' & Hrun & Hlen & _).
  - reflexivity.
  - apply (reachable_Inv (H := Toy.toy 0)). apply reachable_tree2.
  - simpl. lia.
  - lia.
  - exists h'. split; [exact Hrun|exact Hlen].
Defined.

Lemma rollout_records_final_score_witness :
  exists h' nd',
    @rollout _ _ _ _ (Toy.toy 0) 3 1 Toy.start
      (Toy.tree1 (1 / 2) (Toy.outcome 0)) [1] = Ok (h', []) /\
    length h' = 2 /\ h' !! 1 = Some nd' /\
    results nd' = [Toy.outcome 0;
                   @score _ _ _ _ (Toy.toy 0) (Toy.mkToy [0; 1] [1] 0)].
Proof.
  destruct (@rollout_records_final_score _ _ _ _ (Toy.toy 0) 3 1 Toy.start
              (Toy.mkToy [0; 1] [1] 0) (Toy.tree1 (1 / 2) (Toy.outcome 0))
              [1] [] (Toy.leaf (1 / 2) 0 "A" (Toy.outcome 0)))
    as (_ & h' & nd' & Hrun & Hlen & Hs & Hres & _).
  - apply (reachable_Inv (H := Toy.toy 0)). apply reachable_tree1.
  - reflexivity.
  - lia.
  - reflexivity.
  - exists h', nd'. done.
Defined.

Lemma select_records_one_outcome_witness :
  exists final,
    @ended _ _ _ _ (Toy.toy 0) final = true /\
    forall m x, Toy.tree1 (1 / 2) (Toy.outcome 0) !! m = Some x ->
      exists x', Toy.tree2 (1 / 2) (Toy.outcome 0) !! m = Some x' /\
        parent x' = parent x /\
        (results x' = results x \/
         results x' = results x ++ [@score _ _ _ _ (Toy.toy 0) final]).
Proof.
  destruct (@select_records_one_outcome _ _ _ _ (Toy.toy 0) 3 0 Toy.start
              (Toy.tree1 (1 / 2) (Toy.outcome 0))
              (Toy.tree2 (1 / 2) (Toy.outcome 0)) [] [])
    as (final & Hf & _ & Hall).
  - apply reachable_tree1.
  - simpl. lia.
  - reflexivity.
  - exists final. split; [exact Hf|].
    intros m x Hm. destruct (Hall m x Hm) as (x' & Hx' & Hp & _ & _ & _ & _ & Hr & _).
    exists x'. done.
Defined.

Lemma iterate_root_visits_witness :
  @reachable _ _ _ _ (Toy.toy 0) (Toy.tree2 (1 / 2) (Toy.outcome 0)) /\
  length (Toy.tree2 (1 / 2) (Toy.outcome 0)) <= 3 /\
  exists root, Toy.tree2 (1 / 2) (Toy.outcome 0) !! 0 = Some root /\
    length (results root) = 2 /\ param root = (1 / 2)%R.
Proof.
  apply (@iterate_root_visits _ _ _ _ (Toy.toy 0) 3 2 (1 / 2)%R Toy.start [] []).
  reflexivity.
Defined.

(** ** The range of the outcomes and of the means *)

Lemma py_sum_snoc (l : list R) (v : R) : py_sum (l ++ [v]) = (py_sum l + v)%R.
Proof. unfold py_sum. by rewrite fold_left_app. Qed.

Lemma py_sum_lower (lo : R) (l : list R) :
  (forall r, r ∈ l -> (lo <= r)%R) -> (INR (length l) * lo <= py_sum l)%R.
Proof.
  induction l as [|v l IH] using rev_ind; intros Hall.
  - unfold py_sum. simpl. lra.
  - rewrite py_sum_snoc, length_app. simpl length.
    rewrite Nat.add_1_r, S_INR.
    assert (lo <= v)%R by (apply Hall, elem_of_app; right; by apply list_elem_of_singleton).
    assert (INR (length l) * lo <= py_sum l)%R.
    { apply IH. intros r Hr. apply Hall, elem_of_app. by left. }
    lra.
Qed.

Lemma mean_lower (lo : R) (l : list R) :
  l <> [] -> (forall r, r ∈ l -> (lo <= r)%R) -> (lo <= mean l)%R.
Proof.
  intros Hne Hall. unfold mean.
  assert (Hpos : (0 < INR (length l))%R).
  { apply lt_0_INR. destruct l; [done|]. simpl. lia. }
  pose proof (py_sum_lower lo l Hall) as Hs.
  apply Rmult_le_reg_r with (INR (length l)); [done|].
  unfold Rdiv. rewrite Rmult_assoc, Rinv_l by lra. lra.
Qed.

Section Ranges.
Context {State Action Key Move : Type} `{Engine State Action Key Move}.
Implicit Types (h : Heap Key) (nd : TreeNode Key) (g : Rng) (state : State).

(** X5. When the fitness and the health of a state add up to a number
    between [0] and [3], [score] of that state lies between [0] and [1]. *)
Theorem score_in_unit_interval (state : State) :
  (0 <= state_score state + health state <= 3)%R ->
  (0 <= score state <= 1)%R.
Proof.
  intros Hb. unfold score.
  destruct (ended state); [destruct (get_end_result state =? 1)%Z|]; lra.
Qed.

Lemma reachable_root h : reachable h -> exists r, h !! 0 = Some r.
Proof.
  induction 1 as [p|h fuel state g h' g' Hr [r H0] Hstep]; [by eexists|].
  pose proof (lookup_lt_Some _ _ _ H0) as Hl.
  destruct (select_effect fuel 0 state h g h' g' (reachable_Inv h Hr) Hl Hstep)
    as (hx & n & final & He & Hb & Ha & _).
  destruct (effect_nodes h hx h' n (score final) 0 He Hb Ha) as [_ Hall].
  destruct (Hall 0 r H0) as (r' & Hr' & _). eauto.
Qed.

Lemma expanded_outcomes (P : R -> Prop) h hx :
  outcomes_in P h -> expanded h hx -> outcomes_in P hx.
Proof.
  intros Ho [|s nd a Hs Hfresh]; [done|].
  intros m x r Hm Hr.
  destruct (grow_lookup _ _ _ _ _ _ _ Hs Hm) as [[-> ->]|[[-> ->]|(_ & _ & Hx)]].
  - simpl in Hr. by apply elem_of_nil in Hr.
  - simpl in Hr. eapply Ho; eauto.
  - eapply Ho; eauto.
Qed.

Lemma bumped_outcomes (P : R -> Prop) hx h' n v :
  outcomes_in P hx -> P v -> bumped hx h' n v -> outcomes_in P h'.
Proof.
  intros Ho Hv Hb m x' r Hm Hr.
  destruct (bumped_lookup _ _ _ _ _ _ Hb Hm) as (x & Hx & [[_ ->]|[_ ->]]).
  - simpl in Hr. apply elem_of_app in Hr as [Hr|Hr]; [eapply Ho; eauto|].
    apply list_elem_of_singleton in Hr. by subst r.
  - eapply Ho; eauto.
Qed.

Lemma reachable_outcomes (P : R -> Prop) h :
  (forall s, ended s = true -> P (score s)) ->
  reachable h -> outcomes_in P h.
Proof.
  intros HP. induction 1 as [p|h fuel state g h' g' Hr IH Hstep].
  - intros [|m] nd r Hm Hin; simpl in Hm; [|done]. injection Hm as <-.
    simpl in Hin. by apply elem_of_nil in Hin.
  - destruct (reachable_root h Hr) as [r0 H0].
    pose proof (lookup_lt_Some _ _ _ H0) as Hl.
    destruct (select_effect fuel 0 state h g h' g' (reachable_Inv h Hr) Hl Hstep)
      as (hx & n & final & He & Hb & _ & Hf).
    eapply bumped_outcomes; [|apply HP; exact Hf|exact Hb].
    by eapply expanded_outcomes.
Qed.

(** X6. In every tree the search can be in, every recorded outcome is the
    score of a state that has ended: what [score] returned for the state
    a descent or a playout ended in, and nothing else, is recorded. *)
Theorem reachable_outcomes_are_final_scores (h : Heap Key) (m : nat)
    (nd : TreeNode Key) (r : R) :
  reachable h -> h !! m = Some nd -> r ∈ results nd ->
  exists s, ended s = true /\ r = score s.
Proof.
  intros Hr Hm Hin.
  eapply (reachable_outcomes
            (fun r => exists s, ended s = true /\ r = score s) h); eauto.
Qed.

End Ranges.

Lemma score_in_unit_interval_witness :
  let s := Toy.mkToy [0; 1] [1] 2 in
  (0 <= @score _ _ _ _ (Toy.toy 0) s <= 1)%R.
Proof.
  intros s. apply (@score_in_unit_interval _ _ _ _ (Toy.toy 0)). simpl.
  change (IZR (0 + Z.of_nat 2)) with 2%R. lra.
Defined.

Lemma reachable_outcomes_are_final_scores_witness :
  exists s, @ended _ _ _ _ (Toy.toy 0) s = true /\
    Toy.outcome 0 = @score _ _ _ _ (Toy.toy 0) s.
Proof.
  apply (@reachable_outcomes_are_final_scores _ _ _ _ (Toy.toy 0)
           (Toy.tree1 (1 / 2) (Toy.outcome 0)) 1
           (Toy.leaf (1 / 2) 0 "A" (Toy.outcome 0)) (Toy.outcome 0)).
  - apply reachable_tree1.
  - reflexivity.
  - simpl. apply elem_of_cons. by left.
Defined.

(** ** Labels and links *)

Section Labels.
Context {State Action Key Move : Type} `{Engine State Action Key Move}.
Implicit Types (h : Heap Key) (nd : TreeNode Key) (g : Rng) (state : State).

Lemma dict_mem_false_keys (k : Key) (d : list (Key * nat)) :
  dict_mem k d = false -> k ∉ d.*1.
Proof.
  unfold dict_mem. induction d as [|[k0 v0] d IH]; simpl.
  - intros _ Hin. by apply elem_of_nil in Hin.
  - destruct (decide (k = k0)) as [->|Hne]; [done|].
    intros Hm Hin. apply elem_of_cons in Hin as [Heq|Hin]; [done|].
    by apply IH.
Qed.

Lemma labelled_root (p : R) : labelled [TreeNode_init (Key := Key) p None].
Proof.
  split.
  - intros nd [= <-]. done.
  - intros [|m] nd Hm _; [done|]. simpl in Hm. done.
  - intros [|m] nd q Hm Hq; simpl in Hm; [|done]. injection Hm as <-. done.
  - intros [|m] nd Hm; simpl in Hm; [|done]. injection Hm as <-.
    simpl. apply NoDup_nil_2.
  - intros [|m] nd r Hm [= <-]; simpl in Hm; [|done]. by injection Hm as <-.
Qed.

Lemma bumped_labelled hx h' n v : labelled hx -> bumped hx h' n v -> labelled h'.
Proof.
  intros Hl Hb.
  assert (Hfw : forall m x, hx !! m = Some x ->
            exists x', h' !! m = Some x' /\ children x' = children x /\
                       param x' = param x).
  { intros m x Hm. destruct Hb as [_ Hall].
    destruct (Hall m x Hm) as [[_ Hk]|[_ Hk]]; eexists; (split; [exact Hk|done]). }
  assert (Hbw : forall m x', h' !! m = Some x' ->
            exists x, hx !! m = Some x /\ parent x' = parent x /\
              action x' = action x /\ aname x' = aname x /\
              children x' = children x /\ param x' = param x).
  { intros m x' Hm.
    destruct (bumped_lookup _ _ _ _ _ _ Hb Hm) as (x & Hx & [[_ ->]|[_ ->]]);
      exists x; done. }
  split.
  - intros nd H0. destruct (Hbw 0 nd H0) as (x & Hx & -> & -> & -> & _).
    eapply (lab_root hx Hl); eauto.
  - intros m nd Hm Hp. destruct (Hbw m nd Hm) as (x & Hx & Hpx & _).
    eapply (lab_orphan hx Hl); eauto. congruence.
  - intros m nd p Hm Hp.
    destruct (Hbw m nd Hm) as (x & Hx & Hpx & Hax & Hnx & _).
    rewrite Hpx in Hp.
    destruct (lab_child hx Hl m x p Hx Hp) as (pd & a & Hpd & Hin & Hact & Hnm).
    destruct (Hfw p pd Hpd) as (pd' & Hpd' & Hch & _).
    exists pd', a. rewrite Hch, Hax, Hnx. done.
  - intros m nd Hm. destruct (Hbw m nd Hm) as (x & Hx & _ & _ & _ & -> & _).
    eapply (lab_keys hx Hl); eauto.
  - intros m nd r Hm H0.
    destruct (Hbw m nd Hm) as (x & Hx & _ & _ & _ & _ & ->).
    destruct (Hbw 0 r H0) as (r0 & Hr0 & _ & _ & _ & _ & ->).
    eapply (lab_param hx Hl); eauto.
Qed.

Lemma expanded_labelled h hx :
  labelled h -> 0 < length h -> expanded h hx -> labelled hx.
Proof.
  intros Hl Hpos [|s nd a Hs Hfresh]; [done|].
  pose proof (lookup_lt_Some _ _ _ Hs) as Hsl.
  assert (Hset : dict_set (key a) (length h) (children nd)
                 = children nd ++ [(key a, length h)])
    by (by apply dict_set_fresh).
  assert (Hold : forall m xo, h !! m = Some xo ->
            exists x, grow h s nd (key a) (str a) !! m = Some x /\
              parent x = parent xo /\ aname x = aname xo /\
              action x = action xo /\ param x = param xo /\
              forall e, e ∈ children xo -> e ∈ children x).
  { intros m xo Hm.
    destruct (grow_lookup_full h s nd (key a) (str a) m xo Hs Hm)
      as (x & Hx & Hp & Hn & Ha & _ & _ & Hpa & Hch).
    exists x. do 5 (split; [done|]). intros e He.
    destruct Hch as [->|[-> ->]]; [done|].
    assert (xo = nd) by congruence. subst xo.
    rewrite Hset. apply elem_of_app. by left. }
  destruct (lookup_lt_is_Some_2 h 0 Hpos) as [r0 Hr0].
  split.
  - intros x H0.
    destruct (Hold 0 r0 Hr0) as (x' & Hx' & Hp & Hn & Ha & _).
    assert (x' = x) by congruence. subst x'. rewrite Hp, Hn, Ha.
    eapply (lab_root h Hl); eauto.
  - intros m x Hm Hp.
    destruct (grow_lookup _ _ _ _ _ _ _ Hs Hm) as [[-> ->]|[[-> ->]|(_ & _ & Hx)]].
    + done.
    + eapply (lab_orphan h Hl); eauto.
    + eapply (lab_orphan h Hl); eauto.
  - intros m x p Hm Hp.
    assert (Hcase : (m = length h /\ x = fresh_child s nd (key a) (str a)) \/
                    (exists xo, h !! m = Some xo /\ parent x = parent xo /\
                       action x = action xo /\ aname x = aname xo)).
    { destruct (grow_lookup _ _ _ _ _ _ _ Hs Hm) as [[-> ->]|[[-> ->]|(_ & _ & Hx)]].
      - by left.
      - right. exists nd. done.
      - right. exists x. done. }
    destruct Hcase as [[-> ->]|(xo & Hxo & Hpx & Hax & Hnx)].
    + simpl in Hp. injection Hp as <-.
      exists (set_children (dict_set (key a) (length h) (children nd)) nd), a.
      split; [by apply grow_lookup_self|]. simpl. split; [|done].
      rewrite Hset. apply elem_of_app. right. by apply list_elem_of_singleton.
    + rewrite Hpx in Hp.
      destruct (lab_child h Hl m xo p Hxo Hp) as (pd & a' & Hpd & Hin & Hact & Hnm).
      destruct (Hold p pd Hpd) as (pd' & Hpd' & _ & _ & _ & _ & Hsub).
      exists pd', a'. rewrite Hax, Hnx. split; [done|]. split; [by apply Hsub|done].
  - intros m x Hm.
    destruct (grow_lookup _ _ _ _ _ _ _ Hs Hm) as [[-> ->]|[[-> ->]|(_ & _ & Hx)]].
    + simpl. apply NoDup_nil_2.
    + simpl. rewrite Hset, fmap_app. simpl. apply NoDup_app.
      split; [eapply (lab_keys h Hl); eauto|]. split; [|apply NoDup_singleton].
      intros k Hk Hk'. apply list_elem_of_singleton in Hk'. subst k.
      by apply (dict_mem_false_keys (key a) (children nd)).
    + eapply (lab_keys h Hl); eauto.
  - intros m x r Hm H0.
    destruct (Hold 0 r0 Hr0) as (r' & Hr' & _ & _ & _ & Hpr & _).
    assert (r' = r) by congruence. subst r'. rewrite Hpr.
    destruct (grow_lookup _ _ _ _ _ _ _ Hs Hm) as [[-> ->]|[[-> ->]|(_ & _ & Hx)]].
    + simpl. eapply (lab_param h Hl); eauto.
    + simpl. eapply (lab_param h Hl); eauto.
    + eapply (lab_param h Hl); eauto.
Qed.

Lemma reachable_labels (h : Heap Key) : reachable h -> labelled h.
Proof.
  induction 1 as [p|h fuel state g h' g' Hr IH Hstep].
  - apply labelled_root.
  - destruct (reachable_root h Hr) as [r0 H0].
    pose proof (lookup_lt_Some _ _ _ H0) as Hl.
    destruct (select_effect fuel 0 state h g h' g' (reachable_Inv h Hr) Hl Hstep)
      as (hx & n & final & He & Hb & _ & _).
    eapply bumped_labelled; [|exact Hb]. by eapply expanded_labelled.
Qed.

(** X7. In every tree the search can be in: only the root has no parent,
    and it carries no action; every other node stands in the [children]
    dictionary of its parent under the key of an action, and carries that
    key as [action] and the text of that action as [aname]; the keys of a
    dictionary are distinct; and every node carries the exploration
    parameter of the root. *)
Theorem reachable_labelled (h : Heap Key) : reachable h -> labelled h.
Proof. apply reachable_labels. Qed.

End Labels.

Lemma reachable_labelled_witness :
  @labelled _ _ _ _ (Toy.toy 0) (Toy.tree2 (1 / 2) (Toy.outcome 0)).
Proof.
  apply (@reachable_labelled _ _ _ _ (Toy.toy 0)). apply reachable_tree2.
Defined.

(** ** The exceptions a search can end in *)

Lemma bind_Raise {A B : Type} (m : res A) (f : A -> res B) (e : exn) :
  m ≫= f = Raise e -> m = Raise e \/ exists a, m = Ok a /\ f a = Raise e.
Proof.
  destruct m as [a|e0|]; simpl; intros Hm; [right; eauto| |discriminate].
  left. injection Hm as ->. reflexivity.
Qed.

Section Failures.
Context {State Action Key Move : Type} `{Engine State Action Key Move}.
Implicit Types (h : Heap Key) (nd : TreeNode Key) (g : Rng) (state : State).

Lemma backpropagate_no_raise (v : R) fuel n h e :
  parents_lt h -> n < length h -> backpropagate fuel n v h <> Raise e.
Proof.
  revert n h. induction fuel as [|fuel IH]; intros n h Hlt Hn; [done|].
  destruct (lookup_lt_is_Some_2 h n Hn) as [nd Hnd].
  simpl. unfold get_node. rewrite Hnd. simpl. rewrite py_div_snoc. simpl.
  destruct (parent nd) as [p|] eqn:Hp; [|done].
  apply IH.
  - eapply parents_lt_insert; eauto.
  - rewrite length_insert. specialize (Hlt n nd p Hnd Hp). lia.
Qed.

Lemma playout_Raise_cases fuel state g e :
  playout fuel state g = Raise e ->
  e = IndexError /\ exists s', ended s' = false /\ get_actions s' = [].
Proof.
  revert state g. induction fuel as [|fuel IH]; intros state g; [done|].
  simpl. destruct (ended state) eqn:E; [done|].
  unfold random_choice. destruct (get_actions state) as [|x l] eqn:Ea; simpl.
  - intros [= <-]. split; [done|]. eauto.
  - destruct (draw g) as [n g1]. simpl.
    destruct (step state _ g1) as [s' g2]. eauto.
Qed.

Lemma explored_child_Inv h self nd a :
  Inv h -> h !! self = Some nd ->
  dict_mem (key a) (children nd) = true ->
  exists c cd, dict_get (key a) (children nd) = Some c /\ h !! c = Some cd /\
    child_weight h nd a = Ok (c, ucb_value nd cd).
Proof.
  intros HI Hs Hm. unfold dict_mem in Hm.
  destruct (dict_get (key a) (children nd)) as [c|] eqn:Hg; [|done].
  destruct (Inv_child h self nd (key a) c HI Hs Hg) as (cd & Hcd & _ & H1 & Hle).
  exists c, cd. split; [done|]. split; [done|].
  unfold child_weight. rewrite Hg. simpl. unfold get_node. rewrite Hcd. simpl.
  rewrite (ucb_weight_defined nd cd H1 Hle). reflexivity.
Qed.

(** How a [select] on a well-formed tree can fail. *)
Lemma select_Raise_cases fuel self state h g e :
  Inv h -> self < length h ->
  select fuel self state h g = Raise e ->
  (e = IndexError /\ exists s', ended s' = false /\ get_actions s' = []) \/
  (e = AttributeError /\
   exists m nd s0 g0, h !! m = Some nd /\ ended s0 = false /\
     forall a, a ∈ get_actions (copy_undeterministic s0 g0).1 ->
       exists c cd, dict_get (key a) (children nd) = Some c /\
         h !! c = Some cd /\ (ucb_value nd cd <= -1)%R).
Proof.
  intros HI. pose proof HI as [Hwf Hv].
  revert self state g. induction fuel as [|fuel IH]; intros self state g Hlt; [done|].
  simpl. destruct (ended state) eqn:E.
  - intros Hrun. apply bind_Raise in Hrun as [Hrun|(h1 & _ & Hrun)]; [|done].
    exfalso. eapply backpropagate_no_raise; [apply Hwf|exact Hlt|exact Hrun].
  - destruct (copy_undeterministic state g) as [statecopy g1] eqn:Ecopy.
    destruct (lookup_lt_is_Some_2 h self Hlt) as [nd Hnd].
    unfold get_node. rewrite Hnd. simpl.
    destruct (0 <? _) eqn:Hav.
    + rewrite (expand_grow _ _ _ _ _ _ nd Hnd).
      set (avail := List.filter _ _) in *.
      destruct (random_choice_Ok avail (copy_undeterministic statecopy g1).2)
        as (choice & g2 & -> & _).
      { intros Hnil. rewrite Hnil in Hav. done. }
      simpl. unfold rollout. intros Hrun.
      apply bind_Raise in Hrun as [Hrun|([final g3] & _ & Hrun)].
      { left. eapply playout_Raise_cases; eauto. }
      apply bind_Raise in Hrun as [Hrun|(h1 & _ & Hrun)]; [|done].
      exfalso. eapply backpropagate_no_raise; [| |exact Hrun].
      * apply grow_wf; done.
      * rewrite grow_length. lia.
    + assert (Hall : forall a, a ∈ get_actions statecopy ->
                dict_mem (key a) (children nd) = true).
      { intros a Hin. eapply filter_unexplored_nil; [|exact Hin].
        apply Nat.ltb_ge in Hav. apply length_zero_iff_nil. lia. }
      destruct (select_loop_max h nd (get_actions statecopy) None (-1)%R)
        as (r & Hloop & Hcase).
      { intros a Hin.
        destruct (explored_child_Inv h self nd a HI Hnd (Hall a Hin))
          as (c & cd & _ & _ & Hw). eauto. }
      rewrite Hloop. simpl.
      destruct Hcase as [[-> Hmax]|(i & amax & cmax & w & Hi & Hw & -> & _)].
      * intros [= <-]. right. split; [done|].
        exists self, nd, state, g. rewrite Ecopy. simpl.
        split; [done|]. split; [done|]. intros a Hin.
        destruct (explored_child_Inv h self nd a HI Hnd (Hall a Hin))
          as (c & cd & Hg & Hcd & Hw).
        exists c, cd. split; [done|]. split; [done|]. eapply Hmax; eauto.
      * destruct (step statecopy amax g1) as [s' g2]. intros Hrun.
        assert (Hin : amax ∈ get_actions statecopy)
          by (eapply list_elem_of_lookup_2; eauto).
        destruct (explored_child_Inv h self nd amax HI Hnd (Hall amax Hin))
          as (c & cd & Hg & Hcd & Hw').
        assert (c = cmax) by congruence. subst c.
        eapply IH; [|exact Hrun]. eapply lookup_lt_Some; eauto.
Qed.

(** X8. On a tree the search can be in, a [select] that fails fails in
    one of two ways only: with [IndexError], and then some state that has
    not ended has no legal action (the [random.choice] of a rollout); or
    with [AttributeError], and then at some node every legal action of a
    resample has a child and none of these children has a value above
    [-1] (no child chosen).  It never fails with a division by zero, a
    math domain error or a missing key. *)
Theorem select_fails_in_two_ways (fuel self : nat) (state : State)
    (h : Heap Key) (g : Rng) :
  reachable h -> self < length h ->
  forall e, select fuel self state h g = Raise e ->
    (e = IndexError /\ exists s', ended s' = false /\ get_actions s' = []) \/
    (e = AttributeError /\
     exists m nd s0 g0, h !! m = Some nd /\ ended s0 = false /\
       forall a, a ∈ get_actions (copy_undeterministic s0 g0).1 ->
         exists c cd, dict_get (key a) (children nd) = Some c /\
           h !! c = Some cd /\ (ucb_value nd cd <= -1)%R).
Proof.
  intros Hr Hs e Hrun.
  eapply select_Raise_cases; [by apply reachable_Inv|exact Hs|exact Hrun].
Qed.

End Failures.

Lemma select_fails_in_two_ways_witness :
  match @select _ _ _ _ (Toy.toy (-6)) 3 0 Toy.start
          (Toy.tree2 0 (Toy.outcome (-6))) [] with
  | Raise e => e = IndexError \/ e = AttributeError
  | _ => True
  end.
Proof.
  destruct (@select _ _ _ _ (Toy.toy (-6)) 3 0 Toy.start
              (Toy.tree2 0 (Toy.outcome (-6))) []) as [r|e|] eqn:Hrun;
    [exact I| |exact I].
  destruct (@select_fails_in_two_ways _ _ _ _ (Toy.toy (-6)) 3 0 Toy.start
              (Toy.tree2 0 (Toy.outcome (-6))) [])
    with (e := e) as [[-> _]|[-> _]].
  - apply reachable_tree2.
  - simpl. lia.
  - exact Hrun.
  - by left.
  - by right.
Defined.

(** ** Searches that cannot fail *)

Section Contract.
Context {State Action Key Move : Type} `{Engine State Action Key Move}.
Implicit Types (h : Heap Key) (nd : TreeNode Key) (g : Rng) (state : State).

Lemma child_mean_above (lo : R) h self nd k c cd :
  (forall s, ended s = true -> (lo <= score s)%R) ->
  reachable h -> h !! self = Some nd ->
  dict_get k (children nd) = Some c -> h !! c = Some cd ->
  (lo <= sc cd)%R.
Proof.
  intros Hlo Hr Hs Hg Hc. pose proof (reachable_Inv h Hr) as HI.
  destruct (Inv_child h self nd k c HI Hs Hg) as (cd' & Hcd' & _ & H1 & _).
  assert (cd' = cd) by congruence. subst cd'.
  assert (Hne : results cd <> []) by (destruct (results cd); [simpl in H1; lia|done]).
  destruct HI as [Hwf _]. rewrite (wf_mean h Hwf c cd Hc Hne).
  apply mean_lower; [done|]. intros r Hin.
  eapply (reachable_outcomes (fun r => lo <= r)%R h Hlo Hr); eauto.
Qed.

Lemma ucb_value_above (lo : R) h self nd k c cd r :
  (forall s, ended s = true -> (lo <= score s)%R) ->
  reachable h -> h !! 0 = Some r -> (0 <= param r)%R ->
  h !! self = Some nd ->
  dict_get k (children nd) = Some c -> h !! c = Some cd ->
  (lo <= ucb_value nd cd)%R.
Proof.
  intros Hlo Hr H0 Hp Hs Hg Hc.
  pose proof (child_mean_above lo h self nd k c cd Hlo Hr Hs Hg Hc) as Hsc.
  pose proof (lab_param h (reachable_labels h Hr) self nd r Hs H0) as Hpar.
  unfold ucb_value. rewrite Hpar.
  pose proof (sqrt_pos (ln (INR (length (results nd)) / INR (length (results cd))))).
  assert (0 <= param r *
    sqrt (ln (INR (length (results nd)) / INR (length (results cd)))))%R
    by (by apply Rmult_le_pos).
  lra.
Qed.

Lemma select_no_raise (lo : R) (fuel self : nat) (state : State)
    (h : Heap Key) (g : Rng) (root : TreeNode Key) :
  engine_contract lo -> (-1 < lo)%R ->
  reachable h -> h !! 0 = Some root -> (0 <= param root)%R ->
  self < length h ->
  forall e, select fuel self state h g <> Raise e.
Proof.
  intros Hc Hlo Hr H0 Hp Hs e Hrun.
  destruct (select_Raise_cases fuel self state h g e (reachable_Inv h Hr) Hs Hrun)
    as [[_ (s' & He & Ha)]|[_ (m & nd & s0 & g0 & Hm & He & Hall)]].
  - by apply (legal_action lo Hc s' He).
  - pose proof (resample_ended lo Hc s0 g0) as Hre. rewrite He in Hre.
    pose proof (legal_action lo Hc _ Hre) as Hne.
    destruct (get_actions (copy_undeterministic s0 g0).1) as [|a l] eqn:Ea; [done|].
    destruct (Hall a) as (c & cd & Hg & Hcd & Hle); [apply elem_of_cons; by left|].
    pose proof (ucb_value_above lo h m nd (key a) c cd root
                  (score_above lo Hc) Hr H0 Hp Hm Hg Hcd).
    lra.
Qed.

(** X9. For an engine that keeps the contract (a resample has ended
    exactly when the state has, a state that has not ended has a legal
    action, the score of a state that has ended is at least [lo]) with
    [lo] above [-1], and an exploration parameter that is not negative,
    [select] on a tree the search can be in raises no exception at all. *)
Theorem select_never_raises (lo : R) (fuel self : nat) (state : State)
    (h : Heap Key) (g : Rng) (root : TreeNode Key) :
  engine_contract lo -> (-1 < lo)%R ->
  reachable h -> h !! 0 = Some root -> (0 <= param root)%R ->
  self < length h ->
  forall e, select fuel self state h g <> Raise e.
Proof.
  intros Hc Hlo Hr H0 Hp Hs e.
  by apply (select_no_raise lo fuel self state h g root).
Qed.

Lemma playout_stable n m state g r :
  playout n state g = r -> r <> OutOfFuel -> n <= m -> playout m state g = r.
Proof.
  revert m state g. induction n as [|n IH]; intros m state g; simpl.
  - intros <- Hr. done.
  - destruct m as [|m]; [lia|]. simpl. intros Hrun Hr Hle.
    destruct (ended state); [done|].
    destruct (random_choice _ _) as [[a g1]| |]; simpl in *; try done.
    destruct (step state a g1) as [s' g2]. apply IH; [done|done|lia].
Qed.

Lemma select_has_fuel (N : nat) fuel self state h g :
  Inv h -> self < length h ->
  (forall s g0, playout N s g0 <> OutOfFuel) ->
  N + 2 * length h + 2 <= fuel + self ->
  select fuel self state h g <> OutOfFuel.
Proof.
  intros HI Hself HN. pose proof HI as [Hwf Hv].
  revert self state g Hself.
  induction fuel as [|fuel IH]; intros self state g Hself Hf; [lia|].
  simpl. destruct (ended state) eqn:E.
  - destruct (backpropagate_bumped h (score state) (wf_parent_lt h Hwf)
                fuel self Hself ltac:(lia)) as (h' & -> & _). done.
  - destruct (copy_undeterministic state g) as [statecopy g1] eqn:Ecopy.
    destruct (lookup_lt_is_Some_2 h self Hself) as [nd Hnd].
    unfold get_node. rewrite Hnd. simpl.
    destruct (0 <? _) eqn:Hav.
    + rewrite (expand_grow _ _ _ _ _ _ nd Hnd).
      destruct (random_choice _ _) as [[choice g2]| |] eqn:Hc; simpl; try done.
      * unfold rollout.
        set (s' := (step _ choice g2).1). set (g3 := (step _ choice g2).2).
        rewrite (playout_stable N fuel s' g3 (playout N s' g3) eq_refl (HN s' g3))
          by lia.
        destruct (playout N s' g3) as [[final g4]| |] eqn:Hplay; simpl; try done.
        { destruct (backpropagate_bumped
                      (grow h self nd (key choice) (str choice)) (score final)
                      (wf_parent_lt _ (grow_wf h self nd _ _ Hwf Hnd))
                      fuel (length h)) as (h' & -> & _); [|lia|done].
          rewrite grow_length. lia. }
        by destruct (HN s' g3).
      * unfold random_choice in Hc. destruct (List.filter _ _); [done|].
        by destruct (draw _).
    + assert (Hall : forall a, a ∈ get_actions statecopy ->
                dict_mem (key a) (children nd) = true).
      { intros a Hin. eapply filter_unexplored_nil; [|exact Hin].
        apply Nat.ltb_ge in Hav. apply length_zero_iff_nil. lia. }
      destruct (select_loop_max h nd (get_actions statecopy) None (-1)%R)
        as (r & Hloop & Hcase).
      { intros a Hin.
        destruct (explored_child_Inv h self nd a HI Hnd (Hall a Hin))
          as (c & cd & _ & _ & Hw). eauto. }
      rewrite Hloop. simpl.
      destruct Hcase as [[-> _]|(i & amax & cmax & w & Hi & Hw & -> & _)]; [done|].
      destruct (step statecopy amax g1) as [s' g2].
      assert (Hin : amax ∈ get_actions statecopy)
        by (eapply list_elem_of_lookup_2; eauto).
      destruct (explored_child_Inv h self nd amax HI Hnd (Hall amax Hin))
        as (c & cd & Hg & Hcd & Hw').
      assert (c = cmax) by congruence. subst c.
      destruct (Inv_child h self nd (key amax) cmax HI Hnd Hg)
        as (cd' & Hcd' & Hpar & _).
      pose proof (wf_parent_lt h Hwf cmax cd' self Hcd' Hpar).
      apply IH; [eapply lookup_lt_Some; eauto|lia].
Qed.

Lemma select_total (lo : R) (N fuel self : nat) (state : State)
    (h : Heap Key) (g : Rng) (root : TreeNode Key) :
  engine_contract lo -> (-1 < lo)%R ->
  (forall s g0, playout N s g0 <> OutOfFuel) ->
  reachable h -> h !! 0 = Some root -> (0 <= param root)%R ->
  self < length h -> N + 2 * length h + 2 <= fuel + self ->
  exists h' g', select fuel self state h g = Ok (h', g').
Proof.
  intros Hc Hlo HN Hr H0 Hp Hs Hf.
  destruct (select fuel self state h g) as [[h' g']|e|] eqn:Hrun.
  - eauto.
  - exfalso.
    eapply (select_no_raise lo fuel self state h g root); eauto.
  - exfalso.
    eapply (select_has_fuel N fuel self state h g); eauto.
    by apply reachable_Inv.
Qed.

(** X10. For an engine that keeps the contract with [lo] above [-1], an
    exploration parameter that is not negative, and random playouts that
    all end within [N] steps, [select] on a node of a tree the search can
    be in returns, as soon as the fuel exceeds [N] plus twice the number
    of nodes plus two. *)
Theorem select_returns (lo : R) (N fuel self : nat) (state : State)
    (h : Heap Key) (g : Rng) (root : TreeNode Key) :
  engine_contract lo -> (-1 < lo)%R ->
  (forall s g0, playout N s g0 <> OutOfFuel) ->
  reachable h -> h !! 0 = Some root -> (0 <= param root)%R ->
  self < length h -> N + 2 * length h + 2 <= fuel + self ->
  exists h' g', select fuel self state h g = Ok (h', g').
Proof.
  intros Hc Hlo HN Hr H0 Hp Hs Hf.
  by apply (select_total lo N fuel self state h g root).
Qed.

End Contract.

Lemma toy_contract (base : Z) :
  (0 <= base)%Z -> @engine_contract _ _ _ _ (Toy.toy base) 0.
Proof.
  intros Hb. split.
  - intros s g0. simpl. unfold Toy.toy_copy. destruct (draw g0). reflexivity.
  - intros [hand played hidden]. simpl. unfold Toy.toy_ended, Toy.toy_actions.
    simpl. destruct played, hand; done.
  - intros s _. unfold score. simpl.
    assert (0 <= IZR (base + Z.of_nat (Toy.hidden s)))%R by (apply IZR_le; lia).
    destruct (Toy.toy_ended s); [destruct (Toy.toy_result s =? 1)%Z|]; lra.
Qed.

Lemma toy_playout_bound (base : Z) (s : Toy.ToyState) (g0 : Rng) :
  @playout _ _ _ _ (Toy.toy base) 2 s g0 <> OutOfFuel.
Proof.
  destruct s as [hand played hidden].
  destruct played as [|a played]; [destruct hand as [|x hand]|]; try done.
  simpl. unfold Toy.toy_ended, Toy.toy_actions. simpl.
  destruct (draw g0) as [n g']. done.
Qed.

Lemma select_never_raises_witness :
  match @select _ _ _ _ (Toy.toy 0) 3 0 Toy.start
          (Toy.tree2 (1 / 2) (Toy.outcome 0)) [] with
  | Raise e => False
  | _ => True
  end.
Proof.
  destruct (@select _ _ _ _ (Toy.toy 0) 3 0 Toy.start
              (Toy.tree2 (1 / 2) (Toy.outcome 0)) []) as [r|e|] eqn:Hrun;
    [exact I| |exact I].
  apply (@select_never_raises _ _ _ _ (Toy.toy 0) 0 3 0 Toy.start
           (Toy.tree2 (1 / 2) (Toy.outcome 0)) []
           (mkTreeNode [(0, 1); (1, 2)] None [Toy.outcome 0; Toy.outcome 0]
              (1 / 2) ((0 + Toy.outcome 0 + Toy.outcome 0) / INR 2)%R None None)
           (toy_contract 0 ltac:(lia)) ltac:(lra) (reachable_tree2 0 (1 / 2))
           eq_refl ltac:(simpl; lra) ltac:(simpl; lia) e Hrun).
Defined.

Lemma select_returns_witness :
  exists h' g', @select _ _ _ _ (Toy.toy 0) 10 0 Toy.start
                  (Toy.tree2 (1 / 2) (Toy.outcome 0)) [] = Ok (h', g').
Proof.
  apply (@select_returns _ _ _ _ (Toy.toy 0) 0 2 10 0 Toy.start
           (Toy.tree2 (1 / 2) (Toy.outcome 0)) []
           (mkTreeNode [(0, 1); (1, 2)] None [Toy.outcome 0; Toy.outcome 0]
              (1 / 2) ((0 + Toy.outcome 0 + Toy.outcome 0) / INR 2)%R None None)).
  - apply toy_contract. lia.
  - lra.
  - apply toy_playout_bound.
  - apply reachable_tree2.
  - reflexivity.
  - simpl. lra.
  - simpl. lia.
  - simpl. lia.
Defined.

(** ** How many lines the tree prints *)

Section LineCount.
Context {State Action Key Move : Type} `{Engine State Action Key Move}.
Variable str_float : R -> string.
Implicit Types (h : Heap Key) (nd : TreeNode Key).





End LineCount.


(** ** The decision *)

Section Decision.
Context {State Action Key Move : Type} `{Engine State Action Key Move}.
Variable str_float : R -> string.
Implicit Types (h : Heap Key) (nd : TreeNode Key) (g : Rng) (state : State).

Lemma get_best_loop_Some h nd acts amax cw a :
  get_best_loop h nd acts amax cw = Ok (Some a) -> amax = Some a \/ a ∈ acts.
Proof.
  revert amax cw. induction acts as [|a0 acts IH]; intros amax cw; simpl.
  - intros [= ->]. by left.
  - destruct (dict_mem (key a0) (children nd)).
    + intros Hrun. apply bind_Ok in Hrun as (c & _ & Hrun).
      apply bind_Ok in Hrun as (cn & _ & Hrun).
      destruct (Rgt_dec (sc cn) cw).
      * apply IH in Hrun as [[= ->]|Hin]; right; apply elem_of_cons; eauto.
      * apply IH in Hrun as [->|Hin]; [by left|].
        right. apply elem_of_cons. by right.
    + intros Hrun. apply IH in Hrun as [->|Hin]; [by left|].
      right. apply elem_of_cons. by right.
Qed.

Lemma get_best_Ok_elem self state h g a g' :
  get_best self state h g = Ok (a, g') -> a ∈ get_actions state.
Proof.
  unfold get_best. intros Hrun. apply bind_Ok in Hrun as (nd & _ & Hrun).
  apply bind_Ok in Hrun as (amax & Hloop & Hrun).
  destruct amax as [a0|].
  - injection Hrun as -> ->.
    apply get_best_loop_Some in Hloop as [|]; done.
  - eapply random_choice_elem; eauto.
Qed.

Lemma get_best_loop_no_children h nd acts amax cw :
  children nd = [] -> get_best_loop h nd acts amax cw = Ok amax.
Proof.
  intros Hc. induction acts as [|a acts IH]; simpl; [done|].
  assert (dict_mem (key a) (children nd) = false) as -> by (by rewrite Hc).
  exact IH.
Qed.

End Decision.

Section Driver.
Context {State Action Key Move : Type} `{Engine State Action Key Move}.
Variable str_float : R -> string.
Implicit Types (h : Heap Key) (nd : TreeNode Key) (g : Rng) (state : State).



(** X14. Whatever the engine, what [choose_card] returns is a legal
    action of the state it was given, turned into a move by [to_action];
    so on a state with no legal action it never returns.  Nothing is
    printed unless verbose.  And either the state has a single legal
    action and no node was constructed, or the tree left behind is one the
    search can be in, whose root holds one outcome per iteration of the
    budget and the exploration parameter of the agent, with at most one
    node per iteration besides the root. *)
Theorem choose_card_result (fuel : nat) (iterations : Z) (verbose : bool)
    (p : R) (battle_state : State) (g : Rng) (m : Move) (tr : Trace) :
  choose_card str_float fuel iterations verbose p battle_state g = Ok (m, tr) ->
  (exists a, a ∈ get_actions battle_state /\ m = to_action a battle_state) /\
  (verbose = false -> printed tr = []) /\
  ((length (get_actions battle_state) = 1 /\ nodes tr = [] /\ rng tr = g) \/
   (length (get_actions battle_state) <> 1 /\ reachable (nodes tr) /\
    length (nodes tr) <= S (Z.to_nat iterations) /\
    exists root, nodes tr !! 0 = Some root /\
      length (results root) = Z.to_nat iterations /\ param root = p)).
Proof.
  unfold choose_card. intros Hrun.
  assert (Hgen : length (get_actions battle_state) <> 1 ->
    ('(h, g1) ← iterate fuel (Z.to_nat iterations) 0 battle_state
                  [TreeNode_init p None] g;
     '(best_action, g2) ← get_best 0 battle_state h g1;
     out ← (if verbose then print_tree str_float fuel 0 0 h else Ok []);
     Ok (to_action best_action battle_state, mkTrace h g2 out)) = Ok (m, tr) ->
    (exists a, a ∈ get_actions battle_state /\ m = to_action a battle_state) /\
    (verbose = false -> printed tr = []) /\
    (length (get_actions battle_state) <> 1 /\ reachable (nodes tr) /\
     length (nodes tr) <= S (Z.to_nat iterations) /\
     exists root, nodes tr !! 0 = Some root /\
       length (results root) = Z.to_nat iterations /\ param root = p)).
  { intros Hlen Hr. apply bind_Ok in Hr as ([h g1] & Hit & Hr).
    apply bind_Ok in Hr as ([a g2] & Hbest & Hr).
    apply bind_Ok in Hr as (out & Hout & Hr). injection Hr as <- <-.
    split; [exists a; split; [eapply get_best_Ok_elem; eauto|done]|].
    split.
    { intros ->. simpl. by injection Hout as <-. }
    split; [done|]. simpl.
    destruct (iterate_effect fuel (Z.to_nat iterations) battle_state
                [TreeNode_init p None] g h g1 (TreeNode_init p None)
                (reach_root p) eq_refl Hit) as (Hre & Hl & root & H0 & Hres & Hpa).
    split; [done|]. split; [simpl in Hl; lia|]. eauto. }
  destruct (get_actions battle_state) as [|a1 [|a2 l]] eqn:Ea.
  - destruct (Hgen ltac:(done) Hrun) as (Ha & Hv & Ht). eauto.
  - injection Hrun as <- <-. split.
    + exists a1. split; [apply elem_of_cons; by left|done].
    + split; [done|]. left. done.
  - destruct (Hgen ltac:(done) Hrun) as (Ha & Hv & Ht). eauto.
Qed.

(** X15. With an iteration budget of zero or less and not exactly one
    legal action, [choose_card] constructs the root only and decides by
    [random.choice] among the legal actions of the state: it returns the
    action drawn, and raises [IndexError] when there is none. *)
Theorem choose_card_zero_budget (fuel : nat) (iterations : Z) (p : R)
    (battle_state : State) (g : Rng) :
  (iterations <= 0)%Z -> length (get_actions battle_state) <> 1 ->
  choose_card str_float fuel iterations false p battle_state g =
    '(a, g') ← random_choice (get_actions battle_state) g;
    Ok (to_action a battle_state, mkTrace [TreeNode_init p None] g' []).
Proof.
  intros Hz Hlen. unfold choose_card.
  assert (Z.to_nat iterations = 0) as -> by lia.
  assert (Hbest : get_best 0 battle_state [TreeNode_init p None] g =
                  random_choice (get_actions battle_state) g).
  { unfold get_best. simpl.
    rewrite (get_best_loop_no_children _ (TreeNode_init p None)) by reflexivity.
    reflexivity. }
  destruct (get_actions battle_state) as [|a1 [|a2 l]] eqn:Ea; [|done|].
  - simpl. rewrite Hbest. reflexivity.
  - set (rc := random_choice (a1 :: a2 :: l) g) in *.
    simpl. rewrite Hbest. destruct rc as [[a g']| |]; reflexivity.
Qed.

End Driver.


Lemma choose_card_result_witness :
  exists a,
    @choose_card _ _ _ _ (Toy.toy 0) Toy.toy_str_float 3 1 false (1 / 2)%R
      Toy.start [] =
      Ok (a, mkTrace (Toy.tree1 (1 / 2) (Toy.outcome 0)) [] []) /\
    a ∈ [0; 1] /\
    @reachable _ _ _ _ (Toy.toy 0) (Toy.tree1 (1 / 2) (Toy.outcome 0)).
Proof.
  assert (Hit : @iterate _ _ _ _ (Toy.toy 0) 3 (Z.to_nat 1) 0 Toy.start
                  [TreeNode_init (1 / 2) None] []
                = Ok (Toy.tree1 (1 / 2) (Toy.outcome 0), [])) by reflexivity.
  assert (Hb : @get_best _ _ _ _ (Toy.toy 0) 0 Toy.start
                 (Toy.tree1 (1 / 2) (Toy.outcome 0)) [] = Ok (0, [])).
  { unfold get_best, get_node. simpl.
    destruct (Rgt_dec _ _) as [_|Hn]; [reflexivity|].
    exfalso. apply Hn. unfold Toy.outcome.
    change (IZR (0 + 0)) with 0%R. lra. }
  assert (Hrun : @choose_card _ _ _ _ (Toy.toy 0) Toy.toy_str_float 3 1 false
                   (1 / 2)%R Toy.start [] =
                 Ok (0, mkTrace (Toy.tree1 (1 / 2) (Toy.outcome 0)) [] [])).
  { unfold choose_card.
    change (@get_actions _ _ _ _ (Toy.toy 0) Toy.start) with [0; 1].
    cbv beta iota zeta. rewrite Hit. simpl. rewrite Hb. reflexivity. }
  destruct (@choose_card_result _ _ _ _ (Toy.toy 0) Toy.toy_str_float 3 1 false
              (1 / 2)%R Toy.start [] 0
              (mkTrace (Toy.tree1 (1 / 2) (Toy.outcome 0)) [] []) Hrun)
    as ((a & Hin & Ha) & _ & [(Hone & _)|(_ & Hr & _)]).
  - simpl in Hone. discriminate Hone.
  - exists 0. split; [exact Hrun|]. split; [|exact Hr].
    simpl in Ha. subst a. exact Hin.
Defined.

Lemma choose_card_zero_budget_witness :
  @choose_card _ _ _ _ (Toy.toy 0) Toy.toy_str_float 0 0 false (1 / 2)%R
    Toy.start [3] =
  Ok (1, mkTrace [TreeNode_init (1 / 2) None] [] []).
Proof.
  rewrite (@choose_card_zero_budget _ _ _ _ (Toy.toy 0) Toy.toy_str_float
             0 0 (1 / 2)%R Toy.start [3]).
  - reflexivity.
  - lia.
  - simpl. lia.
Defined.

(** ** Visits of a node and of its children; the cached mean *)

Section ChildVisits.
Context {State Action Key Move : Type} `{Engine State Action Key Move}.
Implicit Types (h : Heap Key) (nd : TreeNode Key) (g : Rng) (state : State).

Lemma child_visits_cons h (k : Key) (c : nat) cs :
  child_visits h ((k, c) :: cs) =
    match h !! c with Some cd => length (results cd) | None => 0 end
    + child_visits h cs.
Proof. reflexivity. Qed.

Lemma child_visits_app h (cs cs' : list (Key * nat)) :
  child_visits h (cs ++ cs') = child_visits h cs + child_visits h cs'.
Proof. unfold child_visits. by rewrite sum_list_with_app. Qed.

Lemma child_visits_ext h h' (cs : list (Key * nat)) :
  (forall k c, (k, c) ∈ cs ->
     exists x x', h !! c = Some x /\ h' !! c = Some x' /\
                  results x' = results x) ->
  child_visits h' cs = child_visits h cs.
Proof.
  induction cs as [|[k c] cs IH]; intros Hall; [done|].
  rewrite !child_visits_cons.
  destruct (Hall k c) as (x & x' & -> & -> & ->); [apply elem_of_cons; by left|].
  rewrite IH; [done|]. intros k' c' Hin. apply (Hall k' c').
  apply elem_of_cons. by right.
Qed.

Lemma siblings_anc h self nd k1 c1 k2 c2 x :
  wf_heap h -> h !! self = Some nd ->
  (k1, c1) ∈ children nd -> (k2, c2) ∈ children nd ->
  anc h x c1 -> anc h x c2 -> c1 = c2.
Proof.
  intros Hwf Hs H1 H2 Ha1 Ha2.
  destruct (decide (c1 = c2)) as [|Hne]; [done|]. exfalso.
  destruct (wf_child h Hwf self nd k1 c1 Hs H1) as (cd1 & Hc1 & Hp1 & _).
  destruct (wf_child h Hwf self nd k2 c2 Hs H2) as (cd2 & Hc2 & Hp2 & _).
  pose proof (wf_parent_lt h Hwf c1 cd1 self Hc1 Hp1).
  pose proof (wf_parent_lt h Hwf c2 cd2 self Hc2 Hp2).
  destruct (anc_comparable h x c1 c2 Ha1 Ha2) as [Hc|Hc].
  - inversion Hc as [|? y q ? Hy Hq Hrest]; subst; [done|].
    assert (y = cd1) by congruence. subst y.
    assert (q = self) by congruence. subst q.
    apply anc_le in Hrest; [lia|apply Hwf].
  - inversion Hc as [|? y q ? Hy Hq Hrest]; subst; [done|].
    assert (y = cd2) by congruence. subst y.
    assert (q = self) by congruence. subst q.
    apply anc_le in Hrest; [lia|apply Hwf].
Qed.

Lemma bumped_child_visits_list hx h' n v self nd (cs : list (Key * nat)) :
  wf_heap hx -> bumped hx h' n v -> hx !! self = Some nd ->
  (forall kc, kc ∈ cs -> kc ∈ children nd) -> NoDup (dict_values cs) ->
  child_visits h' cs <= S (child_visits hx cs) /\
  ((forall k c, (k, c) ∈ cs -> ~ anc hx n c) ->
   child_visits h' cs = child_visits hx cs).
Proof.
  intros Hwf Hb Hs. induction cs as [|[k c] cs IH]; intros Hsub Hnd.
  - split; [simpl; lia|done].
  - unfold dict_values in Hnd. simpl in Hnd.
    apply NoDup_cons in Hnd as [Hc Hnd].
    destruct IH as [IH1 IH2].
    { intros kc Hin. apply Hsub. apply elem_of_cons. by right. }
    { exact Hnd. }
    assert (Hk : (k, c) ∈ children nd) by (apply Hsub; apply elem_of_cons; by left).
    destruct (wf_child hx Hwf self nd k c Hs Hk) as (cd & Hcd & _).
    rewrite !child_visits_cons, Hcd.
    destruct Hb as [Hlen Hall].
    destruct (Hall c cd Hcd) as [[Ha ->]|[Ha ->]].
    + assert (Hrest : child_visits h' cs = child_visits hx cs).
      { apply IH2. intros k' c' Hin Ha'.
        assert (Hk' : (k', c') ∈ children nd)
          by (apply Hsub; apply elem_of_cons; by right).
        pose proof (siblings_anc hx self nd k c k' c' n Hwf Hs Hk Hk' Ha Ha').
        subst c'. apply Hc. apply list_elem_of_fmap. by exists (k', c). }
      rewrite Hrest. simpl. rewrite length_app. simpl. split; [lia|].
      intros Hno. exfalso. eapply Hno; [apply elem_of_cons; by left|done].
    + split; [lia|]. intros Hno. rewrite IH2; [done|].
      intros k' c' Hin. apply (Hno k' c'). apply elem_of_cons. by right.
Qed.

Lemma bumped_child_visits hx h' n v :
  wf_heap hx ->
  (forall m x, hx !! m = Some x ->
     child_visits hx (children x) <= length (results x)) ->
  bumped hx h' n v ->
  forall m x', h' !! m = Some x' ->
    child_visits h' (children x') <= length (results x').
Proof.
  intros Hwf HV Hb m x' Hm.
  destruct (bumped_lookup _ _ _ _ _ _ Hb Hm) as (x & Hx & Hcase).
  destruct (bumped_child_visits_list hx h' n v m x (children x) Hwf Hb Hx)
    as [H1 H2]; [done|eapply (wf_values hx Hwf); eauto|].
  specialize (HV m x Hx).
  destruct Hcase as [[Ha ->]|[Ha ->]].
  - simpl. rewrite length_app. simpl. lia.
  - rewrite H2; [done|]. intros k c Hin Hac. apply Ha.
    destruct (wf_child hx Hwf m x k c Hx Hin) as (cd & Hcd & Hp & _).
    eapply anc_parent; eauto.
Qed.

Lemma expanded_child_visits h hx :
  wf_heap h ->
  (forall m x, h !! m = Some x ->
     child_visits h (children x) <= length (results x)) ->
  expanded h hx ->
  forall m x, hx !! m = Some x ->
    child_visits hx (children x) <= length (results x).
Proof.
  intros Hwf HV [|s nd a Hs Hfresh]; [done|].
  assert (Hext : forall m xo, h !! m = Some xo ->
            child_visits (grow h s nd (key a) (str a)) (children xo)
            = child_visits h (children xo)).
  { intros m xo Hm. apply child_visits_ext. intros k c Hin.
    destruct (wf_child h Hwf m xo k c Hm Hin) as (cd & Hcd & _).
    destruct (grow_lookup_lt h s nd (key a) (str a) c cd Hs Hcd)
      as (cd' & Hcd' & _ & _ & Hr & _).
    eauto. }
  intros m x Hm.
  destruct (grow_lookup _ _ _ _ _ _ _ Hs Hm) as [[-> ->]|[[-> ->]|(_ & _ & Hx)]].
  - simpl. lia.
  - simpl. rewrite (dict_set_fresh _ _ _ Hfresh), child_visits_app.
    rewrite (Hext s nd Hs). rewrite child_visits_cons.
    rewrite (grow_lookup_new h s nd (key a) (str a) Hs). simpl.
    specialize (HV s nd Hs). unfold child_visits in *. simpl. lia.
  - rewrite (Hext m x Hx). exact (HV m x Hx).
Qed.

Lemma reachable_child_visits h :
  reachable h ->
  forall m x, h !! m = Some x ->
    child_visits h (children x) <= length (results x).
Proof.
  induction 1 as [p|h fuel state g h' g' Hr IH Hstep].
  - intros [|m] x Hm; simpl in Hm; [|done]. injection Hm as <-. simpl. lia.
  - destruct (reachable_root h Hr) as [r0 H0].
    pose proof (lookup_lt_Some _ _ _ H0) as Hl.
    pose proof (reachable_Inv h Hr) as HI. pose proof HI as [Hwf _].
    destruct (select_effect fuel 0 state h g h' g' HI Hl Hstep)
      as (hx & n & final & He & Hb & _ & _).
    eapply bumped_child_visits; [|eapply expanded_child_visits; eauto|exact Hb].
    by eapply expanded_wf.
Qed.

(** X16. In every tree the search can be in, the children of a node
    hold between them at most as many outcomes as the node itself: each
    recorded outcome goes up through one child at most. *)
Theorem children_visits_at_most_parent (h : Heap Key) (m : nat)
    (nd : TreeNode Key) :
  reachable h -> h !! m = Some nd ->
  child_visits h (children nd) <= length (results nd).
Proof. intros Hr Hm. by apply (reachable_child_visits h Hr m nd). Qed.

Lemma reachable_unvisited h :
  reachable h ->
  forall m x, h !! m = Some x -> results x = [] -> sc x = (1 / 2)%R.
Proof.
  induction 1 as [p|h fuel state g h' g' Hr IH Hstep].
  - intros [|m] x Hm; simpl in Hm; [|done]. by injection Hm as <-.
  - destruct (reachable_root h Hr) as [r0 H0].
    pose proof (lookup_lt_Some _ _ _ H0) as Hl.
    destruct (select_effect fuel 0 state h g h' g' (reachable_Inv h Hr) Hl Hstep)
      as (hx & n & final & He & Hb & _ & _).
    intros m x' Hm Hres.
    destruct (bumped_lookup _ _ _ _ _ _ Hb Hm) as (x & Hx & [[_ ->]|[_ ->]]).
    { simpl in Hres. by destruct (results x). }
    destruct He as [|s nd a Hs Hfresh]; [eauto|].
    destruct (grow_lookup _ _ _ _ _ _ _ Hs Hx) as [[-> ->]|[[-> ->]|(_ & _ & Hx')]].
    + reflexivity.
    + simpl in *. eauto.
    + eauto.
Qed.

(** X17. In every tree the search can be in, the mean score cached in a
    node that holds outcomes is [sum(results) / len(results)]; a node
    without outcome can only be the root, before the first iteration has
    completed, and its mean score is still the initial [0.5]. *)
Theorem reachable_mean_cached (h : Heap Key) (m : nat) (nd : TreeNode Key) :
  reachable h -> h !! m = Some nd ->
  (results nd <> [] ->
   sc nd = (py_sum (results nd) / INR (length (results nd)))%R) /\
  (results nd = [] -> m = 0 /\ sc nd = (1 / 2)%R).
Proof.
  intros Hr Hm. destruct (reachable_Inv h Hr) as [Hwf Hv]. split.
  - intros Hne. apply (wf_mean h Hwf m nd Hm Hne).
  - intros Hnil. split; [|by apply (reachable_unvisited h Hr m nd)].
    destruct (parent nd) as [p|] eqn:Hp.
    + pose proof (Hv m nd p Hm Hp) as H1. rewrite Hnil in H1. simpl in H1. lia.
    + apply (lab_orphan h (reachable_labels h Hr) m nd Hm Hp).
Qed.

End ChildVisits.

Lemma children_visits_at_most_parent_witness :
  child_visits (Toy.tree2 (1 / 2) (Toy.outcome 0)) [(0, 1); (1, 2)] <= 2.
Proof.
  apply (@children_visits_at_most_parent _ _ _ _ (Toy.toy 0)
           (Toy.tree2 (1 / 2) (Toy.outcome 0)) 0
           (mkTreeNode [(0, 1); (1, 2)] None [Toy.outcome 0; Toy.outcome 0]
              (1 / 2) ((0 + Toy.outcome 0 + Toy.outcome 0) / INR 2)%R None None)).
  - apply reachable_tree2.
  - reflexivity.
Defined.

Lemma reachable_mean_cached_witness :
  let nd := Toy.leaf (1 / 2) 1 "B" (Toy.outcome 0) in
  (results nd <> [] ->
   sc nd = (py_sum (results nd) / INR (length (results nd)))%R) /\
  (results nd = [] -> 2 = 0 /\ sc nd = (1 / 2)%R).
Proof.
  intros nd.
  apply (@reachable_mean_cached _ _ _ _ (Toy.toy 0)
           (Toy.tree2 (1 / 2) (Toy.outcome 0)) 2 nd).
  - apply reachable_tree2.
  - reflexivity.
Defined.

(** * Properties of the search on binary64 floats *)

(** ** The order of floats *)

Ltac order_cases :=
  repeat match goal with
  | H : context [Z.compare ?a ?b] |- _ => destruct (Z.compare_spec a b)
  | |- context [Z.compare ?a ?b] => destruct (Z.compare_spec a b)
  | H : context [PosDef.Pos.compare_cont Eq ?a ?b] |- _ =>
      change (PosDef.Pos.compare_cont Eq a b) with (Pos.compare a b) in *;
      destruct (Pos.compare_spec a b)
  | |- context [PosDef.Pos.compare_cont Eq ?a ?b] =>
      change (PosDef.Pos.compare_cont Eq a b) with (Pos.compare a b) in *;
      destruct (Pos.compare_spec a b)
  end.

Lemma SFcompare_sym (x y : spec_float) :
  SFcompare y x = option_map CompOpp (SFcompare x y).
Proof.
  destruct x as [[]|[]| |[] m1 e1], y as [[]|[]| |[] m2 e2]; simpl;
    try reflexivity; order_cases; cbn [CompOpp]; try reflexivity; subst; lia.
Qed.

Lemma SFcompare_refl (x : spec_float) (c : comparison) :
  SFcompare x x = Some c -> c = Eq.
Proof.
  destruct x as [[]|[]| |[] m e]; simpl; try congruence;
    order_cases; cbn [CompOpp]; try congruence; lia.
Qed.

Lemma SFcompare_trans (x y z : spec_float) :
  SFcompare x y = Some Lt ->
  SFcompare y z = Some Lt \/ SFcompare y z = Some Eq ->
  SFcompare x z = Some Lt.
Proof.
  destruct x as [[]|[]| |[] m1 e1], y as [[]|[]| |[] m2 e2],
           z as [[]|[]| |[] m3 e3];
    simpl; intros H1 [H2|H2]; try discriminate; try reflexivity;
    revert H1 H2; order_cases; cbn [CompOpp]; intros;
    try discriminate; try reflexivity; subst; lia.
Qed.

Lemma SFcompare_total (a x y : spec_float) (c1 c2 : comparison) :
  SFcompare a x = Some c1 -> SFcompare a y = Some c2 ->
  exists c, SFcompare x y = Some c.
Proof.
  destruct a as [[]|[]| |[] m0 e0], x as [[]|[]| |[] m1 e1],
           y as [[]|[]| |[] m2 e2];
    simpl; intros H1 H2; try discriminate; eauto.
Qed.

Section FloatOrder.
Implicit Types x y z : float.
Local Open Scope float_scope.

Lemma float_lt_Lt x y :
  (x <? y) = true <-> SFcompare (Prim2SF x) (Prim2SF y) = Some Lt.
Proof.
  rewrite ltb_spec. unfold SFltb.
  destruct (SFcompare _ _) as [[]|]; split; congruence.
Qed.

Lemma float_le_cases x y :
  (x <=? y) = true <->
  SFcompare (Prim2SF x) (Prim2SF y) = Some Lt \/
  SFcompare (Prim2SF x) (Prim2SF y) = Some Eq.
Proof.
  rewrite leb_spec. unfold SFleb.
  destruct (SFcompare _ _) as [[]|]; split; intros Hc;
    try tauto; try discriminate; destruct Hc; discriminate.
Qed.

Lemma float_lt_irrefl x : (x <? x) = false.
Proof.
  destruct (x <? x) eqn:E; [|reflexivity].
  apply float_lt_Lt in E. apply SFcompare_refl in E. discriminate.
Qed.

Lemma float_lt_le_trans x y z :
  (x <? y) = true -> (y <=? z) = true -> (x <? z) = true.
Proof.
  rewrite !float_lt_Lt, float_le_cases. apply SFcompare_trans.
Qed.

Lemma float_lt_le x y : (x <? y) = true -> (x <=? y) = true.
Proof. rewrite float_lt_Lt, float_le_cases. by left. Qed.

Lemma float_lt_trans x y z :
  (x <? y) = true -> (y <? z) = true -> (x <? z) = true.
Proof.
  intros Hxy Hyz. eapply float_lt_le_trans; [exact Hxy|].
  by apply float_lt_le.
Qed.

Lemma float_lt_not_le x y : (x <? y) = true -> (y <=? x) = false.
Proof.
  intros Hxy. destruct (y <=? x) eqn:E; [|reflexivity].
  pose proof (float_lt_le_trans x y x Hxy E) as Hxx.
  by rewrite float_lt_irrefl in Hxx.
Qed.

(** Two floats above a third are numbers, and numbers are comparable. *)
Lemma float_above_total a x y :
  (a <? x) = true -> (a <? y) = true ->
  (x <? y) = true \/ (y <=? x) = true.
Proof.
  rewrite !float_lt_Lt, float_le_cases. intros Hx Hy.
  destruct (SFcompare_total _ _ _ _ _ Hx Hy) as [c Hc].
  rewrite (SFcompare_sym (Prim2SF x) (Prim2SF y)), Hc.
  destruct c; simpl; auto.
Qed.

End FloatOrder.

(** ** Selection on floats *)

Section Selection64.
Import B64.
Context {State Action Key Move : Type} `{Engine State Action Key Move}.
Context `{Runtime}.
Implicit Types (h : Heap Key) (nd : TreeNode Key) (g : Rng) (state : State).

Lemma select_loop_cons64 h nd a rest best cw c w :
  child_weight h nd a = Ok (c, w) ->
  select_loop h nd (a :: rest) best cw =
    if gt w cw then select_loop h nd rest (Some (a, c)) w
    else select_loop h nd rest best cw.
Proof.
  unfold child_weight. simpl.
  destruct (of_option KeyError _) as [c0| |]; simpl; try done.
  destruct (get_node h c0) as [cn| |]; simpl; try done.
  destruct (ucb_weight nd cn) as [w0| |]; simpl; try done.
  intros [= -> ->]. reflexivity.
Qed.

(** The loop keeps the first action among those whose weight no other
    weight exceeds, if that weight exceeds the one the loop starts from;
    a weight that is not a number is passed over. *)
Lemma select_loop_max64 h nd acts best cw :
  (forall a, a ∈ acts -> exists c w, child_weight h nd a = Ok (c, w)) ->
  exists r, select_loop h nd acts best cw = Ok r /\
    ((r = best /\
      forall a c w, a ∈ acts -> child_weight h nd a = Ok (c, w) ->
        gt w cw = false) \/
     (exists i a c w,
        acts !! i = Some a /\ child_weight h nd a = Ok (c, w) /\
        r = Some (a, c) /\ gt w cw = true /\
        forall j a' c' w', acts !! j = Some a' ->
          child_weight h nd a' = Ok (c', w') ->
          gt w' w = false /\ (j < i -> (w <=? w')%float = false))).
Proof.
  revert best cw. induction acts as [|a acts IH]; intros best cw Hall.
  - exists best. split; [reflexivity|]. left. split; [done|].
    intros a c w Hin. by apply elem_of_nil in Hin.
  - destruct (Hall a) as (c & w & Hw); [apply elem_of_cons; by left|].
    assert (Hrest : forall a', a' ∈ acts ->
              exists c' w', child_weight h nd a' = Ok (c', w')).
    { intros a' Hin. apply Hall. apply elem_of_cons. by right. }
    rewrite (select_loop_cons64 h nd a acts best cw c w Hw).
    destruct (gt w cw) eqn:Hgt.
    + destruct (IH (Some (a, c)) w Hrest) as (r & Hr & [[-> Hmax]|Hlater]).
      * exists (Some (a, c)). split; [done|]. right.
        exists 0, a, c, w. do 4 (split; [done|]).
        intros j a' c' w' Hj Hw'. destruct j as [|j]; simpl in Hj.
        -- injection Hj as <-. rewrite Hw in Hw'. injection Hw' as <- <-.
           split; [apply float_lt_irrefl|lia].
        -- split; [|lia]. eapply Hmax; [eapply list_elem_of_lookup_2|]; eauto.
      * destruct Hlater as (i & a1 & c1 & w1 & Hi & Hw1 & -> & Hlt & Hmax).
        exists (Some (a1, c1)). split; [done|]. right.
        exists (S i), a1, c1, w1. do 3 (split; [done|]).
        split; [unfold gt in *; eapply float_lt_trans; eauto|].
        intros j a' c' w' Hj Hw'. destruct j as [|j]; simpl in Hj.
        -- injection Hj as <-. rewrite Hw in Hw'. injection Hw' as <- <-.
           unfold gt in *.
           pose proof (float_lt_not_le _ _ Hlt) as Hnle.
           split; [|done].
           destruct (w1 <? w)%float eqn:E; [|done].
           apply float_lt_le in E. congruence.
        -- destruct (Hmax j a' c' w' Hj Hw') as [Hm1 Hm2].
           split; [done|]. intros Hlt'. apply Hm2. lia.
    + destruct (IH best cw Hrest) as (r & Hr & [[-> Hmax]|Hlater]).
      * exists best. split; [done|]. left. split; [done|].
        intros a' c' w' Hin Hw'. apply elem_of_cons in Hin as [->|Hin].
        -- rewrite Hw in Hw'. injection Hw' as <- <-. done.
        -- eapply Hmax; eauto.
      * destruct Hlater as (i & a1 & c1 & w1 & Hi & Hw1 & -> & Hlt & Hmax).
        exists (Some (a1, c1)). split; [done|]. right.
        exists (S i), a1, c1, w1. do 4 (split; [done|]).
        intros j a' c' w' Hj Hw'. destruct j as [|j]; simpl in Hj.
        -- injection Hj as <-. rewrite Hw in Hw'. injection Hw' as <- <-.
           unfold gt in *.
           assert (Hnle : (w1 <=? w)%float = false).
           { destruct (w1 <=? w)%float eqn:E; [|done].
             pose proof (float_lt_le_trans _ _ _ Hlt E). congruence. }
           split; [|done].
           destruct (w1 <? w)%float eqn:E; [|done].
           apply float_lt_le in E. congruence.
        -- destruct (Hmax j a' c' w' Hj Hw') as [Hm1 Hm2].
           split; [done|]. intros Hlt'. apply Hm2. lia.
Qed.

Lemma filter_all_explored64 (cs : list (Key * nat)) (acts : list Action) :
  (forall a, a ∈ acts -> dict_mem (key a) cs = true) ->
  List.filter (fun a => negb (dict_mem (key a) cs)) acts = [].
Proof.
  induction acts as [|a acts IH]; intros Hall; [done|].
  simpl. rewrite (Hall a) by (apply elem_of_cons; by left). simpl.
  apply IH. intros a' Hin. apply Hall. apply elem_of_cons. by right.
Qed.

Lemma child_weight_mem h nd a c w :
  child_weight h nd a = Ok (c, w) -> dict_mem (key a) (children nd) = true.
Proof.
  unfold child_weight, dict_mem.
  destruct (dict_get (key a) (children nd)); [done|]. simpl. done.
Qed.

(** [select] on a state that has not ended, at a node where every legal
    action of the resample has a child. *)
Lemma select_explored64 fuel self state h g nd :
  h !! self = Some nd -> ended state = false ->
  (forall a, a ∈ get_actions (copy_undeterministic state g).1 ->
     dict_mem (key a) (children nd) = true) ->
  select (S fuel) self state h g =
    best ← select_loop h nd (get_actions (copy_undeterministic state g).1)
           None (-1)%float;
    match best with
    | None => Raise AttributeError
    | Some (amax, cmax) =>
        select fuel cmax
          (step (copy_undeterministic state g).1 amax
             (copy_undeterministic state g).2).1 h
          (step (copy_undeterministic state g).1 amax
             (copy_undeterministic state g).2).2
    end.
Proof.
  intros Hs He Hall. simpl. rewrite He.
  destruct (copy_undeterministic state g) as [statecopy g1]. simpl in *.
  unfold get_node. rewrite Hs. simpl.
  rewrite (filter_all_explored64 _ _ Hall). simpl.
  destruct (select_loop _ _ _ _ _) as [[[amax cmax]|]| |]; simpl; try done.
  by destruct (step statecopy amax g1).
Qed.

(** C1. At a node where the state has not ended and every legal action of
    its resample has a child for which the loop computes a weight
    [c.sc + self.param * math.sqrt(math.log(len(self.results) / len(c.results)))]
    above [-1], the number the loop starts from (mean scores and the
    exploration parameter are not negative in the specification):
    [select] descends into the child of an action whose weight, as
    computed in binary64, no other weight exceeds, with the successor of
    the resample by that action; and every action before it in the
    enumeration has a smaller weight, so among equal greatest weights
    the first one wins. *)
Theorem select_descends_into_best_child (fuel : nat) (self : nat)
    (state : State) (h : Heap Key) (g : Rng) (nd : TreeNode Key) :
  h !! self = Some nd -> ended state = false ->
  get_actions (copy_undeterministic state g).1 <> [] ->
  (forall a, a ∈ get_actions (copy_undeterministic state g).1 ->
     exists c w, child_weight h nd a = Ok (c, w) /\ (-1 <? w)%float = true) ->
  exists i amax cmax w,
    get_actions (copy_undeterministic state g).1 !! i = Some amax /\
    child_weight h nd amax = Ok (cmax, w) /\
    (forall j a c' w',
       get_actions (copy_undeterministic state g).1 !! j = Some a ->
       child_weight h nd a = Ok (c', w') ->
       (w' <=? w)%float = true /\ (j < i -> (w' <? w)%float = true)) /\
    select (S fuel) self state h g =
      select fuel cmax
        (step (copy_undeterministic state g).1 amax
           (copy_undeterministic state g).2).1 h
        (step (copy_undeterministic state g).1 amax
           (copy_undeterministic state g).2).2.
Proof.
  intros Hs He Hne Hall.
  rewrite (select_explored64 fuel self state h g nd Hs He).
  2: { intros a Hin. destruct (Hall a Hin) as (c & w & Hw & _).
       eapply child_weight_mem; eauto. }
  set (acts := get_actions (copy_undeterministic state g).1) in *.
  destruct (select_loop_max64 h nd acts None (-1)%float) as (r & Hrun & Hcase).
  { intros a Hin. destruct (Hall a Hin) as (c & w & Hw & _). eauto. }
  destruct Hcase as [[_ Hmax]|(i & amax & cmax & w & Hi & Hw & -> & Hgt & Hmax)].
  { exfalso. destruct acts as [|a0 acts0]; [done|].
    destruct (Hall a0) as (c0 & w0 & Hw0 & Hgt0); [apply elem_of_cons; by left|].
    pose proof (Hmax a0 c0 w0 ltac:(apply elem_of_cons; by left) Hw0) as Hno.
    unfold gt in Hno. congruence. }
  exists i, amax, cmax, w. do 2 (split; [done|]). split.
  - intros j a c' w' Hj Hw'.
    assert (Hin : a ∈ acts) by (eapply list_elem_of_lookup_2; eauto).
    destruct (Hall a Hin) as (c1 & w1 & Hw1 & Hgt1).
    rewrite Hw' in Hw1. injection Hw1 as <- <-.
    destruct (Hmax j a c' w' Hj Hw') as [Hm1 Hm2]. unfold gt in *. split.
    + destruct (float_above_total _ _ _ Hgt Hgt1) as [Hlt|Hle]; [|done].
      congruence.
    + intros Hlt. specialize (Hm2 Hlt).
      destruct (float_above_total _ _ _ Hgt1 Hgt) as [Hlt'|Hle]; [done|].
      congruence.
  - rewrite Hrun. reflexivity.
Qed.

End Selection64.

Lemma select_descends_into_best_child_witness :
  @B64.select _ _ _ _ (Toy64.toy Toy64.close) Toy64.runtime
     5 0 Toy.start Toy64.tree2 [] =
  @B64.select _ _ _ _ (Toy64.toy Toy64.close) Toy64.runtime
     4 1 (Toy.mkToy [0; 1] [0] 0) Toy64.tree2 [].
Proof.
  destruct (@select_descends_into_best_child _ _ _ _
              (Toy64.toy Toy64.close) Toy64.runtime 4 0 Toy.start
              Toy64.tree2 []
              (B64.mkTreeNode [(0, 1); (1, 2)] None
                 [0.5; 0.5000000000000001]%float 0.5%float 0.5%float
                 None None))
    as (i & amax & cmax & w & Hi & Hw & Hmax & Hsel).
  - reflexivity.
  - reflexivity.
  - discriminate.
  - intros a Hin. simpl in Hin. unfold Toy.toy_actions in Hin. simpl in Hin.
    apply elem_of_cons in Hin as [->|Hin].
    { exists 1, 0.9162773055788489%float. by vm_compute. }
    apply elem_of_cons in Hin as [->|Hin].
    { exists 2, 0.9162773055788489%float. by vm_compute. }
    by apply elem_of_nil in Hin.
  - destruct i as [|[|i]]; simpl in Hi; [| |done].
    + injection Hi as <-. vm_compute in Hw. injection Hw as <- _. exact Hsel.
    + exfalso. injection Hi as <-. vm_compute in Hw. injection Hw as _ <-.
      destruct (Hmax 0 0 1 0.9162773055788489%float) as [_ Hlt];
        [reflexivity|by vm_compute|].
      specialize (Hlt ltac:(lia)). vm_compute in Hlt. discriminate.
Defined.

(** ** The arenas of the float search are forests *)

Section Forest64.
Import B64.
Context {State Action Key Move : Type} `{Engine State Action Key Move}.
Context `{Runtime}.
Implicit Types (h : Heap Key) (nd : TreeNode Key) (g : Rng) (state : State).

Lemma same_links_refl h : same_links h h.
Proof. split; [done|]. intros m nd Hm. exists nd. done. Qed.

Lemma same_links_trans h1 h2 h3 :
  same_links h1 h2 -> same_links h2 h3 -> same_links h1 h3.
Proof.
  intros [Hl1 H1] [Hl2 H2]. split; [congruence|].
  intros m nd Hm. destruct (H1 m nd Hm) as (nd2 & Hm2 & Hc2 & Hp2 & Hn2).
  destruct (H2 m nd2 Hm2) as (nd3 & Hm3 & Hc3 & Hp3 & Hn3).
  exists nd3. split; [done|]. split; [congruence|]. split; congruence.
Qed.

Lemma same_links_insert h n nd nd' :
  h !! n = Some nd -> children nd' = children nd ->
  parent nd' = parent nd -> aname nd' = aname nd ->
  same_links h (<[n := nd']> h).
Proof.
  intros Hn Hc Hp Ha. split; [apply length_insert|].
  intros m x Hm. destruct (decide (n = m)) as [<-|Hne].
  - exists nd'. rewrite list_lookup_insert_eq by (eapply lookup_lt_Some; eauto).
    assert (x = nd) by congruence. subst x. done.
  - exists x. rewrite list_lookup_insert_ne by done. done.
Qed.

(** [backpropagate] touches no link and no label. *)
Lemma backpropagate_same_links (v : float) fuel n h h' :
  backpropagate fuel n v h = Ok h' -> same_links h h'.
Proof.
  revert n h. induction fuel as [|fuel IH]; intros n h; [done|].
  simpl. intros Hrun.
  apply bind_Ok in Hrun as (nd & Hnd & Hrun). apply of_option_Ok in Hnd.
  apply bind_Ok in Hrun as (m & _ & Hrun).
  assert (Hstep : same_links h
            (<[n := set_sc m (set_results (results nd ++ [v]) nd)]> h)).
  { by eapply same_links_insert. }
  destruct (parent nd) as [p|].
  - eapply same_links_trans; [exact Hstep|]. by eapply IH.
  - injection Hrun as <-. exact Hstep.
Qed.

Lemma same_links_lookup h h' m x' :
  same_links h h' -> h' !! m = Some x' ->
  exists x, h !! m = Some x /\ children x' = children x /\
    parent x' = parent x /\ aname x' = aname x.
Proof.
  intros [Hlen Hall] Hm.
  assert (Hlt : m < length h) by (rewrite <- Hlen; eapply lookup_lt_Some; eauto).
  destruct (lookup_lt_is_Some_2 h m Hlt) as [x Hx].
  destruct (Hall m x Hx) as (x2 & Hx2 & Hf).
  exists x. split; [done|]. assert (x2 = x') by congruence. by subst x2.
Qed.

Lemma forest_same_links h h' : forest h -> same_links h h' -> forest h'.
Proof.
  intros Hf Hs. split.
  - intros n x' p Hn Hp.
    destruct (same_links_lookup _ _ _ _ Hs Hn) as (x & Hx & _ & Hpar & _).
    eapply (forest_parent_lt h Hf); eauto. congruence.
  - intros n x' k c Hn Hin.
    destruct (same_links_lookup _ _ _ _ Hs Hn) as (x & Hx & Hch & _).
    rewrite Hch in Hin.
    destruct (forest_child h Hf n x k c Hx Hin) as (cd & Hcd & Hcp & Hcn).
    destruct Hs as [_ Hall].
    destruct (Hall c cd Hcd) as (cd' & Hcd' & _ & Hp' & Hn').
    exists cd'. rewrite Hp', Hn'. done.
  - intros n x' Hn.
    destruct (same_links_lookup _ _ _ _ Hs Hn) as (x & Hx & Hch & _).
    rewrite Hch. eapply (forest_values h Hf); eauto.
Qed.

Lemma grow_lookup64 h self nd k nm m x :
  h !! self = Some nd ->
  grow h self nd k nm !! m = Some x ->
  (m = length h /\
   x = set_aname nm (set_action k (TreeNode_init (param nd) (Some self)))) \/
  (m = self /\ x = set_children (dict_set k (length h) (children nd)) nd) \/
  (m <> self /\ m < length h /\ h !! m = Some x).
Proof.
  intros Hs Hm. pose proof (lookup_lt_Some _ _ _ Hs) as Hlt.
  unfold grow in Hm.
  destruct (decide (m = length h)) as [->|Hne].
  - left. split; [done|].
    rewrite list_lookup_insert_eq in Hm
      by (rewrite length_insert, length_app; simpl; lia).
    congruence.
  - rewrite list_lookup_insert_ne in Hm by done. right.
    destruct (decide (m = self)) as [->|Hns].
    + left. split; [done|].
      rewrite list_lookup_insert_eq in Hm by (rewrite length_app; simpl; lia).
      congruence.
    + right. rewrite list_lookup_insert_ne in Hm by done.
      assert (m < length h).
      { apply lookup_lt_Some in Hm. rewrite length_app in Hm. simpl in Hm. lia. }
      rewrite lookup_app_l in Hm by done. done.
Qed.

Lemma grow_lookup_lt64 h self nd k nm m xo :
  h !! self = Some nd -> h !! m = Some xo ->
  exists x, grow h self nd k nm !! m = Some x /\
    parent x = parent xo /\ aname x = aname xo.
Proof.
  intros Hs Hm. pose proof (lookup_lt_Some _ _ _ Hs) as Hlt.
  pose proof (lookup_lt_Some _ _ _ Hm) as Hlm. unfold grow.
  rewrite list_lookup_insert_ne by lia.
  destruct (decide (m = self)) as [->|Hne].
  - rewrite list_lookup_insert_eq by (rewrite length_app; simpl; lia).
    assert (xo = nd) by congruence. subst xo.
    eexists. split; [reflexivity|]. done.
  - rewrite list_lookup_insert_ne by done. rewrite lookup_app_l by done.
    exists xo. done.
Qed.

Lemma grow_forest h self nd k nm :
  forest h -> h !! self = Some nd -> forest (grow h self nd k nm).
Proof.
  intros Hf Hs. pose proof (lookup_lt_Some _ _ _ Hs) as Hlt. split.
  - intros m x p Hm Hp.
    destruct (grow_lookup64 _ _ _ _ _ _ _ Hs Hm) as [[-> ->]|[[-> ->]|(_ & _ & Hx)]].
    + simpl in Hp. injection Hp as <-. done.
    + simpl in Hp. eapply (forest_parent_lt h Hf); eauto.
    + eapply (forest_parent_lt h Hf); eauto.
  - intros m x k' c Hm Hin.
    assert (Hold : forall m' xo, h !! m' = Some xo -> (k', c) ∈ children xo ->
      exists cd, grow h self nd k nm !! c = Some cd /\
                 parent cd = Some m' /\ is_Some (aname cd)).
    { intros m' xo Hxo Hin'.
      destruct (forest_child h Hf m' xo k' c Hxo Hin') as (cd & Hcd & Hcp & Hcn).
      destruct (grow_lookup_lt64 h self nd k nm c cd Hs Hcd)
        as (cd' & Hcd' & Hp' & Hn').
      exists cd'. rewrite Hp', Hn'. done. }
    destruct (grow_lookup64 _ _ _ _ _ _ _ Hs Hm) as [[-> ->]|[[-> ->]|(_ & _ & Hx)]].
    + simpl in Hin. by apply elem_of_nil in Hin.
    + simpl in Hin. apply elem_of_dict_set in Hin as [Heq|Hin]; [|eauto].
      inversion Heq; subst. eexists. split.
      * unfold grow. apply list_lookup_insert_eq.
        rewrite length_insert, length_app. simpl. lia.
      * simpl. eauto.
    + eauto.
  - intros m x Hm.
    destruct (grow_lookup64 _ _ _ _ _ _ _ Hs Hm) as [[-> ->]|[[-> ->]|(_ & _ & Hx)]].
    + simpl. apply NoDup_nil_2.
    + simpl. apply NoDup_dict_set; [eapply (forest_values h Hf); eauto|].
      intros Hin. unfold dict_values in Hin.
      apply list_elem_of_fmap in Hin as ([k' c] & Hc & Hin). simpl in Hc. subst c.
      destruct (forest_child h Hf self nd k' (length h) Hs Hin) as (cd & Hcd & _).
      apply lookup_lt_Some in Hcd. lia.
    + eapply (forest_values h Hf); eauto.
Qed.

Lemma expand_grow64 fuel self state available h g nd :
  h !! self = Some nd ->
  expand fuel self state available h g =
    '(choice, g2) ← random_choice available (copy_undeterministic state g).2;
    rollout fuel (length h) (step (copy_undeterministic state g).1 choice g2).1
      (grow h self nd (key choice) (str choice))
      (step (copy_undeterministic state g).1 choice g2).2.
Proof.
  intros Hs. unfold expand.
  destruct (copy_undeterministic state g) as [statecopy g1]. simpl.
  destruct (random_choice available g1) as [[choice g2]| |]; simpl; try done.
  unfold get_node. rewrite Hs. simpl.
  pose proof (lookup_lt_Some _ _ _ Hs) as Hlt.
  rewrite list_lookup_insert_ne by lia.
  rewrite lookup_app_r by lia. rewrite Nat.sub_diag. simpl.
  destruct (step statecopy choice g2) as [s' g3]. reflexivity.
Qed.

Lemma rollout_forest fuel n state h g h' g' :
  forest h -> rollout fuel n state h g = Ok (h', g') -> forest h'.
Proof.
  intros Hf Hrun. unfold rollout in Hrun.
  apply bind_Ok in Hrun as ([s' g1] & _ & Hrun).
  apply bind_Ok in Hrun as (h1 & Hbp & Hrun). injection Hrun as <- <-.
  eapply forest_same_links; [exact Hf|]. by eapply backpropagate_same_links.
Qed.

Lemma expand_forest fuel self state available h g h' g' :
  forest h -> expand fuel self state available h g = Ok (h', g') -> forest h'.
Proof.
  intros Hf Hrun.
  destruct (h !! self) as [nd|] eqn:Hs.
  - rewrite (expand_grow64 _ _ _ _ _ _ nd Hs) in Hrun.
    apply bind_Ok in Hrun as ([choice g2] & _ & Hrun).
    eapply rollout_forest; [|exact Hrun]. by apply grow_forest.
  - unfold expand in Hrun.
    destruct (copy_undeterministic state g) as [statecopy g1].
    apply bind_Ok in Hrun as ([choice g2] & _ & Hrun).
    unfold get_node in Hrun. rewrite Hs in Hrun. done.
Qed.

Lemma select_forest fuel self state h g h' g' :
  forest h -> select fuel self state h g = Ok (h', g') -> forest h'.
Proof.
  revert self state g. induction fuel as [|fuel IH]; intros self state g Hf; [done|].
  simpl. destruct (ended state).
  - intros Hrun. apply bind_Ok in Hrun as (h1 & Hbp & Hrun).
    injection Hrun as <- <-.
    eapply forest_same_links; [exact Hf|]. by eapply backpropagate_same_links.
  - destruct (copy_undeterministic state g) as [statecopy g1].
    intros Hrun. apply bind_Ok in Hrun as (nd & Hnd & Hrun).
    destruct (0 <? _).
    + eapply expand_forest; eauto.
    + apply bind_Ok in Hrun as (best & _ & Hrun).
      destruct best as [[amax cmax]|]; [|done].
      destruct (step statecopy amax g1) as [s' g2]. eapply IH; eauto.
Qed.

Lemma forest_root (p : float) : forest [TreeNode_init (Key := Key) p None].
Proof.
  split.
  - intros [|n] nd q Hn Hq; simpl in *; [|done]. injection Hn as <-. done.
  - intros [|n] nd k c Hn Hin; simpl in *; [|done]. injection Hn as <-.
    simpl in Hin. by apply elem_of_nil in Hin.
  - intros [|n] nd Hn; simpl in *; [|done]. injection Hn as <-.
    simpl. apply NoDup_nil_2.
Qed.

Lemma reachable_forest h : reachable h -> forest h.
Proof.
  induction 1 as [p|h fuel state g h' g' _ IH Hstep].
  - apply forest_root.
  - eapply select_forest; eauto.
Qed.

End Forest64.

Lemma reachable_tree2_64 :
  @B64.reachable _ _ _ _ (Toy64.toy Toy64.close) Toy64.runtime Toy64.tree2.
Proof.
  apply (@B64.reach_step _ _ _ _ (Toy64.toy Toy64.close) Toy64.runtime
           [B64.mkTreeNode [(0, 1)] None [0.5%float] 0.5%float 0.5%float
              None None;
            B64.mkTreeNode [] (Some 0) [0.5%float] 0.5%float 0.5%float
              (Some 0) (Some "A"%string)]
           4 Toy.start [0; 2; 0] _ []).
  - apply (@B64.reach_step _ _ _ _ (Toy64.toy Toy64.close) Toy64.runtime
             [B64.TreeNode_init 0.5%float None] 4 Toy.start [] _ []).
    + apply B64.reach_root.
    + vm_compute. reflexivity.
  - vm_compute. reflexivity.
Qed.

Lemma reachable_tree1_64 :
  @B64.reachable _ _ _ _ (Toy64.toy Toy64.thirds) Toy64.runtime Toy64.tree1.
Proof.
  apply (@B64.reach_step _ _ _ _ (Toy64.toy Toy64.thirds) Toy64.runtime
           [B64.TreeNode_init 0.5%float None] 4 Toy.start [] _ []).
  - apply B64.reach_root.
  - vm_compute. reflexivity.
Qed.

(** ** The final choice on floats *)

Section FinalChoice64.
Import B64.
Context {State Action Key Move : Type} `{Engine State Action Key Move}.
Context `{Runtime}.
Implicit Types (h : Heap Key) (nd : TreeNode Key) (g : Rng) (state : State).

Lemma get_best_loop_child64 h nd a rest amax cw m :
  child_mean h nd a = Some m ->
  get_best_loop h nd (a :: rest) amax cw =
    if gt m cw then get_best_loop h nd rest (Some a) m
    else get_best_loop h nd rest amax cw.
Proof.
  unfold child_mean, dict_mem. simpl. unfold dict_mem, get_node.
  destruct (dict_get (key a) (children nd)) as [c|]; [|done]. simpl.
  destruct (h !! c) as [cn|]; [|done]. simpl.
  intros [= ->]. reflexivity.
Qed.

Lemma get_best_loop_skip64 h nd a rest amax cw :
  dict_mem (key a) (children nd) = false ->
  get_best_loop h nd (a :: rest) amax cw = get_best_loop h nd rest amax cw.
Proof. intros Hm. simpl. by rewrite Hm. Qed.

(** In a forest an action has a child with a mean, or no child. *)
Lemma child_mean_cases64 h self nd a :
  forest h -> h !! self = Some nd ->
  (exists m, child_mean h nd a = Some m /\
     dict_mem (key a) (children nd) = true) \/
  (child_mean h nd a = None /\ dict_mem (key a) (children nd) = false).
Proof.
  intros Hf Hs. unfold child_mean, dict_mem.
  destruct (dict_get (key a) (children nd)) as [c|] eqn:Hg; [|by right].
  apply dict_get_elem_of in Hg.
  destruct (forest_child h Hf self nd (key a) c Hs Hg) as (cd & -> & _).
  left. eauto.
Qed.

(** The loop keeps the first action among those whose child has a mean
    that no other mean exceeds, if that mean exceeds the one the loop
    starts from. *)
Lemma get_best_loop_max64 h self nd acts amax cw :
  forest h -> h !! self = Some nd ->
  exists r, get_best_loop h nd acts amax cw = Ok r /\
    ((r = amax /\
      forall a m, a ∈ acts -> child_mean h nd a = Some m -> gt m cw = false) \/
     (exists i a m,
        acts !! i = Some a /\ child_mean h nd a = Some m /\
        r = Some a /\ gt m cw = true /\
        forall j a' m', acts !! j = Some a' ->
          child_mean h nd a' = Some m' ->
          gt m' m = false /\ (j < i -> (m <=? m')%float = false))).
Proof.
  intros Hf Hs. revert amax cw.
  induction acts as [|a acts IH]; intros amax cw.
  - exists amax. split; [reflexivity|]. left. split; [done|].
    intros a m Hin. by apply elem_of_nil in Hin.
  - destruct (child_mean_cases64 h self nd a Hf Hs) as [(m & Hm & _)|[Hnone Hskip]].
    + rewrite (get_best_loop_child64 h nd a acts amax cw m Hm).
      destruct (gt m cw) eqn:Hgt.
      * destruct (IH (Some a) m) as (r & Hr & [[-> Hmax]|Hlater]).
        -- exists (Some a). split; [done|]. right.
           exists 0, a, m. do 4 (split; [done|]).
           intros j a' m' Hj Hm'. destruct j as [|j]; simpl in Hj.
           ++ injection Hj as <-. rewrite Hm in Hm'. injection Hm' as <-.
              split; [apply float_lt_irrefl|lia].
           ++ split; [|lia]. eapply Hmax; [eapply list_elem_of_lookup_2|]; eauto.
        -- destruct Hlater as (i & a1 & m1 & Hi & Hm1 & -> & Hlt & Hmax).
           exists (Some a1). split; [done|]. right.
           exists (S i), a1, m1. do 3 (split; [done|]).
           split; [unfold gt in *; eapply float_lt_trans; eauto|].
           intros j a' m' Hj Hm'. destruct j as [|j]; simpl in Hj.
           ++ injection Hj as <-. rewrite Hm in Hm'. injection Hm' as <-.
              unfold gt in *.
              pose proof (float_lt_not_le _ _ Hlt) as Hnle.
              split; [|done].
              destruct (m1 <? m)%float eqn:E; [|done].
              apply float_lt_le in E. congruence.
           ++ destruct (Hmax j a' m' Hj Hm') as [Hm2 Hm3].
              split; [done|]. intros Hlt'. apply Hm3. lia.
      * destruct (IH amax cw) as (r & Hr & [[-> Hmax]|Hlater]).
        -- exists amax. split; [done|]. left. split; [done|].
           intros a' m' Hin Hm'. apply elem_of_cons in Hin as [->|Hin].
           ++ rewrite Hm in Hm'. injection Hm' as <-. done.
           ++ eapply Hmax; eauto.
        -- destruct Hlater as (i & a1 & m1 & Hi & Hm1 & -> & Hlt & Hmax).
           exists (Some a1). split; [done|]. right.
           exists (S i), a1, m1. do 4 (split; [done|]).
           intros j a' m' Hj Hm'. destruct j as [|j]; simpl in Hj.
           ++ injection Hj as <-. rewrite Hm in Hm'. injection Hm' as <-.
              unfold gt in *.
              assert (Hnle : (m1 <=? m)%float = false).
              { destruct (m1 <=? m)%float eqn:E; [|done].
                pose proof (float_lt_le_trans _ _ _ Hlt E). congruence. }
              split; [|done].
              destruct (m1 <? m)%float eqn:E; [|done].
              apply float_lt_le in E. congruence.
           ++ destruct (Hmax j a' m' Hj Hm') as [Hm2 Hm3].
              split; [done|]. intros Hlt'. apply Hm3. lia.
    + rewrite (get_best_loop_skip64 h nd a acts amax cw Hskip).
      destruct (IH amax cw) as (r & Hr & [[-> Hmax]|Hlater]).
      * exists amax. split; [done|]. left. split; [done|].
        intros a' m' Hin Hm'. apply elem_of_cons in Hin as [->|Hin].
        -- congruence.
        -- eapply Hmax; eauto.
      * destruct Hlater as (i & a1 & m1 & Hi & Hm1 & -> & Hlt & Hmax).
        exists (Some a1). split; [done|]. right.
        exists (S i), a1, m1. do 4 (split; [done|]).
        intros j a' m' Hj Hm'. destruct j as [|j]; simpl in Hj.
        -- injection Hj as <-. congruence.
        -- destruct (Hmax j a' m' Hj Hm') as [Hm2 Hm3].
           split; [done|]. intros Hlt'. apply Hm3. lia.
Qed.

(** C3. In an arena the search can be in, for a state with at least one
    legal action whose children, where it has them, have a mean score
    above [-1], the number the loop starts from (mean scores are not
    negative in the specification): [get_best] returns a legal action of
    that state.  If some legal action has a child, it is, with no random
    draw, an action whose child has a mean score, as stored in binary64,
    that no other child's exceeds, and every action before it in the
    enumeration has a child of smaller mean or none.  It is the outcome
    of [random.choice] on the legal actions exactly when no legal action
    has a child. *)
Theorem get_best_returns_legal_action (self : nat) (state : State)
    (h : Heap Key) (g : Rng) (nd : TreeNode Key) :
  reachable h -> h !! self = Some nd -> get_actions state <> [] ->
  (forall a m, a ∈ get_actions state -> child_mean h nd a = Some m ->
     (-1 <? m)%float = true) ->
  exists a g', get_best self state h g = Ok (a, g') /\
    a ∈ get_actions state /\
    ((exists i m,
        get_actions state !! i = Some a /\ child_mean h nd a = Some m /\
        g' = g /\
        forall j a' m', get_actions state !! j = Some a' ->
          child_mean h nd a' = Some m' ->
          (m' <=? m)%float = true /\ (j < i -> (m' <? m)%float = true)) \/
     ((forall a', a' ∈ get_actions state ->
         dict_mem (key a') (children nd) = false) /\
      random_choice (get_actions state) g = Ok (a, g'))).
Proof.
  intros Hr Hs Hne Habove. pose proof (reachable_forest h Hr) as Hf.
  unfold get_best, get_node. rewrite Hs. simpl.
  destruct (get_best_loop_max64 h self nd (get_actions state) None (-1)%float Hf Hs)
    as (r & -> & Hcase). simpl.
  destruct Hcase as [[-> Hmax]|(i & a & m & Hi & Hm & -> & Hgt & Hmax)].
  - destruct (random_choice_Ok (get_actions state) g Hne) as (a & g' & Hc & Hin).
    exists a, g'. split; [done|]. split; [done|]. right. split; [|done].
    intros a' Hin'.
    destruct (child_mean_cases64 h self nd a' Hf Hs) as [(m & Hm & _)|[_ Hskip]];
      [|done].
    pose proof (Hmax a' m Hin' Hm) as Hno. unfold gt in Hno.
    rewrite (Habove a' m Hin' Hm) in Hno. done.
  - exists a, g. split; [done|].
    assert (Hin : a ∈ get_actions state) by (eapply list_elem_of_lookup_2; eauto).
    split; [done|]. left. exists i, m. do 3 (split; [done|]).
    intros j a' m' Hj Hm'.
    assert (Hin' : a' ∈ get_actions state) by (eapply list_elem_of_lookup_2; eauto).
    pose proof (Habove a m Hin Hm) as Ha.
    pose proof (Habove a' m' Hin' Hm') as Ha'.
    destruct (Hmax j a' m' Hj Hm') as [Hm1 Hm2]. unfold gt in *. split.
    + destruct (float_above_total _ _ _ Ha Ha') as [Hlt|Hle]; [|done].
      congruence.
    + intros Hlt. specialize (Hm2 Hlt).
      destruct (float_above_total _ _ _ Ha' Ha) as [Hlt'|Hle]; [done|].
      congruence.
Qed.

(** X12. Whatever the scores are, [get_best] on an arena the search can
    be in, for a state with a legal action, does not fail and returns a
    legal action: one that has a child, with no random draw, or the
    outcome of [random.choice] on the legal actions. *)
Theorem get_best_never_fails (self : nat) (state : State)
    (h : Heap Key) (g : Rng) (nd : TreeNode Key) :
  reachable h -> h !! self = Some nd -> get_actions state <> [] ->
  exists a g', get_best self state h g = Ok (a, g') /\
    a ∈ get_actions state /\
    ((dict_mem (key a) (children nd) = true /\ g' = g) \/
     random_choice (get_actions state) g = Ok (a, g')).
Proof.
  intros Hr Hs Hne. pose proof (reachable_forest h Hr) as Hf.
  unfold get_best, get_node. rewrite Hs. simpl.
  destruct (get_best_loop_max64 h self nd (get_actions state) None (-1)%float Hf Hs)
    as (r & -> & Hcase). simpl.
  destruct Hcase as [[-> Hmax]|(i & a & m & Hi & Hm & -> & Hgt & Hmax)].
  - destruct (random_choice_Ok (get_actions state) g Hne) as (a & g' & Hc & Hin).
    exists a, g'. split; [done|]. split; [done|]. by right.
  - exists a, g. split; [done|].
    split; [eapply list_elem_of_lookup_2; eauto|]. left. split; [|done].
    destruct (child_mean_cases64 h self nd a Hf Hs) as [(m' & _ & Hd)|[Hn _]];
      [done|congruence].
Qed.

End FinalChoice64.

Lemma get_best_returns_legal_action_witness :
  @B64.get_best _ _ _ _ (Toy64.toy Toy64.close) 0 Toy.start Toy64.tree2 [0]
  = Ok (1, [0]).
Proof.
  destruct (@get_best_returns_legal_action _ _ _ _
              (Toy64.toy Toy64.close) Toy64.runtime 0 Toy.start Toy64.tree2 [0]
              (B64.mkTreeNode [(0, 1); (1, 2)] None
                 [0.5; 0.5000000000000001]%float 0.5%float 0.5%float
                 None None))
    as (a & g' & Hrun & Hin & _).
  - apply reachable_tree2_64.
  - reflexivity.
  - discriminate.
  - intros a m Hin. simpl in Hin. unfold Toy.toy_actions in Hin. simpl in Hin.
    apply elem_of_cons in Hin as [->|Hin].
    { vm_compute. by intros [= <-]. }
    apply elem_of_cons in Hin as [->|Hin].
    { vm_compute. by intros [= <-]. }
    by apply elem_of_nil in Hin.
  - rewrite Hrun. vm_compute in Hrun. symmetry. exact Hrun.
Defined.

Lemma get_best_never_fails_witness :
  exists a g',
    @B64.get_best _ _ _ _ (Toy64.toy Toy64.thirds) 0 Toy.start Toy64.tree1 [1]
    = Ok (a, g') /\ a ∈ [0; 1].
Proof.
  destruct (@get_best_never_fails _ _ _ _
              (Toy64.toy Toy64.thirds) Toy64.runtime 0 Toy.start Toy64.tree1 [1]
              (B64.mkTreeNode [(0, 1)] None [(2 / 3)%float] 0.5%float
                 (2 / 3)%float None None))
    as (a & g' & Hrun & Hin & _).
  - apply reachable_tree1_64.
  - reflexivity.
  - discriminate.
  - exists a, g'. split; [exact Hrun|exact Hin].
Defined.

(** ** The printed tree on floats *)

Section Printing64.
Import B64.
Context {Key : Type} `{Runtime}.
Implicit Types (h : Heap Key) (nd : TreeNode Key).

Lemma anc_le64 h n m : forest h -> anc h n m -> m <= n.
Proof.
  intros Hf Ha. induction Ha as [n|n nd p m Hn Hp _ IH]; [lia|].
  pose proof (forest_parent_lt h Hf _ _ _ Hn Hp). lia.
Qed.

Lemma anc_comparable64 h x a b :
  anc h x a -> anc h x b -> anc h a b \/ anc h b a.
Proof.
  intros Ha. revert b. induction Ha as [x|x nd p a Hx Hp Ha IH]; intros b Hb.
  - by left.
  - inversion Hb as [|? nd' p' ? Hx' Hp' Hb']; subst.
    + right. eapply anc_up; eauto.
    + assert (nd' = nd) by congruence. subst nd'.
      assert (p' = p) by congruence. subst p'. by apply IH.
Qed.

Lemma anc_trans64 h a b c : anc h a b -> anc h b c -> anc h a c.
Proof.
  intros Hab Hbc. induction Hab as [a|a nd p b Ha Hp _ IH]; [done|].
  eapply anc_up; eauto.
Qed.

Lemma below_anc64 h a x d : forest h -> below h a x d -> anc h x a /\ a < x.
Proof.
  intros Hf Hb.
  induction Hb as [a nd k c Ha Hin|a nd k c c' d Ha Hin _ [IHa IHlt]].
  - destruct (forest_child h Hf a nd k c Ha Hin) as (cd & Hc & Hp & _).
    split; [eapply anc_up; eauto; constructor|].
    eapply (forest_parent_lt h Hf); eauto.
  - destruct (forest_child h Hf a nd k c Ha Hin) as (cd & Hc & Hp & _).
    pose proof (forest_parent_lt h Hf c cd a Hc Hp).
    split; [|lia]. eapply anc_trans64; [exact IHa|].
    eapply anc_up; eauto. constructor.
Qed.

(** The subtrees of two children of a node share no node. *)
Lemma siblings_disjoint64 h self nd k1 c1 k2 c2 x :
  forest h -> h !! self = Some nd ->
  (k1, c1) ∈ children nd -> (k2, c2) ∈ children nd -> c1 <> c2 ->
  (x = c1 \/ exists d, below h c1 x d) ->
  (x = c2 \/ exists d, below h c2 x d) -> False.
Proof.
  intros Hf Hs H1 H2 Hne Hx1 Hx2.
  assert (Ha1 : anc h x c1).
  { destruct Hx1 as [->|[d Hb]]; [constructor|]. by eapply below_anc64. }
  assert (Ha2 : anc h x c2).
  { destruct Hx2 as [->|[d Hb]]; [constructor|]. by eapply below_anc64. }
  destruct (forest_child h Hf self nd k1 c1 Hs H1) as (cd1 & Hc1 & Hp1 & _).
  destruct (forest_child h Hf self nd k2 c2 Hs H2) as (cd2 & Hc2 & Hp2 & _).
  pose proof (forest_parent_lt h Hf c1 cd1 self Hc1 Hp1).
  pose proof (forest_parent_lt h Hf c2 cd2 self Hc2 Hp2).
  destruct (anc_comparable64 h x c1 c2 Ha1 Ha2) as [Hc|Hc].
  - inversion Hc as [|? y q ? Hy Hq Hrest]; subst; [done|].
    assert (y = cd1) by congruence. subst y.
    assert (q = self) by congruence. subst q.
    apply anc_le64 in Hrest; [lia|done].
  - inversion Hc as [|? y q ? Hy Hq Hrest]; subst; [done|].
    assert (y = cd2) by congruence. subst y.
    assert (q = self) by congruence. subst q.
    apply anc_le64 in Hrest; [lia|done].
Qed.

Lemma line_of_deeper64 h indent c d line :
  line_of h (S indent) (c, d) line -> line_of h indent (c, S d) line.
Proof.
  intros (x & nm & k & Hc & Hn & Hk & ->). exists x, nm, k. simpl in *.
  rewrite Nat.add_succ_r. done.
Qed.

(** [int] of a finite float is defined. *)
Lemma py_int_finite (x : float) :
  is_finite x = true -> exists k, py_int x = Ok k.
Proof.
  unfold is_finite. intros Hfin. apply negb_true_iff in Hfin.
  apply orb_false_iff in Hfin as [Hnan Hinf].
  unfold py_int, Prim2SF. rewrite Hnan, Hinf.
  destruct (is_zero x); [by eexists|].
  repeat match goal with
         | |- context [let (_, _) := ?t in _] => destruct t
         end.
  match goal with |- context [shr_m ?s] => destruct (shr_m s) end; by eexists.
Qed.

Lemma print_each_ok64 h indent (rec : nat -> res (list string)) self nd vs :
  forest h -> h !! self = Some nd ->
  (forall c, c ∈ vs -> exists k, (k, c) ∈ children nd) -> NoDup vs ->
  (forall c x, c ∈ vs -> h !! c = Some x ->
     is_finite (sc x * 100) = true) ->
  (forall c, c ∈ vs -> exists cs lines,
     rec c = Ok lines /\ NoDup cs.*1 /\
     (forall c' d, (c', d) ∈ cs <-> below h c c' d) /\
     Forall2 (line_of h (S indent)) cs lines) ->
  exists cs lines,
    print_each h indent rec vs = Ok lines /\ NoDup cs.*1 /\
    (forall c' d, (c', d) ∈ cs <->
       exists c, c ∈ vs /\
         ((c' = c /\ d = 0) \/ exists d', d = S d' /\ below h c c' d')) /\
    Forall2 (line_of h indent) cs lines.
Proof.
  intros Hf Hs.
  induction vs as [|c vs IH]; intros Hch Hnd Hfin Hrec.
  - exists [], []. split; [done|]. split; [constructor|]. split; [|constructor].
    intros c' d. split.
    + intros Hin. by apply elem_of_nil in Hin.
    + intros (c & Hin & _). by apply elem_of_nil in Hin.
  - apply NoDup_cons in Hnd as [Hc Hnd].
    destruct (Hch c) as [k Hk]; [apply elem_of_cons; by left|].
    destruct (forest_child h Hf self nd k c Hs Hk) as (x & Hx & Hp & [nm Hnm]).
    destruct (py_int_finite (sc x * 100)) as [z Hz].
    { eapply Hfin; [apply elem_of_cons; by left|done]. }
    destruct (Hrec c) as (csc & linesc & Hrc & Hndc & Hmemc & Hlc);
      [apply elem_of_cons; by left|].
    destruct IH as (cs' & lines' & Hrun' & Hnd' & Hmem' & Hl').
    { intros c0 Hin. apply Hch. apply elem_of_cons. by right. }
    { done. }
    { intros c0 x0 Hin. apply Hfin. apply elem_of_cons. by right. }
    { intros c0 Hin. apply Hrec. apply elem_of_cons. by right. }
    exists ((c, 0) :: ((fun yd : nat * nat => (yd.1, S yd.2)) <$> csc) ++ cs').
    eexists. split.
    { simpl. unfold get_node. rewrite Hx. simpl. unfold tree_line. rewrite Hnm.
      simpl. unfold shown_score. rewrite Hz. simpl.
      rewrite Hrc. simpl. rewrite Hrun'. simpl. reflexivity. }
    assert (Hfst : ((fun yd : nat * nat => (yd.1, S yd.2)) <$> csc).*1 = csc.*1).
    { rewrite <- list_fmap_compose. apply list_fmap_ext. by intros i [a b]. }
    assert (Hsub : forall y, y ∈ csc.*1 -> exists d, below h c y d).
    { intros y Hy. apply list_elem_of_fmap in Hy as ([y' d] & -> & Hy).
      exists d. by apply Hmemc. }
    assert (Hsub' : forall y, y ∈ cs'.*1 ->
              exists c0 k0, c0 ∈ vs /\ (k0, c0) ∈ children nd /\
                (y = c0 \/ exists d, below h c0 y d)).
    { intros y Hy. apply list_elem_of_fmap in Hy as ([y' d] & -> & Hy).
      apply Hmem' in Hy as (c0 & Hc0 & Hcase).
      destruct (Hch c0) as [k0 Hk0]; [apply elem_of_cons; by right|].
      exists c0, k0. split; [done|]. split; [done|].
      destruct Hcase as [[-> _]|(d' & _ & Hb)]; [by left|right; eauto]. }
    split; [|split].
    + simpl. rewrite fmap_app, Hfst. apply NoDup_cons. split.
      * intros Hin. apply elem_of_app in Hin as [Hin|Hin].
        -- destruct (Hsub c Hin) as [d Hb].
           apply below_anc64 in Hb as [_ Hlt]; [lia|done].
        -- destruct (Hsub' c Hin) as (c0 & k0 & Hc0 & Hk0 & Hcase).
           eapply (siblings_disjoint64 h self nd k c k0 c0 c); eauto.
           intros ->. done.
      * apply NoDup_app. split; [done|]. split; [|done].
        intros y Hy Hy'. destruct (Hsub y Hy) as [d Hb].
        destruct (Hsub' y Hy') as (c0 & k0 & Hc0 & Hk0 & Hcase).
        eapply (siblings_disjoint64 h self nd k c k0 c0 y); eauto.
        intros ->. done.
    + intros c' d. split.
      * intros Hin. apply elem_of_cons in Hin as [Heq|Hin].
        { injection Heq as -> ->. exists c. split; [apply elem_of_cons; by left|].
          by left. }
        apply elem_of_app in Hin as [Hin|Hin].
        { apply list_elem_of_fmap in Hin as ([y d0] & Heq & Hin).
          simpl in Heq. injection Heq as -> ->.
          exists c. split; [apply elem_of_cons; by left|].
          right. exists d0. split; [done|]. by apply Hmemc. }
        apply Hmem' in Hin as (c0 & Hc0 & Hcase).
        exists c0. split; [apply elem_of_cons; by right|done].
      * intros (c0 & Hc0 & Hcase). apply elem_of_cons in Hc0 as [->|Hc0].
        { destruct Hcase as [[-> ->]|(d' & -> & Hb)].
          - apply elem_of_cons. by left.
          - apply elem_of_cons. right. apply elem_of_app. left.
            apply list_elem_of_fmap. exists (c', d'). split; [done|].
            by apply Hmemc. }
        apply elem_of_cons. right. apply elem_of_app. right.
        apply Hmem'. eauto.
    + apply Forall2_cons. split.
      { exists x, nm, z. simpl. rewrite Nat.add_0_r. done. }
      apply Forall2_app; [|done].
      apply Forall2_fmap_l. eapply Forall2_impl; [exact Hlc|].
      intros [y d] line Hline. by apply line_of_deeper64.
Qed.

Lemma print_tree_ok64 h fuel self indent nd :
  forest h -> h !! self = Some nd -> length h <= fuel + self ->
  (forall c d x, below h self c d -> h !! c = Some x ->
     is_finite (sc x * 100) = true) ->
  exists cs lines,
    print_tree fuel self indent h = Ok lines /\ NoDup cs.*1 /\
    (forall c d, (c, d) ∈ cs <-> below h self c d) /\
    Forall2 (line_of h indent) cs lines.
Proof.
  intros Hf.
  revert self indent nd.
  induction fuel as [|fuel IH]; intros self indent nd Hs Hfu Hfin.
  { apply lookup_lt_Some in Hs. lia. }
  destruct (print_each_ok64 h indent
              (fun c => print_tree fuel c (S indent) h)
              self nd (dict_values (children nd)) Hf Hs)
    as (cs & lines & Hrun & Hnd & Hmem & Hl).
  - intros c Hin. unfold dict_values in Hin.
    apply list_elem_of_fmap in Hin as ([k c0] & -> & Hin). eauto.
  - eapply (forest_values h Hf); eauto.
  - intros c x Hin Hx. unfold dict_values in Hin.
    apply list_elem_of_fmap in Hin as ([k c0] & -> & Hin). simpl in *.
    eapply (Hfin c0 0); [|done]. eapply below_child; eauto.
  - intros c Hin. unfold dict_values in Hin.
    apply list_elem_of_fmap in Hin as ([k c0] & -> & Hin). simpl.
    destruct (forest_child h Hf self nd k c0 Hs Hin) as (x & Hx & Hp & _).
    pose proof (forest_parent_lt h Hf c0 x self Hx Hp).
    apply (IH c0 (S indent) x Hx); [lia|].
    intros c d y Hb Hy. eapply (Hfin c (S d)); [|done].
    eapply below_deeper; eauto.
  - exists cs, lines. split.
    { simpl. unfold get_node. rewrite Hs. simpl. exact Hrun. }
    split; [done|]. split; [|done].
    intros c d. rewrite Hmem. split.
    + intros (c0 & Hin & Hcase). unfold dict_values in Hin.
      apply list_elem_of_fmap in Hin as ([k c1] & -> & Hin). simpl in *.
      destruct Hcase as [[-> ->]|(d' & -> & Hb)].
      * eapply below_child; eauto.
      * eapply below_deeper; eauto.
    + intros Hb.
      inversion Hb as [? nd' k c0 Hs' Hin|? nd' k c0 ? d' Hs' Hin Hb']; subst.
      * assert (nd' = nd) by congruence. subst nd'.
        exists c. split; [|by left].
        unfold dict_values. apply list_elem_of_fmap. by exists (k, c).
      * assert (nd' = nd) by congruence. subst nd'.
        exists c0. split; [|right; eauto].
        unfold dict_values. apply list_elem_of_fmap. by exists (k, c0).
Qed.

End Printing64.

Section PrintedTree64.
Import B64.
Context {State Action Key Move : Type} `{Engine State Action Key Move}.
Context `{Runtime}.

(** C10, as the code has it. On an arena the search can be in, with fuel
    for its depth, and where the mean score of every node below [self]
    times [100] is a finite float, [print_tree] returns; its lines are, in
    order, one for each node below [self] (each node once): the text of
    the node's action, [": "], the builtin [str] of
    [int(c.sc * 100) / 100] (the product rounded to binary64, cut to an
    integer toward zero, and the quotient of that integer by [100]), a
    space, and the number of the node's results; with one tab in front
    for each level between the node and the children of [self]. *)
Theorem print_tree_one_line_per_node (h : Heap Key) (fuel self indent : nat)
    (nd : TreeNode Key) :
  reachable h -> h !! self = Some nd -> length h <= fuel + self ->
  (forall c d x, below h self c d -> h !! c = Some x ->
     is_finite (sc x * 100) = true) ->
  exists cs lines,
    print_tree fuel self indent h = Ok lines /\ NoDup cs.*1 /\
    (forall c d, (c, d) ∈ cs <-> below h self c d) /\
    Forall2 (line_of h indent) cs lines.
Proof.
  intros Hr Hs Hfu Hfin.
  apply (print_tree_ok64 h fuel self indent nd); try done.
  by apply reachable_forest.
Qed.

End PrintedTree64.

Lemma below_tree2_64 (c d : nat) :
  B64.below Toy64.tree2 0 c d -> c = 1 \/ c = 2.
Proof.
  intros Hb.
  inversion Hb as [? nd k c0 Hs Hin|? nd k c0 ? d' Hs Hin Hb']; subst.
  - injection Hs as <-. simpl in Hin.
    apply elem_of_cons in Hin as [ [= -> ->] |Hin]; [by left|].
    apply elem_of_cons in Hin as [ [= -> ->] |Hin]; [by right|].
    by apply elem_of_nil in Hin.
  - exfalso. injection Hs as <-. simpl in Hin.
    assert (Hleaf : forall x xd k' c', Toy64.tree2 !! x = Some xd ->
              x = 1 \/ x = 2 -> (k', c') ∈ B64.children xd -> False).
    { intros x xd k' c' Hx [-> | ->] Hc; injection Hx as <-;
        simpl in Hc; by apply elem_of_nil in Hc. }
    assert (Hc0 : c0 = 1 \/ c0 = 2).
    { apply elem_of_cons in Hin as [ [= -> ->] |Hin]; [by left|].
      apply elem_of_cons in Hin as [ [= -> ->] |Hin]; [by right|].
      by apply elem_of_nil in Hin. }
    inversion Hb' as [? nd' k' c1 Hs' Hin'|? nd' k' c1 ? d'' Hs' Hin' _]; subst;
      eapply Hleaf; eauto.
Qed.

Lemma print_tree_one_line_per_node_witness :
  exists cs lines,
    @B64.print_tree nat Toy64.runtime 3 0 0 Toy64.tree2 = Ok lines /\
    NoDup cs.*1 /\
    (forall c d, (c, d) ∈ cs <-> B64.below Toy64.tree2 0 c d) /\
    Forall2 (@B64.line_of nat Toy64.runtime Toy64.tree2 0) cs lines.
Proof.
  apply (@print_tree_one_line_per_node _ _ _ _
           (Toy64.toy Toy64.close) Toy64.runtime Toy64.tree2 3 0 0
           (B64.mkTreeNode [(0, 1); (1, 2)] None
              [0.5; 0.5000000000000001]%float 0.5%float 0.5%float
              None None)).
  - apply reachable_tree2_64.
  - reflexivity.
  - simpl. lia.
  - intros c d x Hb Hx.
    destruct (below_tree2_64 c d Hb) as [-> | ->]; injection Hx as <-;
      vm_compute; reflexivity.
Defined.

(** Counterexample to C10 as the specification words it. With fitness
    [2], the child of the root after one iteration has mean [2 / 3],
    nearer to [0.67] than to [0.66]; [int(c.sc * 100)] is [66] and the
    line printed for the child shows [0.66]. *)
Lemma print_tree_cuts_the_mean :
  @B64.reachable _ _ _ _ (Toy64.toy Toy64.thirds) Toy64.runtime Toy64.tree1 /\
  (exists cd, Toy64.tree1 !! 1 = Some cd /\ B64.sc cd = (2 / 3)%float /\
     B64.py_int (B64.sc cd * 100)%float = Ok 66%Z /\
     B64.shown_score cd = Ok 0.66%float) /\
  (abs (2 / 3 - 0.67) <? abs (2 / 3 - 0.66))%float = true /\
  @B64.print_tree nat Toy64.runtime 2 0 0 Toy64.tree1 = Ok ["A: 0.66 1"%string].
Proof.
  split; [apply reachable_tree1_64|]. split.
  { eexists. split; [reflexivity|]. split; [reflexivity|].
    split; vm_compute; reflexivity. }
  split; vm_compute; reflexivity.
Qed.

(** What is cut is the product as binary64 has it, not the mean: the
    mean [0.3 / 3], below [0.1], is shown as [0.1], and the mean
    [0.87 / 3], which is [0.29] as a float, is shown as [0.28]. *)
Lemma shown_score_of_a_product :
  let node (m : float) : B64.TreeNode nat :=
    B64.mkTreeNode [] (Some 0) [m] 0.5%float m (Some 0) (Some "A"%string) in
  ((0.3 / 3 <? 0.1)%float = true /\
   B64.shown_score (node (0.3 / 3)%float) = Ok 0.1%float) /\
  ((0.87 / 3 =? 0.29)%float = true /\
   B64.shown_score (node (0.87 / 3)%float) = Ok 0.28%float).
Proof. vm_compute. done. Qed.
